(** * rag.js: chunker and vector store, embedded in Rocq

    A shallow embedding of [src/chunker.ts] and [src/vector-store.ts], and of
    what [src/embeddings.ts], [src/rag.ts] and [src/cli.ts] build on them.

    Conventions of the embedding:
    - a JavaScript string is the list of its UTF-16 code units ([jsstring]);
      [length] is therefore the [.length] of the source;
    - integer-valued numbers (sizes, indices, [topK], [dimensions]) are [Z];
      the numbers of embeddings and scores are IEEE-754 binary64 values
      ([float], the kernel's primitive floats);
    - a call that may throw returns an [outcome]; a method that mutates the
      store returns the outcome together with the store after the call;
    - the only loop of the source that is not bounded by its input (the
      [while] of [mergeSegments]) runs on fuel, and [OutOfFuel] is the answer
      when the fuel does not suffice. *)

From Stdlib Require Import String Ascii ZArith NArith List Bool Lia.
From Stdlib Require Import Floats DecimalString Sorted Permutation.
From Stdlib Require DecimalPos DecimalN.
Import ListNotations.

Set Implicit Arguments.
Open Scope Z_scope.

(** ** Outcomes of calls *)

(** The source throws plain [Error]s and tells them apart by message; the
    constructors below name the kinds.  [InvalidArgument] carries the
    message of the check that failed. *)
Inductive error : Type :=
| InvalidArgument (msg : string)
| DimensionMismatch
| InvalidFormat
| UnsupportedVersion
| RangeError
| SyntaxError
| TypeError.

Inductive outcome (A : Type) : Type :=
| Ok (a : A)
| Throw (e : error)
| OutOfFuel.

Arguments Ok {A} a.
Arguments Throw {A} e.
Arguments OutOfFuel {A}.

Definition bind {A B} (m : outcome A) (k : A -> outcome B) : outcome B :=
  match m with
  | Ok a => k a
  | Throw e => Throw e
  | OutOfFuel => OutOfFuel
  end.

Declare Scope outcome_scope.
Delimit Scope outcome_scope with outcome.
Notation "x <- m ;; k" := (bind m (fun x => k))
  (at level 61, m at next level, right associativity) : outcome_scope.
Notation "m ;;; k" := (bind m (fun _ => k))
  (at level 61, right associativity) : outcome_scope.
Open Scope outcome_scope.

(** ** JavaScript strings and arrays *)

Module Js.

Definition char := N.
Definition jsstring := list char.

(** A string literal of the development, as code units. *)
Definition str (s : string) : jsstring :=
  map N_of_ascii (list_ascii_of_string s).

Definition len {A} (s : list A) : Z := Z.of_nat (length s).

(** [const { x = d } = options]: the default stands in for [undefined]. *)
Definition default {A} (d : A) (o : option A) : A :=
  match o with Some a => a | None => d end.

(** Truthiness of a string: non-empty. *)
Definition truthy (s : jsstring) : bool :=
  match s with [] => false | _ :: _ => true end.

(** [\s] of a RegExp and the characters [trim] strips: WhiteSpace and
    LineTerminator of ECMA-262. *)
Definition is_space (c : char) : bool :=
  ((9 <=? c) && (c <=? 13) || (c =? 32) || (c =? 160) || (c =? 5760)
   || (8192 <=? c) && (c <=? 8202) || (c =? 8232) || (c =? 8233)
   || (c =? 8239) || (c =? 8287) || (c =? 12288) || (c =? 65279))%N.

(** [[.!?]] *)
Definition is_terminator (c : char) : bool :=
  ((c =? 46) || (c =? 33) || (c =? 63))%N.

Definition SPACE : char := 32%N.
Definition LF : char := 10%N.

Fixpoint drop_while {A} (p : A -> bool) (s : list A) : list A :=
  match s with
  | [] => []
  | c :: s' => if p c then drop_while p s' else s
  end.

Fixpoint count_while {A} (p : A -> bool) (s : list A) : nat :=
  match s with
  | [] => O
  | c :: s' => if p c then S (count_while p s') else O
  end.

Definition trimStart (s : jsstring) : jsstring := drop_while is_space s.
Definition trimEnd (s : jsstring) : jsstring := rev (drop_while is_space (rev s)).
Definition trim (s : jsstring) : jsstring := trimEnd (trimStart s).

(** [s.slice(start, end)] of strings and arrays: a negative index counts
    from the end, both ends are clamped to the length. *)
Definition clamp_index (n i : Z) : Z :=
  if i <? 0 then Z.max (n + i) 0 else Z.min i n.

Definition slice {A} (s : list A) (start stop : Z) : list A :=
  let from := clamp_index (len s) start in
  let to := clamp_index (len s) stop in
  firstn (Z.to_nat (to - from)) (skipn (Z.to_nat from) s).

(** [s.slice(start)] *)
Definition slice_from {A} (s : list A) (start : Z) : list A :=
  slice s start (len s).

Fixpoint starts_with (p s : jsstring) : bool :=
  match p, s with
  | [], _ => true
  | _ :: _, [] => false
  | a :: p', b :: s' => (a =? b)%N && starts_with p' s'
  end.

(** [split]: the pieces between the successive leftmost matches.  A matcher
    gets the code unit before the position (for a lookbehind) and the rest
    of the text, and answers the length of the match that starts there, 0
    when there is none.  [skip] counts the code units of the current match
    still to pass over. *)
Definition matcher := option char -> jsstring -> nat.

Fixpoint split_go (m : matcher) (prev : option char) (s : jsstring)
    (piece : jsstring) (skip : nat) : list jsstring :=
  match s with
  | [] => [rev piece]
  | c :: s' =>
    match skip with
    | S k => split_go m (Some c) s' piece k
    | O =>
      match m prev s with
      | O => split_go m (Some c) s' (c :: piece) O
      | S k => rev piece :: split_go m (Some c) s' [] k
      end
    end
  end.

Definition split_with (m : matcher) (s : jsstring) : list jsstring :=
  split_go m None s [] O.

(** [text.split(sep)] for a non-empty literal string. *)
Definition match_literal (sep : jsstring) : matcher :=
  fun _ s => if starts_with sep s then length sep else O.

(** [str.search(/\s/)]: index of the first white space, -1 when none. *)
Fixpoint search_space_from (s : jsstring) (i : Z) : Z :=
  match s with
  | [] => -1
  | c :: s' => if is_space c then i else search_space_from s' (i + 1)
  end.

Definition search_space (s : jsstring) : Z := search_space_from s 0.

(** [str.match(/[.!?]\s+/)]: index and length of the leftmost match. *)
Fixpoint match_sentence_end_from (s : jsstring) (i : Z) : option (Z * Z) :=
  match s with
  | [] => None
  | c :: s' =>
    if is_terminator c && negb (count_while is_space s' =? 0)%nat
    then Some (i, 1 + Z.of_nat (count_while is_space s'))
    else match_sentence_end_from s' (i + 1)
  end.

Definition match_sentence_end (s : jsstring) : option (Z * Z) :=
  match_sentence_end_from s 0.

(** [str.lastIndexOf(c, from)] for a single code unit: the largest index
    not above [from] that holds [c], -1 when none. *)
Fixpoint last_index_from (c : char) (s : jsstring) (i from best : Z) : Z :=
  match s with
  | [] => best
  | d :: s' =>
    last_index_from c s' (i + 1) from
      (if (d =? c)%N && (i <=? from) then i else best)
  end.

Definition lastIndexOf (s : jsstring) (c : char) (from : Z) : Z :=
  last_index_from c s 0 from (-1).

End Js.

Import Js.

(** ** The chunker ([src/chunker.ts]) *)

Module Chunker.

Definition DEFAULT_CHUNK_SIZE : Z := 512.
Definition DEFAULT_CHUNK_OVERLAP : Z := 50.

(** [separator?: string | RegExp].  A RegExp is represented by what its
    [split] does to a text. *)
Inductive Separator : Type :=
| SepString (s : jsstring)
| SepRegExp (split : jsstring -> list jsstring).

Record ChunkOptions : Type := {
  chunkSize : option Z;
  chunkOverlap : option Z;
  separator : option Separator
}.

(** [/\n\n+/] *)
Definition PARAGRAPH_SPLIT : matcher :=
  fun _ s =>
    match s with
    | a :: b :: _ =>
      if ((a =? LF) && (b =? LF))%N then count_while (N.eqb LF) s else O
    | _ => O
    end.

(** [/(?<=[.!?])\s+/] *)
Definition SENTENCE_SPLIT : matcher :=
  fun prev s =>
    match prev with
    | Some p => if is_terminator p then count_while is_space s else O
    | None => O
    end.

(** [/\s+/] *)
Definition WORD_SPLIT : matcher := fun _ s => count_while is_space s.

(** [s => s.trim()] as a filter predicate. *)
Definition has_content (s : jsstring) : bool := truthy (trim s).

(** The inner [for] of [splitByWords]: [word.slice(i, i + maxSize)] for
    [i = 0, maxSize, 2 maxSize, ...] below [word.length].  [maxSize] is
    positive wherever the loop is reached, so [word.length] turns are
    enough fuel. *)
Fixpoint word_slices (fuel : nat) (word : jsstring) (i maxSize : Z)
  : list jsstring :=
  match fuel with
  | O => []
  | S fuel' =>
    if i <? len word
    then slice word i (i + maxSize) :: word_slices fuel' word (i + maxSize) maxSize
    else []
  end.

(** One turn of the [for (const word of words)] of [splitByWords], on the
    pair of [chunks] and [current]. *)
Definition splitByWords_step (maxSize : Z) (st : list jsstring * jsstring)
    (word : jsstring) : list jsstring * jsstring :=
  let '(chunks, current) := st in
  if maxSize <? len word then
    let chunks1 := if truthy current then chunks ++ [trim current] else chunks in
    (chunks1 ++ word_slices (length word) word 0 maxSize, [])
  else
    let candidate := if truthy current then current ++ [SPACE] ++ word else word in
    if len candidate <=? maxSize then (chunks, candidate)
    else ((if truthy current then chunks ++ [trim current] else chunks), word).

Definition splitByWords (text : jsstring) (maxSize : Z) : list jsstring :=
  let words := split_with WORD_SPLIT text in
  let '(chunks, current) := fold_left (splitByWords_step maxSize) words ([], []) in
  if truthy (trim current) then chunks ++ [trim current] else chunks.

Definition splitByBoundary (text : jsstring) (maxSize : Z) : list jsstring :=
  let segments := filter has_content (split_with PARAGRAPH_SPLIT text) in
  let needsSentenceSplit := existsb (fun s => maxSize <? len s) segments in
  if needsSentenceSplit then
    flat_map (fun segment =>
      if len segment <=? maxSize then [segment]
      else
        let sentences := filter has_content (split_with SENTENCE_SPLIT segment) in
        flat_map (fun sentence =>
          if len sentence <=? maxSize then [sentence]
          else splitByWords sentence maxSize) sentences)
      segments
  else segments.

Definition getOverlapText (text : jsstring) (overlap : Z) : jsstring :=
  if (overlap <=? 0) || (len text <=? overlap) then []
  else
    let slice_ := slice_from text (- overlap) in
    let wordBoundary := search_space slice_ in
    if (0 <? wordBoundary) && (wordBoundary <? len slice_ - 1)
    then slice_from slice_ (wordBoundary + 1)
    else slice_.

Definition findSplitPoint (text : jsstring) (target : Z) : Z :=
  if len text <=? target then len text
  else
    let searchStart := Z.max 0 (target - 50) in
    let searchEnd := Z.min (len text) (target + 50) in
    let searchRegion := slice text searchStart searchEnd in
    match match_sentence_end searchRegion with
    | Some (index, length_) => searchStart + index + length_
    | None =>
      let lastSpace := lastIndexOf text SPACE target in
      (* lastSpace > target * 0.5 *)
      if target <? 2 * lastSpace then lastSpace + 1 else target
    end.

(** The state of [mergeSegments]: [chunks], [current], [overlapBuffer]. *)
Record merge_state : Type := {
  chunks : list jsstring;
  current : jsstring;
  overlapBuffer : jsstring
}.

(** [while (current.length > chunkSize) { ... }], one unit of fuel a turn. *)
Fixpoint split_oversized (fuel : nat) (chunkSize overlap : Z) (st : merge_state)
  : outcome merge_state :=
  if chunkSize <? len (current st) then
    match fuel with
    | O => OutOfFuel
    | S fuel' =>
      let splitPoint := findSplitPoint (current st) chunkSize in
      let chunks1 := chunks st ++ [trim (slice (current st) 0 splitPoint)] in
      let overlapBuffer1 := getOverlapText (slice (current st) 0 splitPoint) overlap in
      let remaining := trim (slice_from (current st) splitPoint) in
      let current1 :=
        if truthy overlapBuffer1 then overlapBuffer1 ++ [SPACE] ++ remaining
        else remaining in
      split_oversized fuel' chunkSize overlap
        {| chunks := chunks1; current := current1; overlapBuffer := overlapBuffer1 |}
    end
  else Ok st.

(** One turn of the [for (const segment of segments)] of [mergeSegments]. *)
Definition mergeSegments_step (fuel : nat) (chunkSize overlap : Z)
    (st : merge_state) (segment : jsstring) : outcome merge_state :=
  let separator_ := if truthy (current st) then [LF; LF] else [] in
  let candidate := current st ++ separator_ ++ segment in
  if len candidate <=? chunkSize then
    Ok {| chunks := chunks st; current := candidate; overlapBuffer := overlapBuffer st |}
  else
    let chunks1 :=
      if truthy (current st) then chunks st ++ [trim (current st)] else chunks st in
    let overlapBuffer1 :=
      if truthy (current st) && (0 <? overlap)
      then getOverlapText (current st) overlap
      else overlapBuffer st in
    let current1 :=
      if truthy overlapBuffer1 && (len segment + len overlapBuffer1 + 1 <=? chunkSize)
      then overlapBuffer1 ++ [SPACE] ++ segment
      else segment in
    split_oversized fuel chunkSize overlap
      {| chunks := chunks1; current := current1; overlapBuffer := overlapBuffer1 |}.

Fixpoint mergeSegments_loop (fuel : nat) (chunkSize overlap : Z)
    (segments : list jsstring) (st : merge_state) : outcome merge_state :=
  match segments with
  | [] => Ok st
  | segment :: rest =>
    st1 <- mergeSegments_step fuel chunkSize overlap st segment ;;
    mergeSegments_loop fuel chunkSize overlap rest st1
  end.

Definition mergeSegments (fuel : nat) (segments : list jsstring)
    (chunkSize overlap : Z) : outcome (list jsstring) :=
  match segments with
  | [] => Ok []
  | _ =>
    st <- mergeSegments_loop fuel chunkSize overlap segments
            {| chunks := []; current := []; overlapBuffer := [] |} ;;
    Ok (if truthy (trim (current st)) then chunks st ++ [trim (current st)]
        else chunks st)
  end.

(** [text.split(separator)] *)
Definition split_by (sep : Separator) (text : jsstring) : list jsstring :=
  match sep with
  | SepString s => split_with (match_literal s) text
  | SepRegExp split => split text
  end.

(** [if (separator)]: [undefined] and the empty string are falsy. *)
Definition given (sep : option Separator) : option Separator :=
  match sep with
  | Some (SepString []) => None
  | _ => sep
  end.

Definition chunkText (fuel : nat) (text : jsstring) (options : ChunkOptions)
  : outcome (list jsstring) :=
  let chunkSize_ := default DEFAULT_CHUNK_SIZE (chunkSize options) in
  let chunkOverlap_ := default DEFAULT_CHUNK_OVERLAP (chunkOverlap options) in
  if chunkSize_ <=? 0 then
    Throw (InvalidArgument "chunkSize must be positive")
  else if chunkOverlap_ <? 0 then
    Throw (InvalidArgument "chunkOverlap cannot be negative")
  else if chunkSize_ <=? chunkOverlap_ then
    Throw (InvalidArgument "chunkOverlap must be less than chunkSize")
  else
    match given (separator options) with
    | Some sep =>
      let segments := filter has_content (split_by sep text) in
      if forallb (fun s => len s <=? chunkSize_) segments
      then Ok (map trim segments)
      else mergeSegments fuel segments chunkSize_ chunkOverlap_
    | None =>
      if len text <=? chunkSize_
      then Ok (if truthy (trim text) then [trim text] else [])
      else mergeSegments fuel (splitByBoundary text chunkSize_) chunkSize_ chunkOverlap_
    end.

End Chunker.

(** ** The vector store ([src/vector-store.ts]) *)

Module Store.

(** A JavaScript number: IEEE-754 binary64. *)
Definition number := float.

(** Values a metadata record can hold (the JSON data model). *)
#[local] Unset Elimination Schemes.
Inductive jsvalue : Type :=
| JNull
| JBool (b : bool)
| JNumber (x : number)
| JString (s : jsstring)
| JArray (items : list jsvalue)
| JObject (fields : list (jsstring * jsvalue)).
#[local] Set Elimination Schemes.

(** [Record<string, unknown>] *)
Definition Metadata := list (jsstring * jsvalue).

Record Chunk : Type := {
  chunk_id : jsstring;
  chunk_content : jsstring;
  chunk_metadata : option Metadata
}.

Record EmbeddedChunk : Type := {
  id : jsstring;
  content : jsstring;
  metadata : option Metadata;
  embedding : list number
}.

Record SearchResult : Type := {
  chunk : Chunk;
  score : number
}.

Record SearchOptions : Type := {
  topK : option Z;
  threshold : option number;
  filter : option (option Metadata -> bool)
}.

Record SerializedIndex : Type := {
  version : Z;
  si_model : jsstring;
  si_dimensions : Z;
  si_chunks : list EmbeddedChunk
}.

Definition INDEX_VERSION : Z := 1.

(** The arithmetic [cosineSimilarity] is run on: [+], [*], [/],
    [Math.sqrt] and [=== 0], which the source runs on binary64. *)
Record arithmetic (num : Type) : Type := {
  num_zero : num;
  num_add : num -> num -> num;
  num_mul : num -> num -> num;
  num_div : num -> num -> num;
  num_sqrt : num -> num;
  num_is_zero : num -> bool
}.

Definition binary64 : arithmetic number := {|
  num_zero := PrimFloat.zero;
  num_add := PrimFloat.add;
  num_mul := PrimFloat.mul;
  num_div := PrimFloat.div;
  num_sqrt := PrimFloat.sqrt;
  num_is_zero := fun x => PrimFloat.eqb x PrimFloat.zero
|}.

Section Cosine.

Variable num : Type.
Variable A : arithmetic num.

(** The [for] of [cosineSimilarity], on the triple
    [(dotProduct, normA, normB)]. *)
Fixpoint cosine_sums (a b : list num) (acc : num * num * num) : num * num * num :=
  match a, b with
  | x :: a', y :: b' =>
    let '(dotProduct, normA, normB) := acc in
    cosine_sums a' b'
      (num_add A dotProduct (num_mul A x y),
       num_add A normA (num_mul A x x),
       num_add A normB (num_mul A y y))
  | _, _ => acc
  end.

Definition cosine_over (a b : list num) : outcome num :=
  if negb (len a =? len b) then Throw DimensionMismatch
  else
    let '(dotProduct, normA, normB) :=
      cosine_sums a b (num_zero A, num_zero A, num_zero A) in
    let magnitude := num_mul A (num_sqrt A normA) (num_sqrt A normB) in
    if num_is_zero A magnitude then Ok (num_zero A)
    else Ok (num_div A dotProduct magnitude).

End Cosine.

Definition cosineSimilarity (a b : list number) : outcome number :=
  cosine_over binary64 a b.

(** The private fields of the class. *)
Record VectorStore : Type := {
  chunks : list EmbeddedChunk;
  model : jsstring;
  dimensions : Z
}.

(** [new VectorStore(model, dimensions)] *)
Definition new (model_ : jsstring) (dimensions_ : Z) : VectorStore :=
  {| chunks := []; model := model_; dimensions := dimensions_ |}.

Definition size (st : VectorStore) : Z := len (chunks st).

Definition validateDimensions (st : VectorStore) (e : list number) : outcome unit :=
  if negb (len e =? dimensions st) then Throw DimensionMismatch else Ok tt.

(** A method that mutates the store answers its outcome and the store
    after the call. *)
Definition add (c : EmbeddedChunk) (st : VectorStore) : outcome unit * VectorStore :=
  match validateDimensions st (embedding c) with
  | Ok _ =>
    (Ok tt, {| chunks := chunks st ++ [c]; model := model st;
               dimensions := dimensions st |})
  | Throw e => (Throw e, st)
  | OutOfFuel => (OutOfFuel, st)
  end.

Fixpoint addAll (cs : list EmbeddedChunk) (st : VectorStore)
  : outcome unit * VectorStore :=
  match cs with
  | [] => (Ok tt, st)
  | c :: rest =>
    match add c st with
    | (Ok _, st1) => addAll rest st1
    | failed => failed
    end
  end.

(** [this.chunks.findIndex(c => c.id === id)], [None] for -1. *)
Fixpoint findIndex (p : EmbeddedChunk -> bool) (l : list EmbeddedChunk) : option nat :=
  match l with
  | [] => None
  | c :: rest =>
    if p c then Some O
    else match findIndex p rest with Some i => Some (S i) | None => None end
  end.

(** [l.splice(index, 1)] *)
Fixpoint splice1 {A} (index : nat) (l : list A) : list A :=
  match l, index with
  | [], _ => []
  | _ :: rest, O => rest
  | x :: rest, S i => x :: splice1 i rest
  end.

Fixpoint str_eqb (a b : jsstring) : bool :=
  match a, b with
  | [], [] => true
  | x :: a', y :: b' => (x =? y)%N && str_eqb a' b'
  | _, _ => false
  end.

Definition has_id (i : jsstring) (c : EmbeddedChunk) : bool := str_eqb (id c) i.

Definition remove (i : jsstring) (st : VectorStore) : bool * VectorStore :=
  match findIndex (has_id i) (chunks st) with
  | None => (false, st)
  | Some index =>
    (true, {| chunks := splice1 index (chunks st); model := model st;
              dimensions := dimensions st |})
  end.

Definition get (i : jsstring) (st : VectorStore) : option EmbeddedChunk :=
  find (has_id i) (chunks st).

Definition has (i : jsstring) (st : VectorStore) : bool :=
  existsb (has_id i) (chunks st).

Definition clear (st : VectorStore) : unit * VectorStore :=
  (tt, {| chunks := []; model := model st; dimensions := dimensions st |}).

(** [results.sort((a, b) => b.score - a.score)].  The sort of an array is
    stable, and where the comparator orders the elements consistently its
    result is the one stable arrangement; insertion computes it.  An
    element goes behind its neighbour when the comparator is positive. *)
Definition compare_results (a b : SearchResult) : number :=
  PrimFloat.sub (score b) (score a).

Fixpoint insert_sorted {A} (cmp : A -> A -> number) (x : A) (l : list A) : list A :=
  match l with
  | [] => [x]
  | y :: rest =>
    if PrimFloat.ltb PrimFloat.zero (cmp x y)
    then y :: insert_sorted cmp x rest
    else x :: l
  end.

Fixpoint sort {A} (cmp : A -> A -> number) (l : list A) : list A :=
  match l with
  | [] => []
  | x :: rest => insert_sorted cmp x (sort cmp rest)
  end.

Definition accepts (f : option (option Metadata -> bool)) (m : option Metadata) : bool :=
  match f with
  | Some p => p m
  | None => true
  end.

(** The [for (const chunk of this.chunks)] of [search]. *)
Fixpoint search_loop (q : list number) (threshold_ : number)
    (filter_ : option (option Metadata -> bool)) (cs : list EmbeddedChunk)
    (results : list SearchResult) : outcome (list SearchResult) :=
  match cs with
  | [] => Ok results
  | c :: rest =>
    if negb (accepts filter_ (metadata c)) then
      search_loop q threshold_ filter_ rest results
    else
      score_ <- cosineSimilarity q (embedding c) ;;
      search_loop q threshold_ filter_ rest
        (if PrimFloat.leb threshold_ score_
         then results ++ [{| chunk := {| chunk_id := id c;
                                         chunk_content := content c;
                                         chunk_metadata := metadata c |};
                             score := score_ |}]
         else results)
  end.

Definition search (st : VectorStore) (queryEmbedding : list number)
    (options : SearchOptions) : outcome (list SearchResult) :=
  let topK_ := default 5 (topK options) in
  let threshold_ := default PrimFloat.zero (threshold options) in
  validateDimensions st queryEmbedding ;;;
  results <- search_loop queryEmbedding threshold_ (filter options) (chunks st) [] ;;
  Ok (slice (sort compare_results results) 0 topK_).

Definition serialize (st : VectorStore) : SerializedIndex :=
  {| version := INDEX_VERSION; si_model := model st;
     si_dimensions := dimensions st; si_chunks := chunks st |}.

End Store.

(** ** Serialization ([toJSON], [toBinary] and their inverses) *)

Module Codec.

Import Store.

(** An [ArrayBuffer]: its bytes. *)
Definition buffer := list Byte.byte.

Definition byte_of_Z (z : Z) : Byte.byte :=
  match Byte.of_N (Z.to_N (z mod 256)) with
  | Some b => b
  | None => Byte.x00
  end.

Definition Z_of_byte (b : Byte.byte) : Z := Z.of_N (Byte.to_N b).

(** [view.setUint32(_, value, false)]: the four bytes of [value] modulo
    2^32, most significant first. *)
Definition uint32_be (value : Z) : buffer :=
  [byte_of_Z (value / 16777216); byte_of_Z (value / 65536);
   byte_of_Z (value / 256); byte_of_Z value].

(** Four bytes read as an unsigned integer, most significant first. *)
Definition be32 (b0 b1 b2 b3 : Byte.byte) : Z :=
  Z_of_byte b0 * 16777216 + Z_of_byte b1 * 65536 + Z_of_byte b2 * 256 + Z_of_byte b3.

(** [view.getUint32(offset, false)]; a [RangeError] past the end. *)
Definition getUint32 (buf : buffer) (offset : Z) : outcome Z :=
  if (offset <? 0) || (len buf <? offset + 4) then Throw RangeError
  else
    match skipn (Z.to_nat offset) buf with
    | b0 :: b1 :: b2 :: b3 :: _ => Ok (be32 b0 b1 b2 b3)
    | _ => Throw RangeError
    end.

(** *** [Float32Array] elements

    Storing a number in a [Float32Array] rounds it to binary32 (to nearest,
    ties to even); the element occupies four bytes, least significant
    first. *)
Definition f32_sign (s : bool) : Z := if s then 2147483648 else 0.

Definition f32_bits (x : number) : Z :=
  match Prim2SF x with
  | S754_nan => 2143289344
  | S754_zero s => f32_sign s
  | S754_infinity s => f32_sign s + 2139095040
  | S754_finite s m e =>
    match binary_round 24 128 s m e with
    | S754_nan => 2143289344
    | S754_zero s' => f32_sign s'
    | S754_infinity s' => f32_sign s' + 2139095040
    | S754_finite s' m' e' =>
      if 8388608 <=? Z.pos m'
      then f32_sign s' + (e' + 150) * 8388608 + (Z.pos m' - 8388608)
      else f32_sign s' + Z.pos m'
    end
  end.

Definition f32_of_bits (bits : Z) : number :=
  let s := 2147483648 <=? bits mod 4294967296 in
  let e := (bits / 8388608) mod 256 in
  let f := bits mod 8388608 in
  if e =? 255 then
    if f =? 0 then (if s then PrimFloat.neg_infinity else PrimFloat.infinity)
    else PrimFloat.nan
  else if e =? 0 then
    match f with
    | Z.pos m => SF2Prim (S754_finite s m (-149))
    | _ => if s then PrimFloat.neg_zero else PrimFloat.zero
    end
  else
    match f + 8388608 with
    | Z.pos m => SF2Prim (S754_finite s m (e - 150))
    | _ => PrimFloat.nan
    end.

(** [Math.fround]: what a number reads back as after a [Float32Array]
    held it. *)
Definition fround (x : number) : number := f32_of_bits (f32_bits x).

Definition f32_bytes (x : number) : buffer :=
  let bits := f32_bits x in
  [byte_of_Z bits; byte_of_Z (bits / 256); byte_of_Z (bits / 65536);
   byte_of_Z (bits / 16777216)].

Definition f32_of_bytes (b0 b1 b2 b3 : Byte.byte) : number :=
  f32_of_bits (Z_of_byte b0 + Z_of_byte b1 * 256 + Z_of_byte b2 * 65536
               + Z_of_byte b3 * 16777216).

Fixpoint read_f32s (n : nat) (bytes : buffer) : list number :=
  match n, bytes with
  | S n', b0 :: b1 :: b2 :: b3 :: rest =>
    f32_of_bytes b0 b1 b2 b3 :: read_f32s n' rest
  | _, _ => []
  end.

(** [new Float32Array(buffer, byteOffset, length)], read out as a list. *)
Definition Float32Array_view (buf : buffer) (byteOffset length_ : Z)
  : outcome (list number) :=
  if (length_ <? 0) || negb (byteOffset mod 4 =? 0)
     || (len buf <? byteOffset + length_ * 4)
  then Throw RangeError
  else Ok (read_f32s (Z.to_nat length_) (skipn (Z.to_nat byteOffset) buf)).

(** The bytes of a [Float32Array] of [count] elements after
    [vectors[vi++] = val] ran over [vals]: a store past the end is
    dropped, an element never stored stays 0. *)
Definition Float32Array_fill (count : nat) (vals : list number) : buffer :=
  flat_map f32_bytes (firstn count (vals ++ repeat PrimFloat.zero count)).

(** *** The text layer

    [JSON.stringify], [JSON.parse], [TextEncoder] and [TextDecoder] belong
    to the platform.  They are taken as they act on the two objects the
    store serializes; [JSON.parse] answers the parsed value under the
    source's cast, or the [SyntaxError] it throws. *)
Record BinaryMeta : Type := {
  bm_version : Z;
  bm_model : jsstring;
  bm_dimensions : Z;
  chunkMeta : list Chunk
}.

Record Platform : Type := {
  JSON_stringify_index : SerializedIndex -> jsstring;
  JSON_parse_index : jsstring -> outcome SerializedIndex;
  JSON_stringify_meta : BinaryMeta -> jsstring;
  JSON_parse_meta : jsstring -> outcome BinaryMeta;
  TextEncoder_encode : jsstring -> buffer;
  TextDecoder_decode : buffer -> jsstring
}.

Section WithPlatform.

Variable P : Platform.

Definition toJSON (st : VectorStore) : jsstring :=
  JSON_stringify_index P (serialize st).

Definition strip (c : EmbeddedChunk) : Chunk :=
  {| chunk_id := id c; chunk_content := content c; chunk_metadata := metadata c |}.

Definition MAGIC : Z := 1380009811. (* 0x52414753, "RAGS" *)

Definition binary_meta (st : VectorStore) : BinaryMeta :=
  let serialized := serialize st in
  {| bm_version := version serialized;
     bm_model := si_model serialized;
     bm_dimensions := si_dimensions serialized;
     chunkMeta := map strip (si_chunks serialized) |}.

Definition padding_for (unalignedOffset : Z) : Z :=
  (4 - (unalignedOffset mod 4)) mod 4.

Definition toBinary (st : VectorStore) : outcome buffer :=
  let json := JSON_stringify_meta P (binary_meta st) in
  let jsonBytes := TextEncoder_encode P json in
  let headerSize := 16 in
  let unalignedOffset := headerSize + len jsonBytes in
  let padding := padding_for unalignedOffset in
  let vectorOffset := unalignedOffset + padding in
  let vectorsSize := len (chunks st) * dimensions st * 4 in
  let totalSize := vectorOffset + vectorsSize in
  (* new ArrayBuffer(totalSize); new Float32Array(buffer, vectorOffset, count) *)
  let count := len (chunks st) * dimensions st in
  if (totalSize <? 0) || (count <? 0) then Throw RangeError
  else
    Ok (uint32_be MAGIC ++ uint32_be INDEX_VERSION
        ++ uint32_be (len jsonBytes) ++ uint32_be (len (chunks st))
        ++ jsonBytes
        ++ repeat Byte.x00 (Z.to_nat padding)
        ++ Float32Array_fill (Z.to_nat count) (flat_map embedding (chunks st))).

Definition fromSerialized (data : SerializedIndex) : outcome VectorStore :=
  if negb (version data =? INDEX_VERSION) then Throw UnsupportedVersion
  else
    match addAll (si_chunks data) (new (si_model data) (si_dimensions data)) with
    | (Ok _, store) => Ok store
    | (Throw e, _) => Throw e
    | (OutOfFuel, _) => OutOfFuel
    end.

Definition fromJSON (json : jsstring) : outcome VectorStore :=
  data <- JSON_parse_index P json ;;
  fromSerialized data.

(** The [for (let i = 0; i < chunkCount; i++)] of [fromBinary]; a
    [chunkMeta[i]] that is not there is [undefined], and reading its [id]
    a [TypeError]. *)
Fixpoint reconstruct (n : nat) (i : Z) (meta : BinaryMeta) (vectors : list number)
  : outcome (list EmbeddedChunk) :=
  match n with
  | O => Ok []
  | S n' =>
    match nth_error (chunkMeta meta) (Z.to_nat i) with
    | None => Throw TypeError
    | Some cm =>
      let embedding_ :=
        slice vectors (i * bm_dimensions meta) ((i + 1) * bm_dimensions meta) in
      rest <- reconstruct n' (i + 1) meta vectors ;;
      Ok ({| id := chunk_id cm; content := chunk_content cm;
             metadata := chunk_metadata cm; embedding := embedding_ |} :: rest)
    end
  end.

Definition fromBinary (buf : buffer) : outcome VectorStore :=
  magic <- getUint32 buf 0 ;;
  if negb (magic =? MAGIC) then Throw InvalidFormat
  else
    version_ <- getUint32 buf 4 ;;
    if negb (version_ =? INDEX_VERSION) then Throw UnsupportedVersion
    else
      jsonLength <- getUint32 buf 8 ;;
      chunkCount <- getUint32 buf 12 ;;
      let headerSize := 16 in
      let json := TextDecoder_decode P (slice buf headerSize (headerSize + jsonLength)) in
      meta <- JSON_parse_meta P json ;;
      let unalignedOffset := headerSize + jsonLength in
      let padding := padding_for unalignedOffset in
      let vectorOffset := unalignedOffset + padding in
      vectors <- Float32Array_view buf vectorOffset (chunkCount * bm_dimensions meta) ;;
      chunks_ <- reconstruct (Z.to_nat chunkCount) 0 meta vectors ;;
      match addAll chunks_ (new (bm_model meta) (bm_dimensions meta)) with
      | (Ok _, store) => Ok store
      | (Throw e, _) => Throw e
      | (OutOfFuel, _) => OutOfFuel
      end.

End WithPlatform.

End Codec.

(** ** Numbers and objects of the other modules *)

Module Number.

(** The binary64 number that holds an integer (the nearest one, where the
    integer has more than 53 bits). *)
Definition of_Z (z : Z) : float := SF2Prim (binary_normalize prec emax z 0 false).

(** The integer part of a number, towards zero; 0 for a NaN and the
    infinities, as the integer conversions of ECMA-262 have it. *)
Definition truncate (x : float) : Z :=
  match Prim2SF x with
  | S754_finite s m e =>
    let magnitude := if 0 <=? e then Z.pos m * 2 ^ e else Z.pos m / 2 ^ (- e) in
    if s then - magnitude else magnitude
  | _ => 0
  end.

(** [ToInt32]: modulo 2^32, into the signed range. *)
Definition ToInt32 (z : Z) : Z := (z + 2147483648) mod 4294967296 - 2147483648.

(** A template literal prints an array index in decimal. *)
Definition index_to_string (index : nat) : jsstring :=
  str (NilZero.string_of_uint (N.to_uint (N.of_nat index))).

End Number.

(** String-keyed tables: the own properties of an object, the entries of
    a [Map].  A write replaces the value of a key that is there and adds
    the key behind the others when it is not. *)
Module Table.

Import Store.

Fixpoint lookup {V} (key : jsstring) (t : list (jsstring * V)) : option V :=
  match t with
  | [] => None
  | (k, v) :: rest => if str_eqb k key then Some v else lookup key rest
  end.

Fixpoint assign {V} (key : jsstring) (value : V) (t : list (jsstring * V))
  : list (jsstring * V) :=
  match t with
  | [] => [(key, value)]
  | (k, v) :: rest =>
    if str_eqb k key then (key, value) :: rest
    else (k, v) :: assign key value rest
  end.

End Table.

(** ** Chunks with ids ([createChunks] and [createChunksFromDocuments] of
    [src/chunker.ts]) *)

Module Documents.

Import Chunker Store.

(** [array.map((x, index) => ...)] *)
Fixpoint map_indexed {A B} (f : A -> nat -> B) (l : list A) (index : nat) : list B :=
  match l with
  | [] => []
  | x :: rest => f x index :: map_indexed f rest (S index)
  end.

(** [options = {}] *)
Definition no_options : ChunkOptions :=
  {| chunkSize := None; chunkOverlap := None; separator := None |}.

(** [{ ...metadata, chunkIndex: index, totalChunks: texts.length }]; the
    spread of [undefined] copies nothing. *)
Definition chunk_metadata_of (metadata : option Metadata) (index total : nat)
  : Metadata :=
  Table.assign (str "totalChunks") (JNumber (Number.of_Z (Z.of_nat total)))
    (Table.assign (str "chunkIndex") (JNumber (Number.of_Z (Z.of_nat index)))
       (default [] metadata)).

Definition createChunks (fuel : nat) (text baseId : jsstring)
    (metadata : option Metadata) (options : option ChunkOptions)
  : outcome (list Chunk) :=
  texts <- chunkText fuel text (default no_options options) ;;
  Ok (map_indexed
        (fun content index =>
           {| chunk_id := baseId ++ str "-" ++ Number.index_to_string index;
              chunk_content := content;
              chunk_metadata :=
                Some (chunk_metadata_of metadata index (length texts)) |})
        texts 0%nat).

Record Document : Type := {
  doc_id : jsstring;
  doc_content : jsstring;
  doc_metadata : option Metadata
}.

(** [documents.flatMap(doc => createChunks(...))]: the first document
    whose chunking throws ends the call. *)
Fixpoint createChunksFromDocuments (fuel : nat) (documents : list Document)
    (options : option ChunkOptions) : outcome (list Chunk) :=
  match documents with
  | [] => Ok []
  | doc :: rest =>
    chunks_ <- createChunks fuel (doc_content doc) (doc_id doc) (doc_metadata doc)
                 options ;;
    more <- createChunksFromDocuments fuel rest options ;;
    Ok (chunks_ ++ more)
  end.

End Documents.

(** ** Embedding providers ([src/embeddings.ts]) *)

Module Embeddings.

(** An [EmbeddingProvider]: its two fields, the state it keeps between
    calls, and [embed], which answers what the promise settles to and the
    state after the call. *)
Record EmbeddingProvider (State : Type) : Type := {
  model : jsstring;
  dimensions : Z;
  state : State;
  embed_with : list jsstring -> State -> outcome (list (list Store.number)) * State
}.

(** [provider.embed(texts)] *)
Definition embed {State} (texts : list jsstring) (p : EmbeddingProvider State)
  : outcome (list (list Store.number)) * EmbeddingProvider State :=
  let '(answer, s) := embed_with p texts (state p) in
  (answer, {| model := model p; dimensions := dimensions p; state := s;
              embed_with := embed_with p |}).

(** [new CustomEmbedding(embedFn, { model, dimensions })] *)
Definition CustomEmbedding {State} (embedFn : list jsstring -> State -> outcome (list (list Store.number)) * State)
    (s : State) (model_ : option jsstring) (dimensions_ : Z) : EmbeddingProvider State :=
  {| model := default (str "custom") model_; dimensions := dimensions_;
     state := s; embed_with := embedFn |}.

(** *** [MockEmbedding] *)

(** [hash = ((hash << 5) - hash + str.charCodeAt(i)) | 0]: the shift and
    the [| 0] answer 32-bit integers, the subtraction and the sum between
    them are exact. *)
Definition hashCode_step (hash : Z) (c : char) : Z :=
  Number.ToInt32 (Number.ToInt32 (Z.shiftl hash 5) - hash + Z.of_N c).

Definition hashCode (s : jsstring) : Z := Z.abs (fold_left hashCode_step s 0).

(** [seed = (seed * 1103515245 + 12345) & 0x7fffffff]: the product and
    the sum are binary64 operations, and round. *)
Definition next_seed (seed : Z) : Z :=
  Z.land
    (Number.ToInt32
       (Number.truncate
          (PrimFloat.add (PrimFloat.mul (Number.of_Z seed) (Number.of_Z 1103515245))
                         (Number.of_Z 12345))))
    2147483647.

(** [(seed / 0x7fffffff) * 2 - 1] *)
Definition component (seed : Z) : Store.number :=
  PrimFloat.sub
    (PrimFloat.mul (PrimFloat.div (Number.of_Z seed) (Number.of_Z 2147483647))
                   (Number.of_Z 2))
    (Number.of_Z 1).

(** The [for] of [generateVector], [n] turns of it. *)
Fixpoint components (n : nat) (seed : Z) : list Store.number :=
  match n with
  | O => []
  | S n' => let seed1 := next_seed seed in component seed1 :: components n' seed1
  end.

Definition generateVector (dimensions_ : Z) (text : jsstring) : list Store.number :=
  let vector := components (Z.to_nat dimensions_) (hashCode text) in
  let magnitude :=
    PrimFloat.sqrt
      (fold_left (fun sum v => PrimFloat.add sum (PrimFloat.mul v v)) vector
                 PrimFloat.zero) in
  map (fun v => PrimFloat.div v magnitude) vector.

(** The [Map] from texts to their vectors. *)
Definition Vectors := list (jsstring * list Store.number).

(** [texts.map(text => ...)] of [embed], with the map it reads and writes. *)
Fixpoint mock_embed (dimensions_ : Z) (texts : list jsstring) (vectors : Vectors)
  : list (list Store.number) * Vectors :=
  match texts with
  | [] => ([], vectors)
  | text :: rest =>
    let '(vector, vectors1) :=
      match Table.lookup text vectors with
      | Some v => (v, vectors)
      | None =>
        let v := generateVector dimensions_ text in
        (v, Table.assign text v vectors)
      end in
    let '(more, vectors2) := mock_embed dimensions_ rest vectors1 in
    (vector :: more, vectors2)
  end.

(** [new MockEmbedding(dimensions)] *)
Definition MockEmbedding (dimensions_ : option Z) : EmbeddingProvider Vectors :=
  {| model := str "mock";
     dimensions := default 384 dimensions_;
     state := [];
     embed_with := fun texts vectors =>
       let '(answer, vectors1) := mock_embed (default 384 dimensions_) texts vectors in
       (Ok answer, vectors1) |}.

End Embeddings.

(** ** The [RAG] class ([src/rag.ts]) *)

Module Rag.

Import Chunker Store Documents.

(** A property of an options object: not there, there and [undefined], or
    there with a value.  A spread copies the last two alike; a destructuring
    default stands in for the first two alike. *)
Inductive property (A : Type) : Type :=
| Absent
| Undefined
| Value (a : A).

Arguments Absent {A}.
Arguments Undefined {A}.
Arguments Value {A} a.

Definition read {A} (p : property A) : option A :=
  match p with
  | Value a => Some a
  | _ => None
  end.

(** [{ ...a, ...b }], one property of it. *)
Definition over {A} (a b : property A) : property A :=
  match b with
  | Absent => a
  | _ => b
  end.

Record SearchOptionsObject : Type := {
  topK_ : property Z;
  threshold_ : property number;
  filter_ : property (option Metadata -> bool)
}.

(** [{}] *)
Definition empty_options : SearchOptionsObject :=
  {| topK_ := Absent; threshold_ := Absent; filter_ := Absent |}.

(** [{ ...defaults, ...options }] with [options] possibly [undefined]. *)
Definition spread (defaults : SearchOptionsObject) (options : option SearchOptionsObject)
  : SearchOptionsObject :=
  match options with
  | None => defaults
  | Some o =>
    {| topK_ := over (topK_ defaults) (topK_ o);
       threshold_ := over (threshold_ defaults) (threshold_ o);
       filter_ := over (filter_ defaults) (filter_ o) |}
  end.

(** The object as [VectorStore.search] destructures it. *)
Definition as_options (o : SearchOptionsObject) : SearchOptions :=
  {| topK := read (topK_ o); threshold := read (threshold_ o);
     filter := read (filter_ o) |}.

Record RAG (State : Type) : Type := {
  embedding : Embeddings.EmbeddingProvider State;
  store : VectorStore;
  chunkOptions : ChunkOptions;
  searchDefaults : SearchOptionsObject;
  initialized : bool
}.

(** [RAG.withEmbedding(provider, options)]: the instance the constructor
    builds, with its provider and its store replaced. *)
Definition withEmbedding {State} (provider : Embeddings.EmbeddingProvider State)
    (chunkOptions_ : option ChunkOptions) (searchOptions_ : option SearchOptionsObject)
  : RAG State :=
  {| embedding := provider;
     store := new (Embeddings.model provider) (Embeddings.dimensions provider);
     chunkOptions := default no_options chunkOptions_;
     searchDefaults := default empty_options searchOptions_;
     initialized := false |}.

Section Methods.

Variable State : Type.

Definition with_store (r : RAG State) (st : VectorStore) (initialized_ : bool) : RAG State :=
  {| embedding := embedding r; store := st; chunkOptions := chunkOptions r;
     searchDefaults := searchDefaults r; initialized := initialized_ |}.

Definition with_embedding (r : RAG State) (p : Embeddings.EmbeddingProvider State) : RAG State :=
  {| embedding := p; store := store r; chunkOptions := chunkOptions r;
     searchDefaults := searchDefaults r; initialized := initialized r |}.

Definition model (r : RAG State) : jsstring := Embeddings.model (embedding r).
Definition size (r : RAG State) : Z := Store.size (store r).
Definition dimensions (r : RAG State) : Z := Store.dimensions (store r).

(** [chunks.map((chunk, i) => ({ ...chunk, embedding: embeddings[i] }))]
    followed by [this.store.addAll(...)].  An [embeddings[i]] that is not
    there is [undefined]; [add] reads its [length], a [TypeError], when the
    turn of that record comes. *)
Fixpoint add_embedded (chunks_ : list Chunk) (embeddings : list (list number))
    (i : nat) (st : VectorStore) : outcome unit * VectorStore :=
  match chunks_ with
  | [] => (Ok tt, st)
  | c :: rest =>
    match nth_error embeddings i with
    | None => (Throw TypeError, st)
    | Some e =>
      match add {| id := chunk_id c; content := chunk_content c;
                   metadata := chunk_metadata c; Store.embedding := e |} st with
      | (Ok _, st1) => add_embedded rest embeddings (S i) st1
      | failed => failed
      end
    end
  end.

Definition addChunks (chunks_ : list Chunk) (r : RAG State) : outcome unit * RAG State :=
  match chunks_ with
  | [] => (Ok tt, r)
  | _ =>
    let texts := map chunk_content chunks_ in
    match Embeddings.embed texts (embedding r) with
    | (Ok embeddings, p) =>
      match add_embedded chunks_ embeddings 0 (store r) with
      | (Ok _, st) => (Ok tt, with_store (with_embedding r p) st true)
      | (failed, st) =>
        (failed, with_store (with_embedding r p) st (initialized r))
      end
    | (Throw e, p) => (Throw e, with_embedding r p)
    | (OutOfFuel, p) => (OutOfFuel, with_embedding r p)
    end
  end.

Definition addDocument (fuel : nat) (id_ content_ : jsstring)
    (metadata_ : option Metadata) (r : RAG State) : outcome (list Chunk) * RAG State :=
  match createChunks fuel content_ id_ metadata_ (Some (chunkOptions r)) with
  | Ok chunks_ =>
    match addChunks chunks_ r with
    | (Ok _, r1) => (Ok chunks_, r1)
    | (Throw e, r1) => (Throw e, r1)
    | (OutOfFuel, r1) => (OutOfFuel, r1)
    end
  | Throw e => (Throw e, r)
  | OutOfFuel => (OutOfFuel, r)
  end.

Definition addDocuments (fuel : nat) (documents : list Document) (r : RAG State)
  : outcome (list Chunk) * RAG State :=
  match createChunksFromDocuments fuel documents (Some (chunkOptions r)) with
  | Ok chunks_ =>
    match addChunks chunks_ r with
    | (Ok _, r1) => (Ok chunks_, r1)
    | (Throw e, r1) => (Throw e, r1)
    | (OutOfFuel, r1) => (OutOfFuel, r1)
    end
  | Throw e => (Throw e, r)
  | OutOfFuel => (OutOfFuel, r)
  end.

Definition addEmbeddedChunk (c : EmbeddedChunk) (r : RAG State) : outcome unit * RAG State :=
  match add c (store r) with
  | (Ok _, st) => (Ok tt, with_store r st true)
  | (failed, st) => (failed, with_store r st (initialized r))
  end.

Definition remove (id_ : jsstring) (r : RAG State) : bool * RAG State :=
  let '(found, st) := Store.remove id_ (store r) in
  (found, with_store r st (initialized r)).

(** The second [for] of [removeDocument], on [removed] and the store. *)
Definition remove_each (toRemove : list jsstring) (st : VectorStore) : Z * VectorStore :=
  fold_left
    (fun acc id_ =>
       let '(found, st1) := Store.remove id_ (snd acc) in
       (if found then fst acc + 1 else fst acc, st1))
    toRemove (0, st).

(** [for (const chunk of this.store)] walks the records in order. *)
Definition removeDocument (documentId : jsstring) (r : RAG State) : Z * RAG State :=
  let toRemove :=
    map id (List.filter (fun c => starts_with (documentId ++ str "-") (id c))
                        (chunks (store r))) in
  let '(removed, st) := remove_each toRemove (store r) in
  (removed, with_store r st (initialized r)).

Definition clear (r : RAG State) : unit * RAG State :=
  (tt, with_store r (snd (Store.clear (store r))) false).

Definition searchByEmbedding (queryEmbedding : list number)
    (options : option SearchOptionsObject) (r : RAG State) : outcome (list SearchResult) :=
  let mergedOptions := spread (searchDefaults r) options in
  Store.search (store r) queryEmbedding (as_options mergedOptions).

(** [const [queryEmbedding] = await this.embedding.embed([query])]: with
    no first element, [queryEmbedding] is [undefined] and the store's
    check of its length a [TypeError]. *)
Definition search (query : jsstring) (options : option SearchOptionsObject) (r : RAG State)
  : outcome (list SearchResult) * RAG State :=
  let mergedOptions := spread (searchDefaults r) options in
  match Embeddings.embed [query] (embedding r) with
  | (Ok embeddings, p) =>
    (match embeddings with
     | queryEmbedding :: _ =>
       Store.search (store r) queryEmbedding (as_options mergedOptions)
     | [] => Throw TypeError
     end, with_embedding r p)
  | (Throw e, p) => (Throw e, with_embedding r p)
  | (OutOfFuel, p) => (OutOfFuel, with_embedding r p)
  end.

(** [array.join(separator)] *)
Fixpoint join (separator_ : jsstring) (l : list jsstring) : jsstring :=
  match l with
  | [] => []
  | [x] => x
  | x :: rest => x ++ separator_ ++ join separator_ rest
  end.

(** [const { separator = '\n\n---\n\n', ...searchOptions } = options ?? {}] *)
Definition getContext (query : jsstring) (separator_ : option jsstring)
    (searchOptions : option SearchOptionsObject) (r : RAG State)
  : outcome jsstring * RAG State :=
  let sep := default ([LF; LF] ++ str "---" ++ [LF; LF]) separator_ in
  match search query (Some (default empty_options searchOptions)) r with
  | (Ok results, r1) =>
    (Ok (join sep (map (fun x => chunk_content (chunk x)) results)), r1)
  | (Throw e, r1) => (Throw e, r1)
  | (OutOfFuel, r1) => (OutOfFuel, r1)
  end.

Definition serialize (r : RAG State) : SerializedIndex := Store.serialize (store r).

End Methods.

End Rag.

(** ** The command line ([parseArgs] of [src/cli.ts]) *)

Module Cli.

Import Store.

(** What [parseArgs] stores under a key: [true] or the next argument. *)
Inductive setting : Type :=
| Flag
| Text (s : jsstring).

Definition Options := list (jsstring * setting).

(** [options[key] = value]: the key [__proto__] names the prototype, and
    a value that is no object leaves it, and the object, as they were. *)
Definition assign (key : jsstring) (value : setting) (o : Options) : Options :=
  if str_eqb key (str "__proto__") then o else Table.assign key value o.

(** [!options.positional] *)
Definition no_positional (o : Options) : bool :=
  match Table.lookup (str "positional") o with
  | None => true
  | Some Flag => false
  | Some (Text s) => negb (truthy s)
  end.

(** The [for (let i = 1; ...)] of [parseArgs], on the arguments from
    [args[i]] on. *)
Fixpoint parse (args : list jsstring) (o : Options) : Options :=
  match args with
  | [] => o
  | arg :: rest =>
    if starts_with (str "--") arg then
      let key := slice_from arg 2 in
      match rest with
      | next :: rest' =>
        if truthy next && negb (starts_with (str "--") next)
        then parse rest' (assign key (Text next) o)
        else parse rest (assign key Flag o)
      | [] => assign key Flag o
      end
    else if no_positional o
    then parse rest (Table.assign (str "positional") (Text arg) o)
    else parse rest o
  end.


End Cli.

(** ** A text layer to run the codec on

    A small JSON writer and reader and UTF-8 for the Basic Multilingual
    Plane.  Numbers are written in plain decimal notation, exactly, and
    read back with correct rounding.  The theorems on the codec hold for
    every text layer; this one serves for the examples. *)

Module MiniJson.

Import Store Codec.

Definition digits (n : Z) : jsstring :=
  str (NilZero.string_of_uint (N.to_uint (Z.to_N n))).

(** [n] with at least [k + 1] digits, a point before the last [k]. *)
Definition decimal (n : Z) (k : nat) : jsstring :=
  let ds := digits n in
  let ds := repeat 48%N (S k - length ds) ++ ds in
  firstn (length ds - k) ds ++ [46%N] ++ skipn (length ds - k) ds.

(** [m * 2 ^ e] with the factors of two that [e < 0] allows taken out of [m]. *)
Fixpoint reduce (m : positive) (e : Z) : positive * Z :=
  match m with
  | xO p => if e <? 0 then reduce p (e + 1) else (m, e)
  | _ => (m, e)
  end.

Definition write_number (x : number) : jsstring :=
  match Prim2SF x with
  | S754_zero _ => str "0"
  | S754_nan | S754_infinity _ => str "null"
  | S754_finite s m e =>
    let '(m', e') := reduce m e in
    (if s then str "-" else [])
    ++ (if 0 <=? e' then digits (Z.pos m' * 2 ^ e')
        else decimal (Z.pos m' * 5 ^ (- e')) (Z.to_nat (- e')))
  end.

Definition hex_digit (n : N) : char :=
  (if n <? 10 then 48 + n else 87 + n)%N.

Definition write_char (c : char) : jsstring :=
  if (c =? 34)%N then str "\" ++ [34%N]
  else if (c =? 92)%N then str "\\"
  else if (c <? 32)%N then str "\u00" ++ [hex_digit (c / 16); hex_digit (c mod 16)]
  else [c].

Definition write_string (s : jsstring) : jsstring :=
  [34%N] ++ flat_map write_char s ++ [34%N].

Fixpoint write_value (v : jsvalue) : jsstring :=
  match v with
  | JNull => str "null"
  | JBool true => str "true"
  | JBool false => str "false"
  | JNumber x => write_number x
  | JString s => write_string s
  | JArray items =>
    str "["
    ++ (fix go (l : list jsvalue) : jsstring :=
          match l with
          | [] => []
          | [x] => write_value x
          | x :: l' => write_value x ++ str "," ++ go l'
          end) items
    ++ str "]"
  | JObject fields =>
    str "{"
    ++ (fix go (l : list (jsstring * jsvalue)) : jsstring :=
          match l with
          | [] => []
          | [(k, x)] => write_string k ++ str ":" ++ write_value x
          | (k, x) :: l' => write_string k ++ str ":" ++ write_value x ++ str "," ++ go l'
          end) fields
    ++ str "}"
  end.

(** The objects of the store as values. *)
Definition number_of_Z (z : Z) : number :=
  SF2Prim (binary_normalize prec emax z 0 false).

Definition chunk_fields (i c : jsstring) (m : option Metadata) : list (jsstring * jsvalue) :=
  [(str "id", JString i); (str "content", JString c)]
  ++ match m with Some fields => [(str "metadata", JObject fields)] | None => [] end.

Definition index_value (data : SerializedIndex) : jsvalue :=
  JObject [(str "version", JNumber (number_of_Z (version data)));
           (str "model", JString (si_model data));
           (str "dimensions", JNumber (number_of_Z (si_dimensions data)));
           (str "chunks",
            JArray (map (fun c =>
                      JObject (chunk_fields (id c) (content c) (metadata c)
                               ++ [(str "embedding", JArray (map JNumber (embedding c)))]))
                    (si_chunks data)))].

Definition meta_value (meta : BinaryMeta) : jsvalue :=
  JObject [(str "version", JNumber (number_of_Z (bm_version meta)));
           (str "model", JString (bm_model meta));
           (str "dimensions", JNumber (number_of_Z (bm_dimensions meta)));
           (str "chunkMeta",
            JArray (map (fun c =>
                      JObject (chunk_fields (chunk_id c) (chunk_content c) (chunk_metadata c)))
                    (chunkMeta meta)))].

(** Reading. *)
Definition is_digit (c : char) : bool := ((48 <=? c) && (c <=? 57))%N.
Definition is_blank (c : char) : bool :=
  ((c =? 32) || (c =? 9) || (c =? 10) || (c =? 13))%N.
Definition skip_blank (s : jsstring) : jsstring := drop_while is_blank s.

(** The digits at the front of [s]: their value after [acc], how many
    they are, and what follows. *)
Fixpoint read_digits (s : jsstring) (acc : Z) (n : nat) : Z * nat * jsstring :=
  match s with
  | c :: rest =>
    if is_digit c then read_digits rest (acc * 10 + Z.of_N (c - 48)) (S n)
    else (acc, n, s)
  | [] => (acc, n, s)
  end.

(** The binary64 number nearest to [num / den]. *)
Definition nearest (negative : bool) (num den : Z) : number :=
  match num with
  | Z.pos _ =>
    let '(q, e, l) := SFdiv_core_binary prec emax num 0 den 0 in
    SF2Prim (binary_round_aux prec emax negative q e l)
  | _ => if negative then PrimFloat.neg_zero else PrimFloat.zero
  end.

Definition read_exponent (s : jsstring) : option (Z * jsstring) :=
  match s with
  | c :: rest =>
    if ((c =? 101) || (c =? 69))%N then
      let '(negative, rest1) :=
        match rest with
        | d :: rest' =>
          if (d =? 45)%N then (true, rest')
          else if (d =? 43)%N then (false, rest') else (false, rest)
        | [] => (false, rest)
        end in
      let '(x, n, rest2) := read_digits rest1 0 O in
      match n with
      | O => None
      | _ => Some ((if negative then - x else x), rest2)
      end
    else Some (0, s)
  | [] => Some (0, s)
  end.

Definition read_number (s : jsstring) : option (number * jsstring) :=
  let '(negative, s1) :=
    match s with
    | c :: rest => if (c =? 45)%N then (true, rest) else (false, s)
    | [] => (false, s)
    end in
  let '(whole, n, s2) := read_digits s1 0 O in
  match n with
  | O => None
  | _ =>
    let '(mantissa, places, s3) :=
      match s2 with
      | c :: rest =>
        if (c =? 46)%N then
          let '(m, k, rest') := read_digits rest whole O in (m, k, rest')
        else (whole, O, s2)
      | [] => (whole, O, s2)
      end in
    match read_exponent s3 with
    | None => None
    | Some (x, s4) =>
      let scale := x - Z.of_nat places in
      Some ((if 0 <=? scale then nearest negative (mantissa * 10 ^ scale) 1
             else nearest negative mantissa (10 ^ (- scale))), s4)
    end
  end.

Definition hex_value (c : char) : option N :=
  (if is_digit c then Some (c - 48)
   else if (97 <=? c) && (c <=? 102) then Some (c - 87)
   else if (65 <=? c) && (c <=? 70) then Some (c - 55)
   else None)%N.

(** The characters of a string up to its closing quote. *)
Fixpoint read_chars (s : jsstring) (acc : jsstring) : option (jsstring * jsstring) :=
  match s with
  | [] => None
  | c :: rest =>
    if (c =? 34)%N then Some (rev acc, rest)
    else if (c =? 92)%N then
      match rest with
      | e :: rest1 =>
        if (e =? 117)%N then
          match rest1 with
          | h1 :: h2 :: h3 :: h4 :: rest2 =>
            match hex_value h1, hex_value h2, hex_value h3, hex_value h4 with
            | Some a, Some b, Some c', Some d =>
              read_chars rest2 ((a * 4096 + b * 256 + c' * 16 + d)%N :: acc)
            | _, _, _, _ => None
            end
          | _ => None
          end
        else
          let plain :=
            (if e =? 98 then Some 8 else if e =? 102 then Some 12
             else if e =? 110 then Some 10 else if e =? 114 then Some 13
             else if e =? 116 then Some 9
             else if (e =? 34) || (e =? 92) || (e =? 47) then Some e
             else None)%N in
          match plain with
          | Some x => read_chars rest1 (x :: acc)
          | None => None
          end
      | [] => None
      end
    else read_chars rest (c :: acc)
  end.

Fixpoint read_value (fuel : nat) (s : jsstring) : option (jsvalue * jsstring) :=
  match fuel with
  | O => None
  | S fuel' =>
    match skip_blank s with
    | [] => None
    | c :: rest =>
      if (c =? 34)%N then
        match read_chars rest [] with
        | Some (x, s') => Some (JString x, s')
        | None => None
        end
      else if (c =? 91)%N then
        match skip_blank rest with
        | d :: rest' =>
          if (d =? 93)%N then Some (JArray [], rest')
          else match read_items fuel' rest with
               | Some (items, s') => Some (JArray items, s')
               | None => None
               end
        | [] => None
        end
      else if (c =? 123)%N then
        match skip_blank rest with
        | d :: rest' =>
          if (d =? 125)%N then Some (JObject [], rest')
          else match read_fields fuel' rest with
               | Some (fields, s') => Some (JObject fields, s')
               | None => None
               end
        | [] => None
        end
      else if starts_with (str "null") (c :: rest) then Some (JNull, skipn 3 rest)
      else if starts_with (str "true") (c :: rest) then Some (JBool true, skipn 3 rest)
      else if starts_with (str "false") (c :: rest) then Some (JBool false, skipn 4 rest)
      else
        match read_number (c :: rest) with
        | Some (x, s') => Some (JNumber x, s')
        | None => None
        end
    end
  end
with read_items (fuel : nat) (s : jsstring) : option (list jsvalue * jsstring) :=
  match fuel with
  | O => None
  | S fuel' =>
    match read_value fuel' s with
    | Some (x, s1) =>
      match skip_blank s1 with
      | c :: rest =>
        if (c =? 44)%N then
          match read_items fuel' rest with
          | Some (items, s2) => Some (x :: items, s2)
          | None => None
          end
        else if (c =? 93)%N then Some ([x], rest)
        else None
      | [] => None
      end
    | None => None
    end
  end
with read_fields (fuel : nat) (s : jsstring)
  : option (list (jsstring * jsvalue) * jsstring) :=
  match fuel with
  | O => None
  | S fuel' =>
    match skip_blank s with
    | q :: s0 =>
      if (q =? 34)%N then
        match read_chars s0 [] with
        | Some (k, s1) =>
          match skip_blank s1 with
          | colon :: s2 =>
            if (colon =? 58)%N then
              match read_value fuel' s2 with
              | Some (x, s3) =>
                match skip_blank s3 with
                | c :: rest =>
                  if (c =? 44)%N then
                    match read_fields fuel' rest with
                    | Some (fields, s4) => Some ((k, x) :: fields, s4)
                    | None => None
                    end
                  else if (c =? 125)%N then Some ([(k, x)], rest)
                  else None
                | [] => None
                end
              | None => None
              end
            else None
          | [] => None
          end
        | None => None
        end
      else None
    | [] => None
    end
  end.

(** [JSON.parse]: one value and nothing but blanks behind it. *)
Definition parse (s : jsstring) : option jsvalue :=
  match read_value (S (length s)) s with
  | Some (v, rest) => match skip_blank rest with [] => Some v | _ => None end
  | None => None
  end.

(** The parsed value under the casts of the source. *)
Definition field (k : string) (v : jsvalue) : option jsvalue :=
  match v with
  | JObject fields =>
    match find (fun kv => str_eqb (fst kv) (str k)) fields with
    | Some (_, x) => Some x
    | None => None
    end
  | _ => None
  end.

Definition Z_of_number (x : number) : option Z :=
  match Prim2SF x with
  | S754_zero _ => Some 0
  | S754_finite s m e =>
    let magnitude :=
      if 0 <=? e then Some (Z.pos m * 2 ^ e)
      else if Z.pos m mod 2 ^ (- e) =? 0 then Some (Z.pos m / 2 ^ (- e))
      else None in
    match magnitude with
    | Some z => Some (if s then - z else z)
    | None => None
    end
  | _ => None
  end.

Definition as_Z (v : option jsvalue) : option Z :=
  match v with Some (JNumber x) => Z_of_number x | _ => None end.

Definition as_string (v : option jsvalue) : option jsstring :=
  match v with Some (JString s) => Some s | _ => None end.

Definition as_array (v : option jsvalue) : option (list jsvalue) :=
  match v with Some (JArray l) => Some l | _ => None end.

Definition as_metadata (v : option jsvalue) : option (option Metadata) :=
  match v with
  | Some (JObject fields) => Some (Some fields)
  | None => Some None
  | _ => None
  end.

Fixpoint all_some {A} (l : list (option A)) : option (list A) :=
  match l with
  | [] => Some []
  | Some x :: rest =>
    match all_some rest with Some xs => Some (x :: xs) | None => None end
  | None :: _ => None
  end.

Definition as_chunk (v : jsvalue) : option Chunk :=
  match as_string (field "id" v), as_string (field "content" v),
        as_metadata (field "metadata" v) with
  | Some i, Some c, Some m =>
    Some {| chunk_id := i; chunk_content := c; chunk_metadata := m |}
  | _, _, _ => None
  end.

Definition as_number (v : jsvalue) : option number :=
  match v with JNumber x => Some x | _ => None end.

Definition as_embedded (v : jsvalue) : option EmbeddedChunk :=
  match as_chunk v, as_array (field "embedding" v) with
  | Some c, Some items =>
    match all_some (map as_number items) with
    | Some e =>
      Some {| id := chunk_id c; content := chunk_content c;
              metadata := chunk_metadata c; embedding := e |}
    | None => None
    end
  | _, _ => None
  end.

Definition as_index (v : jsvalue) : option SerializedIndex :=
  match as_Z (field "version" v), as_string (field "model" v),
        as_Z (field "dimensions" v), as_array (field "chunks" v) with
  | Some ver, Some m, Some d, Some items =>
    match all_some (map as_embedded items) with
    | Some cs =>
      Some {| version := ver; si_model := m; si_dimensions := d; si_chunks := cs |}
    | None => None
    end
  | _, _, _, _ => None
  end.

Definition as_meta (v : jsvalue) : option BinaryMeta :=
  match as_Z (field "version" v), as_string (field "model" v),
        as_Z (field "dimensions" v), as_array (field "chunkMeta" v) with
  | Some ver, Some m, Some d, Some items =>
    match all_some (map as_chunk items) with
    | Some cs =>
      Some {| bm_version := ver; bm_model := m; bm_dimensions := d; chunkMeta := cs |}
    | None => None
    end
  | _, _, _, _ => None
  end.

Definition parse_as {A} (cast : jsvalue -> option A) (s : jsstring) : outcome A :=
  match parse s with
  | Some v => match cast v with Some a => Ok a | None => Throw TypeError end
  | None => Throw SyntaxError
  end.

(** UTF-8, one code unit at a time. *)
Definition utf8_encode_char (c : char) : buffer :=
  let b (n : N) := byte_of_Z (Z.of_N n) in
  (if c <? 128 then [b c]
   else if c <? 2048 then [b (192 + c / 64); b (128 + c mod 64)]
   else [b (224 + c / 4096); b (128 + (c / 64) mod 64); b (128 + c mod 64)])%N.

Fixpoint utf8_decode (bytes : buffer) : jsstring :=
  match bytes with
  | [] => []
  | b0 :: rest =>
    let x := Byte.to_N b0 in
    if (x <? 128)%N then x :: utf8_decode rest
    else if (x <? 224)%N then
      match rest with
      | b1 :: rest' =>
        ((x - 192) * 64 + (Byte.to_N b1 - 128))%N :: utf8_decode rest'
      | [] => [65533%N]
      end
    else
      match rest with
      | b1 :: b2 :: rest' =>
        ((x - 224) * 4096 + (Byte.to_N b1 - 128) * 64 + (Byte.to_N b2 - 128))%N
        :: utf8_decode rest'
      | _ => [65533%N]
      end
  end.

Definition platform : Platform := {|
  JSON_stringify_index := fun data => write_value (index_value data);
  JSON_parse_index := parse_as as_index;
  JSON_stringify_meta := fun meta => write_value (meta_value meta);
  JSON_parse_meta := parse_as as_meta;
  TextEncoder_encode := flat_map utf8_encode_char;
  TextDecoder_decode := utf8_decode
|}.

End MiniJson.

(** * The vocabulary of the properties *)

Definition blank (s : jsstring) : Prop := Forall (fun c => is_space c = true) s.

Module ChunkerSpec.

Import Chunker.

Definition fits (n : Z) (s : jsstring) : Prop := len s <= n.

Definition words_inv (maxSize : Z) (st : list jsstring * jsstring) : Prop :=
  Forall (fits maxSize) (fst st) /\ fits maxSize (snd st).

Definition merge_inv (n : Z) (st : merge_state) : Prop :=
  Forall (fits n) (chunks st) /\ fits n (current st).

(** The options after the defaults, and the three parameter checks. *)
Definition size_of (o : ChunkOptions) : Z := default DEFAULT_CHUNK_SIZE (chunkSize o).
Definition overlap_of (o : ChunkOptions) : Z := default DEFAULT_CHUNK_OVERLAP (chunkOverlap o).

Definition valid_options (o : ChunkOptions) : Prop :=
  0 < size_of o /\ 0 <= overlap_of o < size_of o.

Definition part_of (p text : jsstring) : Prop := exists a b, text = a ++ p ++ b.

(** The pieces a RegExp separator splits a text into are parts of it. *)
Definition regexp_splits_text (sep : option Separator) (text : jsstring) : Prop :=
  match sep with
  | Some (SepRegExp split) => Forall (fun p => part_of p text) (split text)
  | _ => True
  end.

Definition short_options : ChunkOptions :=
  {| chunkSize := Some 100; chunkOverlap := None; separator := None |}.

(** [{chunkSize: 50}]: the default [chunkOverlap] is 50 too. *)
Definition small_options : ChunkOptions :=
  {| chunkSize := Some 50; chunkOverlap := None; separator := None |}.

Definition line_options : ChunkOptions :=
  {| chunkSize := Some 20; chunkOverlap := Some 0;
     separator := Some (SepString [LF]) |}.

(** The same loop need not end: each turn here pushes an empty chunk and
    rebuilds the running chunk it started from. *)
Definition stuck_options : ChunkOptions :=
  {| chunkSize := Some 2; chunkOverlap := Some 1;
     separator := Some (SepString [LF]) |}.

End ChunkerSpec.

Module F64.



(** *** The order of binary64 numbers

    [key] sends a number that is not a NaN to an integer that orders as
    the number does: its value scaled by 2^1074, where every finite
    binary64 number is an integer. *)
Definition TOP : Z := 2 ^ 2098.

Definition magnitude (m : positive) (e : Z) : Z := Z.pos m * 2 ^ (e + 1074).

Definition key (x : spec_float) : option Z :=
  match x with
  | S754_nan => None
  | S754_zero _ => Some 0
  | S754_infinity s => Some (if s then - TOP else TOP)
  | S754_finite s m e => Some (if s then - magnitude m e else magnitude m e)
  end.



End F64.

Module StoreSpec.

Import Store F64.

Definition ids (st : VectorStore) : list jsstring := map id (chunks st).
Definition unique_ids (st : VectorStore) : Prop := NoDup (ids st).

(** The structural operations of the index, and a run of them.  A run
    stops at an [Insert] that throws. *)
Inductive operation : Type :=
| Insert (c : EmbeddedChunk)
| Remove (i : jsstring)
| Clear.

Fixpoint run (ops : list operation) (st : VectorStore) : outcome VectorStore :=
  match ops with
  | [] => Ok st
  | Insert c :: rest =>
    match add c st with
    | (Ok _, st1) => run rest st1
    | (Throw e, _) => Throw e
    | (OutOfFuel, _) => OutOfFuel
    end
  | Remove i :: rest => run rest (snd (remove i st))
  | Clear :: rest => run rest (snd (clear st))
  end.

(** Every [Insert] of the run brings an id that is not stored when its
    turn comes. *)
Fixpoint inserts_fresh (ops : list operation) (st : VectorStore) : bool :=
  match ops with
  | [] => true
  | Insert c :: rest => negb (has (id c) st) && inserts_fresh rest (snd (add c st))
  | Remove i :: rest => inserts_fresh rest (snd (remove i st))
  | Clear :: rest => inserts_fresh rest (snd (clear st))
  end.

Definition chunk_a (i : string) : EmbeddedChunk :=
  {| id := str i; content := str "text"; metadata := None;
     embedding := [PrimFloat.one; PrimFloat.zero] |}.

(** Every stored embedding has the declared length: what [add] enforces. *)
Definition store_wf (st : VectorStore) : Prop :=
  Forall (fun c => len (embedding c) = dimensions st) (chunks st).

(** The score the loop of [search] computes for a record. *)
Definition score_of (q : list number) (c : EmbeddedChunk) : number :=
  match cosineSimilarity q (embedding c) with
  | Ok s => s
  | _ => PrimFloat.nan
  end.

Definition result_of (q : list number) (c : EmbeddedChunk) : SearchResult :=
  {| chunk := {| chunk_id := id c; chunk_content := content c;
                 chunk_metadata := metadata c |};
     score := score_of q c |}.

(** The records that pass the filter and the threshold. *)
Definition passes (q : list number) (threshold_ : number)
    (filter_ : option (option Metadata -> bool)) (c : EmbeddedChunk) : bool :=
  accepts filter_ (metadata c) && PrimFloat.leb threshold_ (score_of q c).

(** The matches of a query, in insertion order. *)
Definition matches (q : list number) (threshold_ : number)
    (filter_ : option (option Metadata -> bool)) (cs : list EmbeddedChunk)
  : list SearchResult :=
  map (result_of q) (List.filter (passes q threshold_ filter_) cs).




Definition threshold_of (o : SearchOptions) : number :=
  default PrimFloat.zero (threshold o).




Section Sums.

Variable num : Type.
Variable A : arithmetic num.

(** The three sums of the loop, each on its own. *)
Fixpoint sum_products (a b : list num) (acc : num) : num :=
  match a, b with
  | x :: a', y :: b' => sum_products a' b' (num_add A acc (num_mul A x y))
  | _, _ => acc
  end.

Definition dot (a b : list num) : num := sum_products a b (num_zero A).

Definition squared_norm (a : list num) : num := dot a a.

Definition magnitude_of (a : list num) : num := num_sqrt A (squared_norm a).

End Sums.

Definition is_zero (x : number) : Prop := PrimFloat.eqb x PrimFloat.zero = true.

(** Neither an infinity nor a NaN. *)
Definition finite (x : number) : Prop :=
  match Prim2SF x with
  | S754_zero _ | S754_finite _ _ _ => True
  | _ => False
  end.

Definition not_nan (x : number) : Prop := Prim2SF x <> S754_nan.

End StoreSpec.

Module CodecSpec.

Import Store Codec StoreSpec.

(** The record a [Float32Array] gives back. *)
Definition rounded (c : EmbeddedChunk) : EmbeddedChunk :=
  {| id := id c; content := content c; metadata := metadata c;
     embedding := map fround (embedding c) |}.

Definition rounded_store (st : VectorStore) : VectorStore :=
  {| chunks := map rounded (chunks st); model := model st;
     dimensions := dimensions st |}.

(** The bytes of the metadata block. *)
Definition meta_bytes (P : Platform) (st : VectorStore) : buffer :=
  TextEncoder_encode P (JSON_stringify_meta P (binary_meta st)).

(** The text layer gives back the object it was given. *)
Definition reads_back_meta (P : Platform) (st : VectorStore) : Prop :=
  JSON_parse_meta P (TextDecoder_decode P (meta_bytes P st)) = Ok (binary_meta st).

Definition reads_back_index (P : Platform) (st : VectorStore) : Prop :=
  JSON_parse_index P (toJSON P st) = Ok (serialize st).

(** Every entry of every embedding is a binary32 number. *)
Definition f32_exact (st : VectorStore) : Prop :=
  Forall (fun c => Forall (fun x => fround x = x) (embedding c)) (chunks st).

Definition test_chunk (i : string) (e : list number) : EmbeddedChunk :=
  {| id := str i; content := str "Content"; 
     metadata := Some [(str "source", JString (str "test"))]; embedding := e |}.

Definition test_store : VectorStore :=
  {| chunks := [test_chunk "c1" [PrimFloat.one; PrimFloat.zero; PrimFloat.zero];
                test_chunk "c2" [PrimFloat.zero; PrimFloat.one; PrimFloat.zero]];
     model := str "test-model"; dimensions := 3 |}.

(** C2 at a failing store: one record whose embedding is the binary64
    number nearest to 0.1.  Whatever text layer reads the metadata block
    back, the binary round trip returns the embedding as the binary32
    number nearest to 0.1, which is another number. *)
Definition tenth : VectorStore :=
  {| chunks := [test_chunk "c1" [0x1.999999999999ap-4%float]];
     model := str "test-model"; dimensions := 1 |}.

End CodecSpec.

(** ** Vocabulary of the further properties *)

Module StoreLaws.

Import Store StoreSpec.

(** The embedding has the declared length: the check of [add]. *)
Definition fitting (d : Z) (c : EmbeddedChunk) : bool := len (embedding c) =? d.

(** The records in front of the first one that [add] refuses. *)
Definition fitting_prefix (d : Z) (cs : list EmbeddedChunk) : list EmbeddedChunk :=
  firstn (count_while (fitting d) cs) cs.

(** [c] is the first record of [l] with the id [i]. *)
Definition first_with_id (i : jsstring) (c : EmbeddedChunk) (l : list EmbeddedChunk)
  : Prop :=
  exists before after,
    l = before ++ c :: after /\ id c = i /\ Forall (fun x => id x <> i) before.

Definition chunk_b (i : string) : EmbeddedChunk :=
  {| id := str i; content := str "other"; metadata := None;
     embedding := [PrimFloat.zero; PrimFloat.one] |}.

Definition two_dims : VectorStore := new (str "m") 2.




(** The result passes the filter and the threshold of the options. *)
Definition kept (o : SearchOptions) (r : SearchResult) : bool :=
  accepts (filter o) (chunk_metadata (chunk r))
  && PrimFloat.leb (threshold_of o) (score r).

End StoreLaws.

Module ChunkerLaws.

Import Chunker ChunkerSpec.

(** The text without its white space. *)
Definition solid (s : jsstring) : jsstring :=
  List.filter (fun c => negb (is_space c)) s.

(** No white space at either end. *)
Definition trimmed (s : jsstring) : Prop := trim s = s.

(** A matcher that matches white space only. *)
Definition spaces_only (m : matcher) : Prop :=
  forall prev s, (m prev s <= count_while is_space s)%nat.

(** A word holds no white space. *)
Definition spaceless (s : jsstring) : Prop := Forall (fun c => is_space c = false) s.

(** What a turn of [splitByWords] keeps: every piece pushed has content,
    the running piece is empty or has content, and pieces and running
    piece together hold the words read so far, white space aside. *)
Definition words_state (read : jsstring) (st : list jsstring * jsstring) : Prop :=
  Forall (fun s => has_content s = true) (fst st)
  /\ (truthy (snd st) = true -> has_content (snd st) = true)
  /\ solid (concat (fst st) ++ snd st) = solid read.

(** What a turn of [mergeSegments] keeps on segments that have content:
    no chunk pushed is empty and the running chunk is empty or has
    content. *)
Definition merge_full (st : merge_state) : Prop :=
  Forall (fun c => c <> []) (chunks st)
  /\ (truthy (current st) = true -> has_content (current st) = true).

(** Without overlap, chunks and running chunk together hold the segments
    read so far, white space aside. *)
Definition merge_holds (read : jsstring) (st : merge_state) : Prop :=
  overlapBuffer st = [] /\ solid (concat (chunks st) ++ current st) = solid read.

(** The options [{ chunkSize: n, chunkOverlap: k }]. *)
Definition sized (n k : Z) : ChunkOptions :=
  {| chunkSize := Some n; chunkOverlap := Some k; separator := None |}.

End ChunkerLaws.

Module DocumentsLaws.

Import Chunker Store Documents.

(** The id of the chunk number [index] of the document [baseId]. *)
Definition label (baseId : jsstring) (index : nat) : jsstring :=
  baseId ++ str "-" ++ Number.index_to_string index.

Definition is_digit (c : char) : Prop := (48 <= c <= 57)%N.

(** The chunk number [index] of [total], as [createChunks] builds it. *)
Definition chunk_of (baseId : jsstring) (metadata : option Metadata) (total : nat)
    (content : jsstring) (index : nat) : Chunk :=
  {| chunk_id := label baseId index;
     chunk_content := content;
     chunk_metadata := Some (chunk_metadata_of metadata index total) |}.

Definition two_paragraphs : jsstring :=
  str "First paragraph." ++ [LF; LF] ++ str "Second paragraph.".

Definition size_20 : ChunkOptions :=
  {| chunkSize := Some 20; chunkOverlap := Some 0; separator := None |}.

Definition no_size : ChunkOptions :=
  {| chunkSize := Some 0; chunkOverlap := None; separator := None |}.

End DocumentsLaws.

Module EmbeddingsLaws.

Import Embeddings.

(** The polynomial of the code units in 31, over the integers. *)
Definition polynomial (s : jsstring) : Z :=
  fold_left (fun h c => 31 * h + Z.of_N c) s 0.

(** Every vector the map holds is the one [generateVector] computes for
    its text. *)
Definition coherent (dimensions_ : Z) (vectors : Vectors) : Prop :=
  forall text v, Table.lookup text vectors = Some v -> v = generateVector dimensions_ text.

(** The provider after a series of [embed] calls. *)
Definition after {State} (calls : list (list jsstring)) (p : EmbeddingProvider State)
  : EmbeddingProvider State :=
  fold_left (fun q texts => snd (embed texts q)) calls p.

End EmbeddingsLaws.

Module RagLaws.

Import Store StoreSpec Rag.

(** The chunk is one of the document: its id starts with the id of the
    document and a dash. *)
Definition belongs (documentId : jsstring) (c : EmbeddedChunk) : bool :=
  starts_with (documentId ++ str "-") (id c).

(** [{ ...chunk, embedding }] *)
Definition embedded (c : Chunk) (e : list number) : EmbeddedChunk :=
  {| id := chunk_id c; content := chunk_content c; metadata := chunk_metadata c;
     Store.embedding := e |}.

(** The chunks with their embeddings, as far as there are embeddings. *)
Definition pair_up (chunks_ : list Chunk) (embeddings : list (list number))
  : list EmbeddedChunk :=
  map (fun ce => embedded (fst ce) (snd ce)) (combine chunks_ embeddings).

Definition with_chunks (st : VectorStore) (cs : list EmbeddedChunk) : VectorStore :=
  {| chunks := cs; Store.model := Store.model st;
     Store.dimensions := Store.dimensions st |}.

(** A provider that keeps its promise: from its state on, every call of
    [embed] resolves to one vector for each text, each of the declared
    length. *)
Definition dependable {State} (p : Embeddings.EmbeddingProvider State) : Prop :=
  exists I : State -> Prop,
    I (Embeddings.state p)
    /\ forall s texts, I s ->
       exists vs s',
         Embeddings.embed_with p texts s = (Ok vs, s')
         /\ length vs = length texts
         /\ Forall (fun v => len v = Embeddings.dimensions p) vs
         /\ I s'.

(** An instance whose store has the dimensions of its provider and holds
    only embeddings of that length. *)
Definition sound {State} (r : RAG State) : Prop :=
  Store.dimensions (store r) = Embeddings.dimensions (embedding r)
  /\ store_wf (store r)
  /\ dependable (embedding r).

(** A provider that answers the same vector for every text, and an
    instance over it. *)
Definition constant_provider : Embeddings.EmbeddingProvider unit :=
  Embeddings.CustomEmbedding
    (fun texts s => (Ok (map (fun _ => [PrimFloat.one; PrimFloat.zero]) texts), s))
    tt None 2.

Definition constant_rag : RAG unit := withEmbedding constant_provider None None.

End RagLaws.

Module CliLaws.

Import Cli.






End CliLaws.

(** * Properties *)

(** ** Strings *)

Lemma len_nonneg {A} (s : list A) : 0 <= len s.
Proof. unfold len. lia. Qed.

Lemma len_app {A} (s t : list A) : len (s ++ t) = len s + len t.
Proof. unfold len. rewrite length_app. lia. Qed.

Lemma len_cons {A} (x : A) (s : list A) : len (x :: s) = 1 + len s.
Proof. unfold len. simpl length. lia. Qed.

Lemma len_nil {A} : len (@nil A) = 0.
Proof. reflexivity. Qed.

Lemma truthy_false (s : jsstring) : truthy s = false <-> s = [].
Proof. destruct s; simpl; split; congruence. Qed.

Lemma drop_while_length {A} (p : A -> bool) (s : list A) :
  (length (drop_while p s) <= length s)%nat.
Proof.
  induction s as [|c s IH]; simpl; [lia|].
  destruct (p c); simpl; lia.
Qed.

Lemma drop_while_all {A} (p : A -> bool) (s : list A) :
  Forall (fun c => p c = true) s -> drop_while p s = [].
Proof.
  induction 1 as [|c s Hc _ IH]; simpl; [reflexivity|].
  now rewrite Hc.
Qed.

Lemma trim_length (s : jsstring) : len (trim s) <= len s.
Proof.
  unfold trim, trimEnd, trimStart, len.
  rewrite length_rev.
  pose proof (drop_while_length is_space (rev (drop_while is_space s))) as H1.
  rewrite length_rev in H1.
  pose proof (drop_while_length is_space s). lia.
Qed.

Lemma trim_blank (s : jsstring) : blank s -> trim s = [].
Proof.
  intros H. unfold trim, trimStart.
  now rewrite (drop_while_all _ H).
Qed.

(** ** The chunker *)

Module ChunkerProperties.

Import Chunker ChunkerSpec.

Lemma has_content_blank (s : jsstring) : blank s -> has_content s = false.
Proof. intros H. unfold has_content. now rewrite trim_blank. Qed.

Lemma split_go_blank (m : matcher) (s : jsstring) :
  blank s -> forall prev piece skip,
  blank piece -> Forall blank (split_go m prev s piece skip).
Proof.
  induction 1 as [|c s Hc Hs IH]; intros prev piece skip Hp; simpl.
  - constructor; [|constructor]. now apply Forall_rev.
  - destruct skip as [|k].
    + destruct (m prev (c :: s)) as [|k].
      * apply IH. now constructor.
      * constructor; [now apply Forall_rev|]. apply IH. constructor.
    + now apply IH.
Qed.

Lemma filter_has_content_blank (l : list jsstring) :
  Forall blank l -> filter has_content l = [].
Proof.
  induction 1 as [|s l Hs _ IH]; simpl; [reflexivity|].
  now rewrite (has_content_blank Hs).
Qed.

Lemma split_with_blank (m : matcher) (s : jsstring) :
  blank s -> filter has_content (split_with m s) = [].
Proof.
  intros H. apply filter_has_content_blank, split_go_blank; [assumption|constructor].
Qed.

(** ** slices *)

Lemma clamp_index_range (n i : Z) : 0 <= n -> 0 <= clamp_index n i <= n.
Proof. unfold clamp_index. destruct (i <? 0) eqn:E; lia. Qed.

Lemma slice_length_le {A} (s : list A) (a b : Z) :
  0 <= a -> 0 <= b -> len (slice s a b) <= Z.max 0 (b - a).
Proof.
  intros Ha Hb. unfold slice, len. rewrite length_firstn.
  pose proof (len_nonneg s) as Hn. unfold len in Hn.
  unfold clamp_index.
  destruct (a <? 0) eqn:Ea; [lia|].
  destruct (b <? 0) eqn:Eb; unfold len; lia.
Qed.

Lemma slice_length_le_len {A} (s : list A) (a b : Z) :
  len (slice s a b) <= len s.
Proof.
  unfold slice, len. rewrite length_firstn, length_skipn. lia.
Qed.

(** ** The chunker keeps to the size on the paths that never split a
    running chunk *)

Lemma fits_trim (n : Z) (s : jsstring) : fits n s -> fits n (trim s).
Proof. unfold fits. pose proof (trim_length s). lia. Qed.

Lemma word_slices_fit (maxSize : Z) (word : jsstring) :
  0 <= maxSize ->
  forall fuel i, 0 <= i -> Forall (fits maxSize) (word_slices fuel word i maxSize).
Proof.
  intros Hm. induction fuel as [|fuel IH]; intros i Hi; simpl; [constructor|].
  destruct (i <? len word); [|constructor].
  constructor.
  - unfold fits. pose proof (@slice_length_le _ word i (i + maxSize)). lia.
  - apply IH. lia.
Qed.

Lemma push_fits (n : Z) (l : list jsstring) (s : jsstring) :
  Forall (fits n) l -> fits n s -> Forall (fits n) (l ++ [s]).
Proof. intros. apply Forall_app; split; [assumption|]. now constructor. Qed.

Lemma splitByWords_step_inv (maxSize : Z) st (word : jsstring) :
  0 <= maxSize -> words_inv maxSize st ->
  words_inv maxSize (splitByWords_step maxSize st word).
Proof.
  intros Hm [Hc Hcur]. destruct st as [chunks current]. simpl in Hc, Hcur.
  unfold splitByWords_step, words_inv.
  destruct (maxSize <? len word) eqn:Hw.
  - simpl. split.
    + apply Forall_app. split.
      * destruct (truthy current); [apply push_fits; auto using fits_trim|assumption].
      * apply word_slices_fit; lia.
    + unfold fits. rewrite len_nil. lia.
  - apply Z.ltb_ge in Hw.
    destruct (len _ <=? maxSize) eqn:Hcand.
    + simpl. split; [assumption|]. apply Z.leb_le in Hcand. exact Hcand.
    + simpl. split; [|exact Hw].
      destruct (truthy current); [apply push_fits; auto using fits_trim|assumption].
Qed.

Lemma fold_left_inv {A B} (f : A -> B -> A) (I : A -> Prop) :
  (forall a b, I a -> I (f a b)) ->
  forall l a, I a -> I (fold_left f l a).
Proof.
  intros Hf. induction l as [|b l IH]; intros a Ha; simpl; auto.
Qed.

Lemma splitByWords_fit (text : jsstring) (maxSize : Z) :
  0 <= maxSize -> Forall (fits maxSize) (splitByWords text maxSize).
Proof.
  intros Hm. unfold splitByWords.
  pose proof (@fold_left_inv _ _ (splitByWords_step maxSize) (words_inv maxSize)
                (fun a b => @splitByWords_step_inv maxSize a b Hm)
                (split_with WORD_SPLIT text) ([], [])) as H.
  destruct (fold_left _ _ _) as [chunks current].
  destruct H as [Hc Hcur].
  - split; simpl; [constructor|]. unfold fits. rewrite len_nil. lia.
  - simpl in Hc, Hcur.
    destruct (truthy (trim current)); [apply push_fits; auto using fits_trim|assumption].
Qed.

Lemma existsb_too_long_false (n : Z) (l : list jsstring) :
  existsb (fun s => n <? len s) l = false -> Forall (fits n) l.
Proof.
  induction l as [|s l IH]; simpl; [constructor|].
  intros H. apply orb_false_iff in H. destruct H as [H1 H2].
  constructor; [|auto]. apply Z.ltb_ge in H1. exact H1.
Qed.

Lemma Forall_flat_map_intro {A B} (P : B -> Prop) (f : A -> list B) (l : list A) :
  (forall x, Forall P (f x)) -> Forall P (flat_map f l).
Proof.
  intros H. induction l as [|x l IH]; simpl; [constructor|].
  apply Forall_app. auto.
Qed.

Lemma splitByBoundary_fit (text : jsstring) (maxSize : Z) :
  0 <= maxSize -> Forall (fits maxSize) (splitByBoundary text maxSize).
Proof.
  intros Hm. unfold splitByBoundary.
  destruct (existsb _ _) eqn:E.
  - apply Forall_flat_map_intro. intros segment.
    destruct (len segment <=? maxSize) eqn:Hs.
    + constructor; [|constructor]. apply Z.leb_le in Hs. exact Hs.
    + apply Forall_flat_map_intro. intros sentence.
      destruct (len sentence <=? maxSize) eqn:Hs'.
      * constructor; [|constructor]. apply Z.leb_le in Hs'. exact Hs'.
      * now apply splitByWords_fit.
  - now apply existsb_too_long_false.
Qed.

Lemma split_oversized_idle (fuel : nat) (chunkSize overlap : Z) (st : merge_state) :
  fits chunkSize (current st) ->
  split_oversized fuel chunkSize overlap st = Ok st.
Proof.
  intros H. unfold fits in H.
  destruct fuel; simpl; destruct (chunkSize <? len (current st)) eqn:E;
    try reflexivity; apply Z.ltb_lt in E; lia.
Qed.

Lemma mergeSegments_step_fit (fuel : nat) (chunkSize overlap : Z)
    (st : merge_state) (segment : jsstring) :
  merge_inv chunkSize st -> fits chunkSize segment ->
  exists st', mergeSegments_step fuel chunkSize overlap st segment = Ok st'
              /\ merge_inv chunkSize st'.
Proof.
  intros [Hc Hcur] Hs. unfold mergeSegments_step.
  destruct (len _ <=? chunkSize) eqn:Hcand.
  - eexists. split; [reflexivity|]. split; simpl; [assumption|].
    apply Z.leb_le in Hcand. exact Hcand.
  - match goal with |- context [split_oversized _ _ _ ?s] => set (st1 := s) end.
    assert (H1 : merge_inv chunkSize st1).
    { subst st1. split; simpl.
      - destruct (truthy (current st)); [apply push_fits; auto using fits_trim|assumption].
      - match goal with |- context [if ?c then _ else _] => destruct c eqn:Hfit end;
          [|assumption].
        apply andb_true_iff in Hfit. destruct Hfit as [_ Hfit].
        apply Z.leb_le in Hfit. unfold fits.
        rewrite len_app. simpl app. rewrite len_cons. lia. }
    exists st1. split; [|assumption].
    apply split_oversized_idle. apply H1.
Qed.

Lemma mergeSegments_loop_fit (fuel : nat) (chunkSize overlap : Z)
    (segments : list jsstring) :
  Forall (fits chunkSize) segments ->
  forall st, merge_inv chunkSize st ->
  exists st', mergeSegments_loop fuel chunkSize overlap segments st = Ok st'
              /\ merge_inv chunkSize st'.
Proof.
  induction 1 as [|segment rest Hs _ IH]; intros st Hst; simpl.
  - eauto.
  - destruct (@mergeSegments_step_fit fuel chunkSize overlap st segment Hst Hs)
      as [st1 [E1 H1]].
    rewrite E1. simpl. now apply IH.
Qed.

Lemma mergeSegments_fit (fuel : nat) (segments : list jsstring) (chunkSize overlap : Z) :
  0 <= chunkSize -> Forall (fits chunkSize) segments ->
  exists out, mergeSegments fuel segments chunkSize overlap = Ok out
              /\ Forall (fits chunkSize) out.
Proof.
  intros Hn Hs. unfold mergeSegments.
  destruct segments as [|s rest]; [exists []; split; [reflexivity|constructor]|].
  destruct (@mergeSegments_loop_fit fuel chunkSize overlap (s :: rest) Hs
              {| chunks := []; current := []; overlapBuffer := [] |})
    as [st' [E [Hc Hcur]]].
  - split; simpl; [constructor|]. unfold fits. rewrite len_nil. lia.
  - rewrite E. simpl. eexists. split; [reflexivity|].
    destruct (truthy (trim (current st'))); [apply push_fits; auto using fits_trim|assumption].
Qed.

Lemma chunkText_valid (fuel : nat) (text : jsstring) (o : ChunkOptions) :
  valid_options o ->
  chunkText fuel text o =
    match given (separator o) with
    | Some sep =>
      let segments := filter has_content (split_by sep text) in
      if forallb (fun s => len s <=? size_of o) segments
      then Ok (map trim segments)
      else mergeSegments fuel segments (size_of o) (overlap_of o)
    | None =>
      if len text <=? size_of o
      then Ok (if truthy (trim text) then [trim text] else [])
      else mergeSegments fuel (splitByBoundary text (size_of o)) (size_of o) (overlap_of o)
    end.
Proof.
  intros [H1 [H2 H3]]. unfold chunkText. fold (size_of o). fold (overlap_of o).
  destruct (size_of o <=? 0) eqn:E1; [apply Z.leb_le in E1; lia|].
  destruct (overlap_of o <? 0) eqn:E2; [apply Z.ltb_lt in E2; lia|].
  destruct (size_of o <=? overlap_of o) eqn:E3; [apply Z.leb_le in E3; lia|].
  reflexivity.
Qed.

(** Without a separator every chunk fits, whatever the text; the call
    returns on any fuel. *)
Lemma chunkText_no_separator_fits (fuel : nat) (text : jsstring) (o : ChunkOptions) :
  valid_options o -> given (separator o) = None ->
  exists out, chunkText fuel text o = Ok out /\ Forall (fits (size_of o)) out.
Proof.
  intros Hv Hsep. rewrite (chunkText_valid fuel text Hv), Hsep.
  destruct Hv as [Hpos _].
  destruct (len text <=? size_of o) eqn:E.
  - apply Z.leb_le in E. eexists. split; [reflexivity|].
    destruct (truthy (trim text)); constructor; [|constructor].
    apply fits_trim. exact E.
  - apply mergeSegments_fit; [lia|]. apply splitByBoundary_fit. lia.
Qed.

(** ** The parameter checks *)

Lemma split_oversized_no_throw (fuel : nat) (chunkSize overlap : Z) :
  forall st e, split_oversized fuel chunkSize overlap st <> Throw e.
Proof.
  induction fuel as [|fuel IH]; intros st e; simpl;
    destruct (chunkSize <? len (current st)); try discriminate.
  apply IH.
Qed.

Lemma mergeSegments_loop_no_throw (fuel : nat) (chunkSize overlap : Z)
    (segments : list jsstring) :
  forall st e, mergeSegments_loop fuel chunkSize overlap segments st <> Throw e.
Proof.
  induction segments as [|s rest IH]; intros st e; simpl; [discriminate|].
  destruct (mergeSegments_step fuel chunkSize overlap st s) as [st1|e1|] eqn:E; simpl.
  - apply IH.
  - exfalso. revert E. unfold mergeSegments_step.
    destruct (len _ <=? chunkSize); [discriminate|]. apply split_oversized_no_throw.
  - discriminate.
Qed.

Lemma mergeSegments_no_throw (fuel : nat) (segments : list jsstring)
    (chunkSize overlap : Z) (e : error) :
  mergeSegments fuel segments chunkSize overlap <> Throw e.
Proof.
  unfold mergeSegments. destruct segments as [|s rest]; [discriminate|].
  destruct (mergeSegments_loop _ _ _ _ _) as [st|e1|] eqn:E; simpl; try discriminate.
  exfalso. exact (mergeSegments_loop_no_throw _ _ _ _ _ E).
Qed.

(** C9: the three parameter checks of [chunkText] come first: whatever the
    text and the separator, a non-positive [chunkSize], a negative
    [chunkOverlap] or a [chunkOverlap] not below [chunkSize] throws the
    argument error and nothing is returned; with valid options the call
    throws nothing. *)
Theorem chunkText_parameter_checks (fuel : nat) (text : jsstring) (o : ChunkOptions) :
  (size_of o <= 0 \/ overlap_of o < 0 \/ size_of o <= overlap_of o ->
     exists msg, chunkText fuel text o = Throw (InvalidArgument msg))
  /\ (0 < size_of o /\ 0 <= overlap_of o < size_of o ->
     forall e, chunkText fuel text o <> Throw e).
Proof.
  split.
  - intros H. unfold chunkText. fold (size_of o). fold (overlap_of o).
    destruct (size_of o <=? 0) eqn:E1; [eauto|].
    destruct (overlap_of o <? 0) eqn:E2; [eauto|].
    destruct (size_of o <=? overlap_of o) eqn:E3; [eauto|].
    apply Z.leb_gt in E1, E3. apply Z.ltb_ge in E2. lia.
  - intros Hv e. rewrite (chunkText_valid fuel text Hv).
    destruct (given (separator o)) as [sep|].
    + cbv zeta. destruct (forallb _ _); [discriminate|apply mergeSegments_no_throw].
    + destruct (len text <=? size_of o); [discriminate|apply mergeSegments_no_throw].
Qed.

(** ** Short and blank texts *)

Lemma part_of_blank (p text : jsstring) : blank text -> part_of p text -> blank p.
Proof.
  intros H [a [b E]]. subst text.
  apply Forall_app in H. destruct H as [_ H].
  apply Forall_app in H. tauto.
Qed.

Lemma split_by_blank (sep : Separator) (text : jsstring) :
  blank text -> regexp_splits_text (Some sep) text ->
  filter has_content (split_by sep text) = [].
Proof.
  intros Hb Hre. destruct sep as [s|split]; simpl.
  - now apply split_with_blank.
  - apply filter_has_content_blank. simpl in Hre.
    eapply Forall_impl; [|exact Hre]. intros p. now apply part_of_blank.
Qed.

Lemma splitByBoundary_blank (text : jsstring) (maxSize : Z) :
  blank text -> splitByBoundary text maxSize = [].
Proof.
  intros Hb. unfold splitByBoundary. now rewrite (split_with_blank _ Hb).
Qed.

(** C8, amended: the parameter checks come first.  With valid options
    (after the defaults: [chunkSize] positive, [chunkOverlap] from 0 to
    below [chunkSize]) and no separator, a text no longer than
    [chunkSize] comes back as the single chunk of its trimmed form, or as
    no chunk when nothing is left after trimming; with valid options an
    empty or white-space-only text of any length yields no chunk (a
    RegExp separator being one that splits a text into parts of it). *)
Theorem chunkText_short_or_blank (fuel : nat) (text : jsstring) (o : ChunkOptions) :
  valid_options o ->
  (given (separator o) = None -> len text <= size_of o ->
     chunkText fuel text o = Ok (if truthy (trim text) then [trim text] else []))
  /\ (blank text -> regexp_splits_text (separator o) text ->
     chunkText fuel text o = Ok []).
Proof.
  intros Hv. rewrite (chunkText_valid fuel text Hv). split.
  - intros -> Hlen. apply Z.leb_le in Hlen. now rewrite Hlen.
  - intros Hb Hre. destruct (given (separator o)) as [sep|] eqn:Hsep.
    + assert (Hre' : regexp_splits_text (Some sep) text).
      { destruct (separator o) as [[[|c s]|split]|]; simpl in Hsep;
          try discriminate; injection Hsep as <-; simpl; auto. }
      cbv zeta. now rewrite (@split_by_blank sep text Hb Hre').
    + rewrite (trim_blank Hb), (splitByBoundary_blank _ Hb). simpl.
      now destruct (len text <=? size_of o).
Qed.

Lemma chunkText_short_or_blank_witness :
  valid_options short_options
  /\ chunkText 0 (str " Hello, world! ") short_options = Ok [str "Hello, world!"]
  /\ chunkText 0 (str "   ") short_options = Ok [].
Proof.
  assert (Hv : valid_options short_options) by (cbv; repeat split; congruence).
  split; [exact Hv|]. split.
  - apply (proj1 (@chunkText_short_or_blank 0 (str " Hello, world! ") short_options Hv));
      [reflexivity|cbv; congruence].
  - apply (proj2 (@chunkText_short_or_blank 0 (str "   ") short_options Hv));
      [repeat constructor|exact I].
Defined.

(** C8 as first stated, at a failing input: a text of three characters
    and [{chunkSize: 50}].  The text fits, but the default [chunkOverlap]
    of 50 is not below [chunkSize] and the third parameter check throws
    before the text is looked at; so it does for a blank text. *)
Lemma chunkText_short_text_throws :
  len (str "abc") <= size_of small_options
  /\ given (separator small_options) = None
  /\ chunkText 0 (str "abc") small_options
     = Throw (InvalidArgument "chunkOverlap must be less than chunkSize")
  /\ chunkText 0 (str "   ") small_options
     = Throw (InvalidArgument "chunkOverlap must be less than chunkSize").
Proof. repeat split; vm_compute; congruence. Qed.

(** ** A chunk longer than [chunkSize] *)

(** C1 at a failing input: one line of 41 characters, chunked by lines
    with [chunkSize] 20.  The line does not fit, the loop of
    [mergeSegments] asks [findSplitPoint] where to cut, which finds the
    sentence end at index 21 inside its window of 50 characters past the
    target and answers 23: the first chunk has 22 characters. *)
Theorem chunkText_chunk_exceeds_chunkSize :
  findSplitPoint (str "This is one long line. And more text here") 20 = 23
  /\ chunkText 1 (str "This is one long line. And more text here") line_options
     = Ok [str "This is one long line."; str "And more text here"]
  /\ len (str "This is one long line.") = 22.
Proof. repeat split; vm_compute; reflexivity. Qed.

Lemma split_oversized_stuck (fuel : nat) :
  forall pushed,
  split_oversized fuel 2 1
    {| chunks := pushed; current := str "  aaa"; overlapBuffer := str " " |}
  = OutOfFuel.
Proof.
  induction fuel as [|fuel IH]; intros pushed; [reflexivity|].
  exact (IH (pushed ++ [[]])).
Qed.

Lemma chunkText_does_not_return (fuel : nat) :
  chunkText fuel (str ". aaa") stuck_options = OutOfFuel.
Proof.
  assert (E : split_oversized fuel 2 1
                {| chunks := []; current := str ". aaa"; overlapBuffer := [] |}
              = OutOfFuel).
  { destruct fuel as [|fuel]; [reflexivity|].
    rewrite <- (split_oversized_stuck fuel [str "."]). reflexivity. }
  cbv -[split_oversized] in E |- *. now rewrite E.
Qed.

End ChunkerProperties.

Module F64Facts.

Import F64.

(** ** binary64 arithmetic: what the proofs need of it *)

























End F64Facts.

Module StoreProperties.

Import Store F64 F64Facts StoreSpec.

(** ** The store: insertion, removal, clearing *)

(** C6: [add] checks the length of the embedding against the declared
    dimensions before it touches the store.  When they differ the call
    throws the dimension error and the store is the one before the call;
    when they agree the record is appended behind the stored ones, which
    stay as they were. *)
Theorem add_checks_then_appends (c : EmbeddedChunk) (st : VectorStore) :
  (len (embedding c) <> dimensions st ->
     add c st = (Throw DimensionMismatch, st))
  /\ (len (embedding c) = dimensions st ->
     add c st = (Ok tt, {| chunks := chunks st ++ [c]; model := model st;
                           dimensions := dimensions st |})
     /\ forall i, (i < length (chunks st))%nat ->
          nth_error (chunks (snd (add c st))) i = nth_error (chunks st) i).
Proof.
  unfold add, validateDimensions. split; intros H.
  - apply Z.eqb_neq in H. now rewrite H.
  - apply Z.eqb_eq in H. rewrite H. simpl. split; [reflexivity|].
    intros i Hi. now rewrite nth_error_app1.
Qed.

(** C10: [clear] and [remove] act on the records only.  [clear] leaves no
    record; [remove], found or not, and [clear] leave the model name and
    the dimensions as they were. *)
Theorem clear_remove_keep_identity (st : VectorStore) :
  (chunks (snd (clear st)) = []
   /\ model (snd (clear st)) = model st
   /\ dimensions (snd (clear st)) = dimensions st)
  /\ forall i : jsstring,
       model (snd (remove i st)) = model st
       /\ dimensions (snd (remove i st)) = dimensions st
       /\ (fst (remove i st) = false -> snd (remove i st) = st).
Proof.
  split; [now unfold clear|].
  intros i. unfold remove.
  destruct (findIndex (has_id i) (chunks st)); simpl; repeat split; auto; discriminate.
Qed.

(** ** Record ids *)

Lemma str_eqb_eq (a b : jsstring) : str_eqb a b = true <-> a = b.
Proof.
  revert b. induction a as [|x a IH]; intros [|y b]; simpl; split;
    try congruence; try discriminate.
  - intros H. apply andb_true_iff in H. destruct H as [H1 H2].
    apply N.eqb_eq in H1. apply IH in H2. congruence.
  - intros H. injection H as -> ->. rewrite N.eqb_refl. simpl. now apply IH.
Qed.

Lemma has_false (i : jsstring) (st : VectorStore) :
  has i st = false <-> ~ In i (ids st).
Proof.
  unfold has, ids. induction (chunks st) as [|c l IH]; simpl.
  - tauto.
  - rewrite orb_false_iff, IH. unfold has_id.
    split.
    + intros [H1 H2] [E|H]; [|tauto].
      apply str_eqb_eq in E. congruence.
    + intros H. split; [|tauto].
      destruct (str_eqb (id c) i) eqn:E; [|reflexivity].
      apply str_eqb_eq in E. tauto.
Qed.

Lemma splice1_map {A B} (f : A -> B) (k : nat) (l : list A) :
  map f (splice1 k l) = splice1 k (map f l).
Proof.
  revert k. induction l as [|x l IH]; intros [|k]; simpl; try reflexivity.
  now rewrite IH.
Qed.

Lemma splice1_In {A} (k : nat) (l : list A) (x : A) :
  In x (splice1 k l) -> In x l.
Proof.
  revert k. induction l as [|y l IH]; intros [|k]; simpl; auto.
  intros [H|H]; eauto.
Qed.

Lemma splice1_NoDup {A} (k : nat) (l : list A) : NoDup l -> NoDup (splice1 k l).
Proof.
  intros H. revert k. induction H as [|x l Hx H IH]; intros [|k]; simpl;
    try constructor; auto.
  intros Hin. apply Hx. eapply splice1_In; eassumption.
Qed.

Lemma remove_unique (i : jsstring) (st : VectorStore) :
  unique_ids st -> unique_ids (snd (remove i st)).
Proof.
  unfold unique_ids, ids, remove. intros H.
  destruct (findIndex (has_id i) (chunks st)); simpl; [|assumption].
  rewrite splice1_map. now apply splice1_NoDup.
Qed.

Lemma clear_unique (st : VectorStore) : unique_ids (snd (clear st)).
Proof. unfold unique_ids, ids, clear. simpl. constructor. Qed.

Lemma add_unique (c : EmbeddedChunk) (st : VectorStore) :
  unique_ids st -> has (id c) st = false -> unique_ids (snd (add c st)).
Proof.
  unfold unique_ids. intros H Hfresh. apply has_false in Hfresh.
  unfold add. destruct (validateDimensions st (embedding c)); simpl; try assumption.
  unfold ids in *. simpl. rewrite map_app. simpl.
  apply NoDup_app; repeat split; auto.
  - constructor; [simpl; tauto|constructor].
  - intros x Hx [<-|[]]. tauto.
Qed.

(** C4, as the code has it: [add] does not look at the ids, so the index
    keeps its ids distinct only as far as its callers insert fresh ones.
    From the empty index, a run of inserts, removals and clears that
    succeeds and whose inserts are fresh ends in an index without a
    repeated id; [remove] and [clear] never introduce one. *)
Theorem unique_ids_of_fresh_runs (model_ : jsstring) (dimensions_ : Z)
    (ops : list operation) (st : VectorStore) :
  inserts_fresh ops (new model_ dimensions_) = true ->
  run ops (new model_ dimensions_) = Ok st ->
  unique_ids st.
Proof.
  assert (G : forall ops s, unique_ids s -> inserts_fresh ops s = true ->
                            run ops s = Ok st -> unique_ids st).
  { clear ops. induction ops as [|[c|i|] rest IH]; intros s Hs Hf Hr; simpl in *.
    - now injection Hr as <-.
    - apply andb_true_iff in Hf. destruct Hf as [Hc Hf].
      apply negb_true_iff in Hc.
      pose proof (add_unique c Hs Hc) as Hu.
      destruct (add c s) as [[[]|e|] s1]; simpl in *; try discriminate.
      eapply IH; eassumption.
    - eapply IH; [|eassumption|eassumption]. now apply remove_unique.
    - eapply IH; [|eassumption|eassumption]. apply clear_unique. }
  apply G. constructor.
Qed.

Lemma unique_ids_of_fresh_runs_witness :
  unique_ids (snd (add (chunk_a "b") (snd (remove (str "a")
                (snd (add (chunk_a "a") (new (str "m") 2))))))).
Proof.
  apply (@unique_ids_of_fresh_runs (str "m") 2
           [Insert (chunk_a "a"); Remove (str "a"); Insert (chunk_a "b")]);
    reflexivity.
Defined.

(** C4 at a failing run: the same record inserted twice into the empty
    index; both calls succeed and the id is stored twice. *)
Lemma add_accepts_repeated_id :
  run [Insert (chunk_a "a"); Insert (chunk_a "a")] (new (str "m") 2)
  = Ok {| chunks := [chunk_a "a"; chunk_a "a"]; model := str "m"; dimensions := 2 |}
  /\ ~ unique_ids {| chunks := [chunk_a "a"; chunk_a "a"]; model := str "m";
                     dimensions := 2 |}.
Proof.
  split; [reflexivity|].
  unfold unique_ids, ids. simpl. intros H.
  inversion H as [|x l Hx _]. apply Hx. now left.
Qed.

(** ** Search *)

Lemma new_wf (m : jsstring) (d : Z) : store_wf (new m d).
Proof. constructor. Qed.

Lemma add_wf (c : EmbeddedChunk) (st : VectorStore) :
  store_wf st -> store_wf (snd (add c st)).
Proof.
  unfold store_wf, add, validateDimensions. intros H.
  destruct (len (embedding c) =? dimensions st) eqn:E; simpl; [|assumption].
  apply Forall_app. split; [assumption|].
  constructor; [|constructor]. now apply Z.eqb_eq.
Qed.

Lemma cosineSimilarity_returns (a b : list number) :
  len a = len b -> exists s, cosineSimilarity a b = Ok s.
Proof.
  intros H. unfold cosineSimilarity, cosine_over. apply Z.eqb_eq in H. rewrite H.
  cbn [negb].
  destruct (cosine_sums binary64 a b _) as [[d na] nb].
  destruct (num_is_zero binary64 _); eauto.
Qed.

Lemma search_loop_matches (q : list number) (threshold_ : number)
    (filter_ : option (option Metadata -> bool)) (cs : list EmbeddedChunk) :
  Forall (fun c => len (embedding c) = len q) cs ->
  forall acc,
  search_loop q threshold_ filter_ cs acc = Ok (acc ++ matches q threshold_ filter_ cs).
Proof.
  induction 1 as [|c cs Hc _ IH]; intros acc.
  - unfold matches. simpl. now rewrite app_nil_r.
  - unfold matches. cbn [search_loop List.filter]. unfold passes at 1.
    destruct (accepts filter_ (metadata c)) eqn:Ea; cbn [negb andb].
    + destruct (cosineSimilarity_returns q (embedding c) (eq_sym Hc)) as [s Es].
      assert (Hs : score_of q c = s) by (unfold score_of; now rewrite Es).
      rewrite Es, Hs. cbn [bind].
      destruct (PrimFloat.leb threshold_ s); rewrite IH; unfold matches; [|reflexivity].
      cbn [map]. unfold result_of at 2. rewrite Hs. now rewrite <- app_assoc.
    + apply IH.
Qed.

(** *** The sort *)











Lemma slice_prefix {A} (l : list A) (k : Z) :
  0 <= k -> slice l 0 k = firstn (Z.to_nat k) l.
Proof.
  intros Hk. unfold slice, clamp_index.
  pose proof (len_nonneg l) as Hn.
  replace (0 <? 0) with false by reflexivity.
  destruct (k <? 0) eqn:E; [apply Z.ltb_lt in E; lia|].
  rewrite (Z.min_l 0 (len l)) by assumption. simpl skipn. rewrite Z.sub_0_r.
  destruct (Z_le_gt_dec k (len l)) as [H|H].
  - now rewrite Z.min_l.
  - rewrite Z.min_r by lia. unfold len in *.
    rewrite Nat2Z.id, firstn_all. symmetry. apply firstn_all2. lia.
Qed.









(** ** Cosine similarity *)

Section SumsFacts.

Variable num : Type.
Variable A : arithmetic num.

Lemma cosine_sums_split (a : list num) :
  forall b d na nb, length a = length b ->
  cosine_sums A a b (d, na, nb)
  = (sum_products A a b d, sum_products A a a na, sum_products A b b nb).
Proof.
  induction a as [|x a IH]; intros [|y b] d na nb H; simpl in *;
    try reflexivity; try discriminate.
  apply IH. congruence.
Qed.

Lemma cosine_over_formula (a b : list num) :
  len a = len b ->
  cosine_over A a b
  = Ok (if num_is_zero A (num_mul A (magnitude_of A a) (magnitude_of A b))
        then num_zero A
        else num_div A (dot A a b)
               (num_mul A (magnitude_of A a) (magnitude_of A b))).
Proof.
  intros H. unfold cosine_over.
  assert (Hl : length a = length b) by (unfold len in H; lia).
  apply Z.eqb_eq in H. rewrite H. cbn [negb].
  rewrite (cosine_sums_split a b _ _ _ Hl).
  fold (dot A a b). fold (squared_norm A a). fold (squared_norm A b).
  fold (magnitude_of A a). fold (magnitude_of A b).
  now destruct (num_is_zero A _).
Qed.

Lemma cosine_over_mismatch (a b : list num) :
  len a <> len b -> cosine_over A a b = Throw DimensionMismatch.
Proof.
  intros H. unfold cosine_over. apply Z.eqb_neq in H. now rewrite H.
Qed.

End SumsFacts.

(** *** On binary64 *)

Lemma is_zero_SF (x : number) : is_zero x <-> exists s, Prim2SF x = S754_zero s.
Proof.
  unfold is_zero. rewrite eqb_spec.
  change (Prim2SF PrimFloat.zero) with (S754_zero false).
  destruct (Prim2SF x) as [s|s| |s m e]; simpl; split;
    try discriminate; try (intros [s' H]; discriminate); eauto.
  - destruct s; discriminate.
  - destruct s; discriminate.
Qed.

Lemma mul_zero_finite (x y : number) :
  is_zero x -> finite y -> is_zero (PrimFloat.mul x y).
Proof.
  intros Hx Hy. apply is_zero_SF in Hx. destruct Hx as [s Hx].
  apply is_zero_SF. rewrite mul_spec, Hx. unfold finite in Hy.
  destruct (Prim2SF y); try contradiction; simpl; eauto.
Qed.

Lemma mul_finite_zero (x y : number) :
  finite x -> is_zero y -> is_zero (PrimFloat.mul x y).
Proof.
  intros Hx Hy. apply is_zero_SF in Hy. destruct Hy as [s Hy].
  apply is_zero_SF. rewrite mul_spec, Hy. unfold finite in Hx.
  destruct (Prim2SF x); try contradiction; simpl; eauto.
Qed.

Lemma div_zero (x y : number) :
  is_zero x -> not_nan y -> ~ is_zero y -> is_zero (PrimFloat.div x y).
Proof.
  intros Hx Hy Hy0. apply is_zero_SF in Hx. destruct Hx as [s Hx].
  apply is_zero_SF. rewrite div_spec, Hx. unfold not_nan in Hy.
  destruct (Prim2SF y) as [s'|s'| |s' m e] eqn:E; simpl; eauto.
  - exfalso. apply Hy0. apply is_zero_SF. eauto.
  - congruence.
Qed.

(** What the guard [if (magnitude === 0) return 0] achieves.  Vectors of
    different lengths throw the dimension error; vectors of one length
    give a number: 0 when the product of the two magnitudes, as computed,
    is zero, and the quotient of the dot product by that product
    otherwise.  The product is zero when one magnitude is zero and the
    other is finite, and then the answer is exactly 0; a zero dot product
    over a product that is a non-zero number gives a zero. *)
Lemma cosineSimilarity_guard :
  (forall a b, len a <> len b -> cosineSimilarity a b = Throw DimensionMismatch)
  /\ (forall a b, len a = len b ->
        cosineSimilarity a b
        = Ok (if PrimFloat.eqb (PrimFloat.mul (magnitude_of binary64 a)
                                              (magnitude_of binary64 b))
                               PrimFloat.zero
              then PrimFloat.zero
              else PrimFloat.div (dot binary64 a b)
                     (PrimFloat.mul (magnitude_of binary64 a)
                                    (magnitude_of binary64 b))))
  /\ (forall a b, len a = len b ->
        (is_zero (magnitude_of binary64 a) /\ finite (magnitude_of binary64 b))
        \/ (finite (magnitude_of binary64 a) /\ is_zero (magnitude_of binary64 b)) ->
        cosineSimilarity a b = Ok PrimFloat.zero)
  /\ (forall a b, len a = len b ->
        is_zero (dot binary64 a b) ->
        not_nan (PrimFloat.mul (magnitude_of binary64 a) (magnitude_of binary64 b)) ->
        exists s, cosineSimilarity a b = Ok s /\ is_zero s).
Proof.
  split; [|split; [|split]].
  - intros a b H. now apply cosine_over_mismatch.
  - intros a b H. unfold cosineSimilarity. now rewrite cosine_over_formula.
  - intros a b H Hz. unfold cosineSimilarity. rewrite cosine_over_formula by assumption.
    cbn [num_is_zero num_mul num_zero binary64].
    assert (Hm : is_zero (PrimFloat.mul (magnitude_of binary64 a) (magnitude_of binary64 b))).
    { destruct Hz as [[Ha Hb]|[Ha Hb]];
        [now apply mul_zero_finite|now apply mul_finite_zero]. }
    unfold is_zero in Hm. now rewrite Hm.
  - intros a b H Hd Hn. unfold cosineSimilarity. rewrite cosine_over_formula by assumption.
    cbn [num_is_zero num_mul num_zero num_div binary64].
    destruct (PrimFloat.eqb _ PrimFloat.zero) eqn:E.
    + exists PrimFloat.zero. split; reflexivity.
    + eexists. split; [reflexivity|]. apply div_zero; try assumption.
      unfold is_zero. congruence.
Qed.

(** C5 at a failing input: the zero vector against a vector whose squared
    norm overflows.  The magnitudes are 0 and Infinity, their product is
    a NaN, which is not [=== 0]: the guard lets it through and the
    quotient returned is a NaN, where a vector of zero magnitude is to
    score exactly 0. *)
Theorem cosineSimilarity_zero_vector_nan :
  cosineSimilarity [PrimFloat.zero] [0x1p700%float] = Ok PrimFloat.nan
  /\ is_zero (magnitude_of binary64 [PrimFloat.zero]).
Proof. split; vm_compute; reflexivity. Qed.

(** The same loss of range on a vector against itself: a squared norm
    that overflows gives Infinity / Infinity, a NaN, and one that
    underflows gives the magnitude 0 and the answer 0, where a non-zero
    vector against itself is to score 1. *)
Lemma cosineSimilarity_self_out_of_range :
  cosineSimilarity [0x1p600%float] [0x1p600%float] = Ok PrimFloat.nan
  /\ cosineSimilarity [0x1p-600%float] [0x1p-600%float] = Ok PrimFloat.zero
  /\ cosineSimilarity [PrimFloat.one] [PrimFloat.one] = Ok PrimFloat.one.
Proof. repeat split; vm_compute; reflexivity. Qed.

End StoreProperties.

Module CodecProperties.

Import Store Codec StoreSpec CodecSpec StoreProperties.

(** ** Decoding: the checks *)

Lemma getUint32_at (pre : buffer) (b0 b1 b2 b3 : Byte.byte) (rest : buffer) :
  getUint32 (pre ++ b0 :: b1 :: b2 :: b3 :: rest) (len pre) = Ok (be32 b0 b1 b2 b3).
Proof.
  unfold getUint32. pose proof (len_nonneg pre) as Hp. pose proof (len_nonneg rest) as Hr.
  rewrite len_app, !len_cons.
  replace (len pre <? 0) with false by (symmetry; apply Z.ltb_ge; lia).
  replace (len pre + _ <? len pre + 4) with false by (symmetry; apply Z.ltb_ge; lia).
  cbn [orb]. unfold len. rewrite Nat2Z.id.
  rewrite skipn_app, skipn_all, Nat.sub_diag. reflexivity.
Qed.

(** C7: [fromBinary] reads the first four bytes as a big-endian integer
    and throws the format error when they are not the magic constant; with
    the magic in place it reads the next four and throws the version error
    when they are not 1.  [fromSerialized], and [fromJSON] on a text that
    parses, throw the version error when the version field is not 1.  In
    each case the call ends in the error and returns no store. *)
Theorem decode_checks (P : Platform) :
  (forall b0 b1 b2 b3 rest,
     be32 b0 b1 b2 b3 <> MAGIC ->
     fromBinary P (b0 :: b1 :: b2 :: b3 :: rest) = Throw InvalidFormat)
  /\ (forall b0 b1 b2 b3 b4 b5 b6 b7 rest,
     be32 b0 b1 b2 b3 = MAGIC ->
     be32 b4 b5 b6 b7 <> INDEX_VERSION ->
     fromBinary P (b0 :: b1 :: b2 :: b3 :: b4 :: b5 :: b6 :: b7 :: rest)
     = Throw UnsupportedVersion)
  /\ (forall data, version data <> INDEX_VERSION ->
     fromSerialized data = Throw UnsupportedVersion)
  /\ (forall json data,
     JSON_parse_index P json = Ok data -> version data <> INDEX_VERSION ->
     fromJSON P json = Throw UnsupportedVersion).
Proof.
  split; [|split; [|split]].
  - intros b0 b1 b2 b3 rest H. unfold fromBinary.
    change (getUint32 (b0 :: b1 :: b2 :: b3 :: rest) 0)
      with (getUint32 ([] ++ b0 :: b1 :: b2 :: b3 :: rest) (len (@nil Byte.byte))).
    rewrite getUint32_at. cbn [bind].
    apply Z.eqb_neq in H. now rewrite H.
  - intros b0 b1 b2 b3 b4 b5 b6 b7 rest Hm Hv. unfold fromBinary.
    set (buf := b0 :: b1 :: b2 :: b3 :: b4 :: b5 :: b6 :: b7 :: rest).
    change (getUint32 buf 0)
      with (getUint32 ([] ++ b0 :: b1 :: b2 :: b3 :: b4 :: b5 :: b6 :: b7 :: rest)
              (len (@nil Byte.byte))).
    rewrite getUint32_at. cbn [bind]. rewrite Hm, Z.eqb_refl. cbn [negb].
    change (getUint32 buf 4)
      with (getUint32 ([b0; b1; b2; b3] ++ b4 :: b5 :: b6 :: b7 :: rest)
              (len [b0; b1; b2; b3])).
    rewrite getUint32_at. cbn [bind].
    apply Z.eqb_neq in Hv. now rewrite Hv.
  - intros data H. unfold fromSerialized. apply Z.eqb_neq in H. now rewrite H.
  - intros json data Hp H. unfold fromJSON. rewrite Hp. cbn [bind].
    unfold fromSerialized. apply Z.eqb_neq in H. now rewrite H.
Qed.

(** ** Encoding and decoding *)

Lemma Z_of_byte_of_Z (z : Z) : Z_of_byte (byte_of_Z z) = z mod 256.
Proof.
  unfold Z_of_byte, byte_of_Z.
  pose proof (Z.mod_pos_bound z 256 ltac:(lia)) as Hb.
  destruct (Byte.of_N (Z.to_N (z mod 256))) as [b|] eqn:E.
  - apply Byte.to_of_N in E. rewrite E. apply Z2N.id. lia.
  - apply Byte.of_N_None_iff in E. lia.
Qed.

Lemma be32_uint32_be (v : Z) :
  be32 (byte_of_Z (v / 16777216)) (byte_of_Z (v / 65536))
       (byte_of_Z (v / 256)) (byte_of_Z v)
  = v mod 4294967296.
Proof.
  unfold be32. rewrite !Z_of_byte_of_Z.
  Z.to_euclidean_division_equations. lia.
Qed.

Lemma f32_of_bits_mod (bits : Z) :
  f32_of_bits (bits mod 4294967296) = f32_of_bits bits.
Proof.
  unfold f32_of_bits.
  replace ((bits mod 4294967296) mod 4294967296) with (bits mod 4294967296)
    by (Z.to_euclidean_division_equations; lia).
  replace ((bits mod 4294967296 / 8388608) mod 256) with ((bits / 8388608) mod 256)
    by (Z.to_euclidean_division_equations; lia).
  replace ((bits mod 4294967296) mod 8388608) with (bits mod 8388608)
    by (Z.to_euclidean_division_equations; lia).
  reflexivity.
Qed.

Lemma f32_of_bytes_f32_bytes (bits : Z) :
  f32_of_bytes (byte_of_Z bits) (byte_of_Z (bits / 256))
               (byte_of_Z (bits / 65536)) (byte_of_Z (bits / 16777216))
  = f32_of_bits bits.
Proof.
  unfold f32_of_bytes. rewrite !Z_of_byte_of_Z.
  rewrite <- (f32_of_bits_mod bits). f_equal.
  Z.to_euclidean_division_equations. lia.
Qed.

Lemma read_f32s_fill (vals : list number) (rest : buffer) :
  read_f32s (length vals) (flat_map f32_bytes vals ++ rest) = map fround vals.
Proof.
  induction vals as [|x vals IH]; [reflexivity|].
  cbn [length flat_map f32_bytes app read_f32s map].
  rewrite f32_of_bytes_f32_bytes. fold (fround x). f_equal. exact IH.
Qed.

Lemma slice_app_skip {A} (a b : list A) (x y : Z) :
  0 <= x -> 0 <= y -> slice (a ++ b) (len a + x) (len a + y) = slice b x y.
Proof.
  intros Hx Hy. unfold slice, clamp_index. rewrite len_app.
  pose proof (len_nonneg a) as Ha. pose proof (len_nonneg b) as Hb.
  replace (len a + x <? 0) with false by (symmetry; apply Z.ltb_ge; lia).
  replace (len a + y <? 0) with false by (symmetry; apply Z.ltb_ge; lia).
  replace (x <? 0) with false by (symmetry; apply Z.ltb_ge; lia).
  replace (y <? 0) with false by (symmetry; apply Z.ltb_ge; lia).
  replace (Z.min (len a + x) (len a + len b)) with (len a + Z.min x (len b)) by lia.
  replace (Z.min (len a + y) (len a + len b)) with (len a + Z.min y (len b)) by lia.
  replace (len a + Z.min y (len b) - (len a + Z.min x (len b)))
    with (Z.min y (len b) - Z.min x (len b)) by lia.
  f_equal. rewrite skipn_app.
  replace (Z.to_nat (len a + Z.min x (len b)))
    with (length a + Z.to_nat (Z.min x (len b)))%nat by (unfold len in *; lia).
  rewrite skipn_all2 by lia. simpl. f_equal. lia.
Qed.

Lemma slice_app_front {A} (a b : list A) : slice (a ++ b) 0 (len a) = a.
Proof.
  rewrite slice_prefix by apply len_nonneg. unfold len. rewrite Nat2Z.id.
  rewrite firstn_app, firstn_all, Nat.sub_diag. simpl. apply app_nil_r.
Qed.

Lemma map_flat_map {A B C} (f : B -> C) (g : A -> list B) (l : list A) :
  map f (flat_map g l) = flat_map (fun x => map f (g x)) l.
Proof.
  induction l as [|x l IH]; simpl; [reflexivity|]. now rewrite map_app, IH.
Qed.

Lemma slice_block (d : Z) (cs : list EmbeddedChunk) :
  Forall (fun c => len (embedding c) = d) cs ->
  forall i c, nth_error cs i = Some c ->
  slice (flat_map (fun c => map fround (embedding c)) cs)
        (Z.of_nat i * d) ((Z.of_nat i + 1) * d)
  = map fround (embedding c).
Proof.
  induction 1 as [|c0 cs H0 _ IH]; intros [|i] c Hn; simpl in Hn; try discriminate.
  - injection Hn as <-. cbn [flat_map].
    replace (Z.of_nat 0 * d) with 0 by lia.
    replace ((Z.of_nat 0 + 1) * d) with (len (map fround (embedding c0)))
      by (unfold len in *; rewrite length_map; lia).
    apply slice_app_front.
  - cbn [flat_map].
    assert (Hd : len (map fround (embedding c0)) = d)
      by (unfold len in *; now rewrite length_map).
    assert (Hpos : 0 <= d) by (rewrite <- Hd; apply len_nonneg).
    replace (Z.of_nat (S i) * d) with (len (map fround (embedding c0)) + Z.of_nat i * d)
      by (rewrite Hd; lia).
    replace ((Z.of_nat (S i) + 1) * d)
      with (len (map fround (embedding c0)) + (Z.of_nat i + 1) * d)
      by (rewrite Hd; lia).
    rewrite slice_app_skip by nia. now apply IH.
Qed.

Lemma skipn_nth_error {A} (l : list A) (i : nat) (x : A) :
  nth_error l i = Some x -> skipn i l = x :: skipn (S i) l.
Proof.
  revert i. induction l as [|y l IH]; intros [|i] H; simpl in *; try discriminate.
  - now injection H as <-.
  - now apply IH.
Qed.

Lemma binary_meta_dimensions (st : VectorStore) :
  bm_dimensions (binary_meta st) = dimensions st.
Proof. reflexivity. Qed.

Lemma binary_meta_chunkMeta (st : VectorStore) :
  chunkMeta (binary_meta st) = map strip (chunks st).
Proof. reflexivity. Qed.

Lemma binary_meta_model (st : VectorStore) : bm_model (binary_meta st) = model st.
Proof. reflexivity. Qed.

Lemma reconstruct_all (st : VectorStore) :
  store_wf st ->
  forall k i, (i + k = length (chunks st))%nat ->
  reconstruct k (Z.of_nat i) (binary_meta st)
    (flat_map (fun c => map fround (embedding c)) (chunks st))
  = Ok (map rounded (skipn i (chunks st))).
Proof.
  intros Hwf. induction k as [|k IH]; intros i Hi.
  - rewrite skipn_all2 by lia. reflexivity.
  - assert (Hlt : (i < length (chunks st))%nat) by lia.
    destruct (nth_error (chunks st) i) as [c|] eqn:Ec;
      [|apply nth_error_None in Ec; lia].
    cbn [reconstruct]. rewrite Nat2Z.id.
    rewrite binary_meta_chunkMeta, binary_meta_dimensions.
    rewrite nth_error_map, Ec. cbn [option_map].
    rewrite (slice_block Hwf i Ec).
    replace (Z.of_nat i + 1) with (Z.of_nat (S i)) by lia.
    rewrite IH by lia. cbn [bind].
    rewrite (skipn_nth_error _ _ Ec). reflexivity.
Qed.

Lemma addAll_appends (cs : list EmbeddedChunk) :
  forall st, Forall (fun c => len (embedding c) = dimensions st) cs ->
  addAll cs st = (Ok tt, {| chunks := chunks st ++ cs; model := model st;
                            dimensions := dimensions st |}).
Proof.
  induction cs as [|c cs IH]; intros st H.
  - simpl. rewrite app_nil_r. now destruct st.
  - apply Forall_cons_iff in H. destruct H as [Hc H].
    cbn [addAll]. unfold add, validateDimensions.
    apply Z.eqb_eq in Hc. rewrite Hc. cbn [negb].
    rewrite IH by exact H. cbn [chunks model dimensions].
    now rewrite <- app_assoc.
Qed.

Section RoundTrip.

Variable P : Platform.

Lemma blocks_count (d : Z) (cs : list EmbeddedChunk) :
  Forall (fun c => len (embedding c) = d) cs ->
  0 <= len cs * d /\ len (flat_map embedding cs) = len cs * d.
Proof.
  induction 1 as [|c cs Hc _ IH]; cbn [flat_map].
  - unfold len. simpl. lia.
  - rewrite len_app, !len_cons. destruct IH as [IH1 IH2].
    pose proof (len_nonneg (embedding c)). pose proof (len_nonneg cs). nia.
Qed.

Lemma wf_count (st : VectorStore) :
  store_wf st -> 0 <= len (chunks st) * dimensions st
  /\ len (flat_map embedding (chunks st)) = len (chunks st) * dimensions st.
Proof. apply blocks_count. Qed.

Lemma padding_aligns (u : Z) : (u + padding_for u) mod 4 = 0 /\ 0 <= padding_for u.
Proof. unfold padding_for. Z.to_euclidean_division_equations. lia. Qed.

Lemma fromBinary_toBinary (st : VectorStore) :
  store_wf st ->
  len (meta_bytes P st) < 4294967296 -> len (chunks st) < 4294967296 ->
  reads_back_meta P st ->
  exists buf, toBinary P st = Ok buf /\ fromBinary P buf = Ok (rounded_store st).
Proof.
  intros Hwf HJ Hn Hread.
  destruct (wf_count Hwf) as [Hcount Hvals].
  pose proof (len_nonneg (meta_bytes P st)) as HJ0.
  pose proof (len_nonneg (chunks st)) as Hn0.
  destruct (padding_aligns (16 + len (meta_bytes P st))) as [Halign Hpad].
  unfold toBinary. fold (meta_bytes P st).
  set (J := meta_bytes P st) in *.
  set (pad := padding_for (16 + len J)) in *.
  set (count := len (chunks st) * dimensions st) in *.
  replace (16 + len J + pad + count * 4 <? 0) with false
    by (symmetry; apply Z.ltb_ge; lia).
  replace (count <? 0) with false by (symmetry; apply Z.ltb_ge; lia).
  cbn [orb].
  eexists. split; [reflexivity|].
  set (vec := Float32Array_fill (Z.to_nat count) (flat_map embedding (chunks st))).
  set (zeros := repeat Byte.x00 (Z.to_nat pad)).
  assert (Hvec : vec = flat_map f32_bytes (flat_map embedding (chunks st))).
  { unfold vec, Float32Array_fill. f_equal.
    rewrite firstn_app.
    replace (Z.to_nat count) with (length (flat_map embedding (chunks st)))
      by (unfold len in Hvals; lia).
    rewrite firstn_all, Nat.sub_diag. simpl. apply app_nil_r. }
  cbn [uint32_be app].
  match goal with |- fromBinary P (?a0 :: ?a1 :: ?a2 :: ?a3 :: ?a4 :: ?a5 :: ?a6 :: ?a7
                      :: ?a8 :: ?a9 :: ?a10 :: ?a11 :: ?a12 :: ?a13 :: ?a14 :: ?a15 :: ?rest) = _ =>
    set (hdr := [a0; a1; a2; a3; a4; a5; a6; a7; a8; a9; a10; a11; a12; a13; a14; a15]);
    change (fromBinary P (hdr ++ rest) = Ok (rounded_store st))
  end.
  assert (Hhdr : len hdr = 16) by reflexivity.
  unfold fromBinary.
  (* the header *)
  assert (G0 : getUint32 (hdr ++ J ++ zeros ++ vec) 0 = Ok MAGIC).
  { subst hdr. cbn [app].
    match goal with |- getUint32 (?a :: ?b :: ?c :: ?d :: ?r) 0 = _ =>
      change (getUint32 ([] ++ a :: b :: c :: d :: r) (len (@nil Byte.byte)) = Ok MAGIC) end.
    rewrite getUint32_at, be32_uint32_be. reflexivity. }
  assert (G4 : getUint32 (hdr ++ J ++ zeros ++ vec) 4 = Ok INDEX_VERSION).
  { subst hdr. cbn [app].
    match goal with |- getUint32 (?a0 :: ?a1 :: ?a2 :: ?a3 :: ?a :: ?b :: ?c :: ?d :: ?r) 4 = _ =>
      change (getUint32 ([a0; a1; a2; a3] ++ a :: b :: c :: d :: r)
                (len [a0; a1; a2; a3]) = Ok INDEX_VERSION) end.
    rewrite getUint32_at, be32_uint32_be. reflexivity. }
  assert (G8 : getUint32 (hdr ++ J ++ zeros ++ vec) 8 = Ok (len J)).
  { subst hdr. cbn [app].
    match goal with |- getUint32 (?a0 :: ?a1 :: ?a2 :: ?a3 :: ?a4 :: ?a5 :: ?a6 :: ?a7
                          :: ?a :: ?b :: ?c :: ?d :: ?r) 8 = _ =>
      change (getUint32 ([a0; a1; a2; a3; a4; a5; a6; a7] ++ a :: b :: c :: d :: r)
                (len [a0; a1; a2; a3; a4; a5; a6; a7]) = Ok (len J)) end.
    rewrite getUint32_at, be32_uint32_be. f_equal. apply Z.mod_small. lia. }
  assert (G12 : getUint32 (hdr ++ J ++ zeros ++ vec) 12 = Ok (len (chunks st))).
  { subst hdr. cbn [app].
    match goal with |- getUint32 (?a0 :: ?a1 :: ?a2 :: ?a3 :: ?a4 :: ?a5 :: ?a6 :: ?a7
                          :: ?a8 :: ?a9 :: ?a10 :: ?a11
                          :: ?a :: ?b :: ?c :: ?d :: ?r) 12 = _ =>
      change (getUint32 ([a0; a1; a2; a3; a4; a5; a6; a7; a8; a9; a10; a11]
                          ++ a :: b :: c :: d :: r)
                (len [a0; a1; a2; a3; a4; a5; a6; a7; a8; a9; a10; a11])
              = Ok (len (chunks st))) end.
    rewrite getUint32_at, be32_uint32_be. f_equal. apply Z.mod_small. lia. }
  rewrite G0. cbn [bind]. rewrite Z.eqb_refl. cbn [negb].
  rewrite G4. cbn [bind]. rewrite Z.eqb_refl. cbn [negb].
  rewrite G8, G12. cbn [bind].
  (* the metadata block *)
  replace (slice (hdr ++ J ++ zeros ++ vec) 16 (16 + len J)) with J.
  2:{ rewrite <- Hhdr. replace (len hdr) with (len hdr + 0) at 1 by lia.
      rewrite slice_app_skip by lia. symmetry. apply slice_app_front. }
  unfold reads_back_meta in Hread. fold J in Hread. rewrite Hread. cbn [bind].
  (* the vector block *)
  rewrite binary_meta_dimensions, binary_meta_model. fold pad. fold count.
  unfold Float32Array_view.
  assert (Hzeros : len zeros = pad).
  { unfold zeros, len. rewrite repeat_length. lia. }
  assert (Hlenvec : len vec = count * 4).
  { rewrite Hvec. clear - Hvals. unfold len in *.
    assert (E : forall l, length (flat_map f32_bytes l) = (4 * length l)%nat).
    { induction l as [|x l IH]; simpl; lia. }
    rewrite E. lia. }
  rewrite !len_app, Hhdr, Hzeros, Hlenvec.
  replace (count <? 0) with false by (symmetry; apply Z.ltb_ge; lia).
  rewrite Halign. cbn [Z.eqb negb orb].
  replace (16 + (len J + (pad + count * 4)) <? 16 + len J + pad + count * 4)
    with false by (symmetry; apply Z.ltb_ge; lia).
  cbn [bind].
  replace (skipn (Z.to_nat (16 + len J + pad)) (hdr ++ J ++ zeros ++ vec)) with vec.
  2:{ rewrite !app_assoc. rewrite skipn_app.
      replace (Z.to_nat (16 + len J + pad)) with (length ((hdr ++ J) ++ zeros))
        by (rewrite !length_app; unfold len in *; lia).
      rewrite skipn_all, Nat.sub_diag. reflexivity. }
  rewrite Hvec.
  replace (Z.to_nat count) with (length (flat_map embedding (chunks st)))
    by (unfold len in Hvals; lia).
  rewrite <- (app_nil_r (flat_map f32_bytes _)), read_f32s_fill, map_flat_map.
  replace (Z.to_nat (len (chunks st))) with (length (chunks st))
    by (unfold len; lia).
  change (reconstruct (length (chunks st)) 0)
    with (reconstruct (length (chunks st)) (Z.of_nat 0)).
  rewrite (@reconstruct_all st Hwf (length (chunks st)) 0%nat eq_refl). cbn [bind skipn].
  rewrite addAll_appends.
  - reflexivity.
  - cbn [dimensions new]. apply Forall_forall. intros c Hc.
    apply in_map_iff in Hc. destruct Hc as [c0 [<- Hc0]].
    unfold rounded. cbn [embedding]. unfold len. rewrite length_map.
    exact (proj1 (Forall_forall _ _) Hwf c0 Hc0).
Qed.

Lemma fromJSON_toJSON (st : VectorStore) :
  store_wf st -> reads_back_index P st -> fromJSON P (toJSON P st) = Ok st.
Proof.
  intros Hwf Hread. unfold fromJSON. rewrite Hread. cbn [bind].
  unfold fromSerialized. cbn [serialize version si_chunks si_model si_dimensions].
  rewrite Z.eqb_refl. cbn [negb].
  rewrite addAll_appends by exact Hwf. now destruct st.
Qed.

End RoundTrip.

Lemma rounded_store_exact (st : VectorStore) : f32_exact st -> rounded_store st = st.
Proof.
  unfold f32_exact, rounded_store. intros H. destruct st as [cs m d]. cbn in *.
  f_equal. induction H as [|c cs Hc _ IH]; cbn [map]; [reflexivity|].
  rewrite IH. f_equal. destruct c as [i t md e]. unfold rounded. cbn in *. f_equal.
  induction Hc as [|x e Hx _ IHe]; cbn [map]; [reflexivity|]. now rewrite Hx, IHe.
Qed.

(** C2, as the code has it.  On a store whose embeddings have the
    declared length: the textual round trip gives the store back whenever
    the text layer reads back the object it wrote; the binary round trip,
    under the same proviso for its metadata block and within the 32-bit
    fields of the header, gives back the model name, the dimensions and
    the records in order, ids, content and metadata as they were and every
    embedding entry rounded to binary32, so the store itself when its
    entries are binary32 numbers. *)
Theorem decode_encode (P : Platform) (st : VectorStore) :
  store_wf st ->
  (reads_back_index P st -> fromJSON P (toJSON P st) = Ok st)
  /\ (reads_back_meta P st ->
      len (meta_bytes P st) < 4294967296 -> len (chunks st) < 4294967296 ->
      exists buf, toBinary P st = Ok buf
                  /\ fromBinary P buf = Ok (rounded_store st))
  /\ (model (rounded_store st) = model st
      /\ dimensions (rounded_store st) = dimensions st
      /\ map strip (chunks (rounded_store st)) = map strip (chunks st)
      /\ map embedding (chunks (rounded_store st))
         = map (fun c => map fround (embedding c)) (chunks st))
  /\ (f32_exact st -> rounded_store st = st).
Proof.
  intros Hwf. split; [|split; [|split]].
  - now apply fromJSON_toJSON.
  - intros Hread HJ Hn. now apply fromBinary_toBinary.
  - unfold rounded_store. cbn [model dimensions chunks].
    rewrite !map_map. repeat split.
  - apply rounded_store_exact.
Qed.

Lemma decode_encode_witness :
  fromJSON MiniJson.platform (toJSON MiniJson.platform test_store) = Ok test_store
  /\ exists buf, toBinary MiniJson.platform test_store = Ok buf
                 /\ fromBinary MiniJson.platform buf = Ok test_store.
Proof.
  assert (Hwf : store_wf test_store) by (repeat constructor).
  destruct (@decode_encode MiniJson.platform test_store Hwf) as [HJ [HB [_ HE]]].
  split.
  - apply HJ. vm_compute. reflexivity.
  - destruct HB as [buf [E1 E2]].
    + vm_compute. reflexivity.
    + vm_compute. reflexivity.
    + vm_compute. reflexivity.
    + exists buf. split; [exact E1|].
      rewrite E2, HE; [reflexivity|repeat constructor].
Defined.

Lemma binary_round_trip_rounds :
  store_wf tenth
  /\ reads_back_meta MiniJson.platform tenth
  /\ forall P, reads_back_meta P tenth -> len (meta_bytes P tenth) < 4294967296 ->
       exists buf restored,
         toBinary P tenth = Ok buf
         /\ fromBinary P buf = Ok restored
         /\ map embedding (chunks restored) = [[0x1.99999ap-4%float]]
         /\ map embedding (chunks tenth) <> map embedding (chunks restored).
Proof.
  assert (Hwf : store_wf tenth) by (repeat constructor).
  split; [exact Hwf|]. split; [vm_compute; reflexivity|].
  intros P Hread HJ.
  destruct (@fromBinary_toBinary P tenth Hwf HJ) as [buf [E1 E2]];
    [reflexivity|exact Hread|].
  exists buf, (rounded_store tenth).
  split; [exact E1|]. split; [exact E2|]. split.
  - vm_compute. reflexivity.
  - intros H.
    pose proof (f_equal (fun l => PrimFloat.ltb 0x1.999999999999ap-4%float
                                    (hd PrimFloat.zero (hd [] l))) H) as Hlt.
    vm_compute in Hlt. discriminate.
Qed.

End CodecProperties.

(** * Further properties *)

(** ** The store: lookups, removal, bulk insertion *)

Module StoreLawsProperties.

Import Store F64 StoreSpec StoreProperties StoreLaws.

Lemma addAll_prefix (cs : list EmbeddedChunk) :
  forall st,
  addAll cs st
  = (if forallb (fitting (dimensions st)) cs then Ok tt else Throw DimensionMismatch,
     {| chunks := chunks st ++ fitting_prefix (dimensions st) cs;
        model := model st; dimensions := dimensions st |}).
Proof.
  unfold fitting_prefix.
  induction cs as [|c cs IH]; intros st.
  - simpl. rewrite app_nil_r. now destruct st.
  - cbn [addAll forallb count_while]. unfold add, validateDimensions.
    unfold fitting at 1 3. 
    destruct (len (embedding c) =? dimensions st) eqn:E; cbn [negb andb].
    + rewrite IH. cbn [chunks model dimensions firstn].
      now rewrite <- app_assoc.
    + simpl. rewrite app_nil_r. now destruct st.
Qed.

Lemma fitting_prefix_all (d : Z) (cs : list EmbeddedChunk) :
  forallb (fitting d) cs = true -> fitting_prefix d cs = cs.
Proof.
  unfold fitting_prefix. induction cs as [|c cs IH]; cbn [forallb count_while];
    intros H; [reflexivity|].
  apply andb_true_iff in H. destruct H as [Hc H]. rewrite Hc.
  cbn [firstn]. now rewrite IH.
Qed.

Lemma fitting_prefix_stops (d : Z) (cs : list EmbeddedChunk) :
  forallb (fitting d) cs = false ->
  exists bad rest,
    cs = fitting_prefix d cs ++ bad :: rest /\ len (embedding bad) <> d.
Proof.
  unfold fitting_prefix. induction cs as [|c cs IH]; cbn [forallb count_while];
    intros H; [discriminate|].
  destruct (fitting d c) eqn:Hc; cbn [andb] in H.
  - destruct (IH H) as [bad [rest [E Hbad]]].
    exists bad, rest. cbn [firstn app]. split; [now rewrite <- E|exact Hbad].
  - exists c, cs. split; [reflexivity|]. unfold fitting in Hc. now apply Z.eqb_neq.
Qed.

(** X1: [addAll] inserts record by record and stops at the first one
    whose embedding has not the declared length: the records in front of
    it are in the store when the error is thrown, it and the ones behind it
    are not; when every record fits, all are appended in order. *)
Theorem addAll_stops_at_first_mismatch (cs : list EmbeddedChunk) (st : VectorStore) :
  addAll cs st
  = (if forallb (fitting (dimensions st)) cs then Ok tt else Throw DimensionMismatch,
     {| chunks := chunks st ++ fitting_prefix (dimensions st) cs;
        model := model st; dimensions := dimensions st |})
  /\ (forallb (fitting (dimensions st)) cs = true ->
      fitting_prefix (dimensions st) cs = cs)
  /\ (forallb (fitting (dimensions st)) cs = false ->
      exists bad rest,
        cs = fitting_prefix (dimensions st) cs ++ bad :: rest
        /\ len (embedding bad) <> dimensions st).
Proof.
  split; [apply addAll_prefix|]. split.
  - apply fitting_prefix_all.
  - apply fitting_prefix_stops.
Qed.

(** *** Lookups *)

Lemma has_id_true (i : jsstring) (c : EmbeddedChunk) : has_id i c = true <-> id c = i.
Proof. unfold has_id. apply str_eqb_eq. Qed.

Lemma has_id_false (i : jsstring) (c : EmbeddedChunk) : has_id i c = false <-> id c <> i.
Proof.
  rewrite <- has_id_true. destruct (has_id i c); split; congruence.
Qed.

Lemma find_first_with_id (i : jsstring) (l : list EmbeddedChunk) :
  match find (has_id i) l with
  | Some c => first_with_id i c l
  | None => Forall (fun x => id x <> i) l
  end.
Proof.
  induction l as [|x l IH]; simpl; [constructor|].
  destruct (has_id i x) eqn:E.
  - exists [], l. repeat split; [now apply has_id_true|constructor].
  - apply has_id_false in E.
    destruct (find (has_id i) l) as [c|].
    + destruct IH as [before [after [-> [Hc Hb]]]].
      exists (x :: before), after. repeat split; [exact Hc|now constructor].
    + now constructor.
Qed.

Lemma first_with_id_find (i : jsstring) (c : EmbeddedChunk) (l : list EmbeddedChunk) :
  first_with_id i c l -> find (has_id i) l = Some c.
Proof.
  intros [before [after [-> [Hc Hb]]]].
  induction Hb as [|x before Hx _ IH]; simpl.
  - apply has_id_true in Hc. now rewrite Hc.
  - apply has_id_false in Hx. now rewrite Hx.
Qed.

Lemma find_none_existsb {A} (p : A -> bool) (l : list A) :
  find p l = None <-> existsb p l = false.
Proof.
  induction l as [|x l IH]; simpl; [tauto|].
  destruct (p x); simpl; [split; discriminate|exact IH].
Qed.

(** X2: [get] answers the first record stored under the id, in insertion
    order, and [undefined] exactly when [has] answers [false], which is
    when no stored record has the id. *)
Theorem get_returns_first_with_id (i : jsstring) (st : VectorStore) :
  (forall c, get i st = Some c <-> first_with_id i c (chunks st))
  /\ (get i st = None <-> has i st = false)
  /\ (has i st = false <-> ~ In i (ids st)).
Proof.
  split; [|split].
  - intros c. unfold get. split.
    + intros H. pose proof (find_first_with_id i (chunks st)) as F.
      now rewrite H in F.
    + apply first_with_id_find.
  - unfold get, has. apply find_none_existsb.
  - apply has_false.
Qed.

Lemma find_app_first {A} (p : A -> bool) (l : list A) (x : A) :
  find p (l ++ [x])
  = match find p l with
    | Some y => Some y
    | None => if p x then Some x else None
    end.
Proof.
  induction l as [|y l IH]; simpl; [reflexivity|].
  destruct (p y); [reflexivity|exact IH].
Qed.

(** X3: a lookup after an insertion.  Once [add] has accepted a record,
    [get] under any id that was stored before answers the record it
    answered before; the new record is what [get] answers under its id
    only when that id was not stored yet, so a record added under an id
    already in use is in the store and out of reach of [get]. *)
Theorem get_after_add (c : EmbeddedChunk) (st : VectorStore) (i : jsstring) :
  len (embedding c) = dimensions st ->
  get i (snd (add c st))
  = match get i st with
    | Some old => Some old
    | None => if str_eqb (id c) i then Some c else None
    end.
Proof.
  intros H. unfold add, validateDimensions. apply Z.eqb_eq in H. rewrite H.
  cbn [negb snd]. unfold get. cbn [chunks].
  change (str_eqb (id c) i) with (has_id i c). apply find_app_first.
Qed.

Lemma get_after_add_witness :
  get (str "a") (snd (add (chunk_a "a") two_dims)) = Some (chunk_a "a")
  /\ get (str "a") (snd (add (chunk_b "a") (snd (add (chunk_a "a") two_dims))))
     = Some (chunk_a "a").
Proof.
  split.
  - rewrite (@get_after_add (chunk_a "a") two_dims (str "a")); reflexivity.
  - rewrite (@get_after_add (chunk_b "a") (snd (add (chunk_a "a") two_dims)) (str "a"));
      reflexivity.
Defined.

(** *** Removal *)




(** X5: inserting a record under an id that is not stored and removing
    that id again gives the store back as it was. *)
Theorem remove_after_add_restores (c : EmbeddedChunk) (st : VectorStore) :
  len (embedding c) = dimensions st -> has (id c) st = false ->
  remove (id c) (snd (add c st)) = (true, st).
Proof.
  intros H Hfresh. unfold add, validateDimensions. apply Z.eqb_eq in H. rewrite H.
  cbn [negb snd]. unfold remove. cbn [chunks model dimensions].
  unfold has in Hfresh.
  assert (G : forall l, existsb (has_id (id c)) l = false ->
            findIndex (has_id (id c)) (l ++ [c]) = Some (length l)
            /\ splice1 (length l) (l ++ [c]) = l).
  { induction l as [|x l IH]; simpl; intros Hl.
    - assert (E : has_id (id c) c = true) by now apply has_id_true.
      now rewrite E.
    - apply orb_false_iff in Hl. destruct Hl as [Hx Hl].
      destruct (IH Hl) as [E1 E2]. now rewrite Hx, E1, E2. }
  destruct (G _ Hfresh) as [E1 E2]. rewrite E1, E2. now destruct st.
Qed.

Lemma remove_after_add_restores_witness :
  remove (str "b") (snd (add (chunk_b "b") (snd (add (chunk_a "a") two_dims))))
  = (true, snd (add (chunk_a "a") two_dims)).
Proof.
  apply (@remove_after_add_restores (chunk_b "b") (snd (add (chunk_a "a") two_dims)));
    reflexivity.
Defined.

(** *** Stores built through the interface *)

Lemma remove_wf (i : jsstring) (st : VectorStore) :
  store_wf st -> store_wf (snd (remove i st)).
Proof.
  unfold store_wf, remove. intros H.
  destruct (findIndex (has_id i) (chunks st)); cbn [snd chunks dimensions]; [|exact H].
  apply Forall_forall. intros x Hx. apply splice1_In in Hx.
  exact (proj1 (Forall_forall _ _) H x Hx).
Qed.

Lemma add_keeps_identity (c : EmbeddedChunk) (st : VectorStore) :
  model (snd (add c st)) = model st /\ dimensions (snd (add c st)) = dimensions st.
Proof.
  unfold add. destruct (validateDimensions st (embedding c)); now split.
Qed.

Lemma run_invariant (ops : list operation) :
  forall s st, run ops s = Ok st -> store_wf s ->
  store_wf st /\ model st = model s /\ dimensions st = dimensions s.
Proof.
  induction ops as [|[c|i|] rest IH]; intros s st Hr Hs; simpl in Hr.
  - injection Hr as <-. auto.
  - pose proof (add_wf c Hs) as Hw. pose proof (add_keeps_identity c s) as [Hm Hd].
    destruct (add c s) as [[[]|e|] s1]; try discriminate. cbn [snd] in *.
    destruct (IH _ _ Hr Hw) as [H1 [H2 H3]]. repeat split; congruence.
  - pose proof (remove_wf i Hs) as Hw.
    destruct (IH _ _ Hr Hw) as [H1 [H2 H3]]. split; [exact H1|].
    unfold remove in H2, H3.
    destruct (findIndex (has_id i) (chunks s)); cbn in H2, H3; auto.
  - assert (Hw : store_wf (snd (clear s))) by constructor.
    destruct (IH _ _ Hr Hw) as [H1 [H2 H3]]. auto.
Qed.

Lemma search_returns (st : VectorStore) (q : list number) (o : SearchOptions) :
  store_wf st -> len q = dimensions st -> exists results, search st q o = Ok results.
Proof.
  intros Hwf Hq. unfold search, validateDimensions.
  apply Z.eqb_eq in Hq. rewrite Hq. cbn [negb bind].
  rewrite (@search_loop_matches q (default PrimFloat.zero (threshold o)) (filter o)
             (chunks st)).
  - cbn [bind]. eauto.
  - eapply Forall_impl; [|exact Hwf]. cbn. intros c Hc.
    apply Z.eqb_eq in Hq. congruence.
Qed.

(** X6: a store that [new], [add], [remove] and [clear] built keeps the
    model name and the dimensions it was created with and holds only
    embeddings of that length.  On such a store [search] returns for every
    query of the declared length, whatever the options, and throws the
    dimension error for every other query. *)
Theorem built_store_search_returns (model_ : jsstring) (dimensions_ : Z)
    (ops : list operation) (st : VectorStore) (q : list number) (o : SearchOptions) :
  run ops (new model_ dimensions_) = Ok st ->
  (model st = model_ /\ dimensions st = dimensions_ /\ store_wf st)
  /\ (len q = dimensions_ -> exists results, search st q o = Ok results)
  /\ (len q <> dimensions_ -> search st q o = Throw DimensionMismatch).
Proof.
  intros Hr.
  destruct (run_invariant ops Hr (new_wf model_ dimensions_)) as [Hwf [Hm Hd]].
  cbn [model dimensions new] in Hm, Hd.
  split; [auto|]. split; intros Hq.
  - apply search_returns; congruence.
  - unfold search, validateDimensions. rewrite Hd.
    apply Z.eqb_neq in Hq. now rewrite Hq.
Qed.

Lemma built_store_search_returns_witness :
  exists results,
    search (snd (add (chunk_b "b") (snd (add (chunk_a "a") two_dims))))
           [PrimFloat.one; PrimFloat.one]
           {| topK := Some (-3); threshold := Some PrimFloat.nan; filter := None |}
    = Ok results.
Proof.
  apply (@built_store_search_returns (str "m") 2
           [Insert (chunk_a "a"); Insert (chunk_b "b")]); reflexivity.
Defined.

(** *** Loading a serialized index *)

Lemma forallb_fitting (d : Z) (cs : list EmbeddedChunk) :
  forallb (fitting d) cs = true <-> Forall (fun c => len (embedding c) = d) cs.
Proof.
  rewrite forallb_forall, Forall_forall. unfold fitting.
  split; intros H c Hc; apply Z.eqb_eq; auto.
Qed.

(** X7: [fromSerialized] accepts an index exactly when its version is 1
    and every embedding has the length the index declares; the store it
    returns serializes to the very index it was loaded from, and a store
    whose embeddings have the declared length is what loading its own
    serialization returns.  With the version right and an embedding of
    another length the call throws the dimension error. *)
Theorem fromSerialized_inverts_serialize :
  (forall data st,
     Codec.fromSerialized data = Ok st ->
     serialize st = data /\ store_wf st)
  /\ (forall st, store_wf st -> Codec.fromSerialized (serialize st) = Ok st)
  /\ (forall data,
     version data = INDEX_VERSION ->
     ~ Forall (fun c => len (embedding c) = si_dimensions data) (si_chunks data) ->
     Codec.fromSerialized data = Throw DimensionMismatch).
Proof.
  split; [|split].
  - intros data st. unfold Codec.fromSerialized.
    destruct (negb (version data =? INDEX_VERSION)) eqn:Ev; [discriminate|].
    apply negb_false_iff, Z.eqb_eq in Ev.
    rewrite addAll_prefix. cbn [dimensions new chunks model app].
    destruct (forallb _ _) eqn:Ef; [|discriminate].
    intros H. injection H as <-.
    rewrite (fitting_prefix_all _ _ Ef).
    split.
    + unfold serialize. cbn. destruct data; cbn in *. now rewrite Ev.
    + unfold store_wf. cbn. now apply forallb_fitting.
  - intros st Hwf. unfold Codec.fromSerialized. cbn.
    rewrite addAll_prefix. cbn [dimensions new chunks model app].
    apply forallb_fitting in Hwf. rewrite Hwf, (fitting_prefix_all _ _ Hwf).
    now destruct st.
  - intros data Hv Hbad. unfold Codec.fromSerialized.
    rewrite Hv, Z.eqb_refl. cbn [negb].
    rewrite addAll_prefix. cbn [dimensions new].
    destruct (forallb _ _) eqn:Ef; [|reflexivity].
    apply forallb_fitting in Ef. contradiction.
Qed.

End StoreLawsProperties.

(** ** The store: one ranking behind every search *)

Module RankingProperties.

Import Store F64 F64Facts StoreSpec StoreProperties StoreLaws.















End RankingProperties.

(** ** The binary format: what [toBinary] writes *)

Module LayoutProperties.

Import Store Codec StoreSpec CodecSpec CodecProperties.

Lemma fill_length (count : nat) (vals : list number) :
  len (Float32Array_fill count vals) = 4 * Z.of_nat count.
Proof.
  unfold Float32Array_fill.
  assert (E : forall l, length (flat_map f32_bytes l) = (4 * length l)%nat).
  { induction l as [|x l IH]; simpl; lia. }
  unfold len. rewrite E, length_firstn, length_app, repeat_length. lia.
Qed.

Lemma padding_small (u : Z) : 0 <= padding_for u < 4.
Proof. unfold padding_for. Z.to_euclidean_division_equations. lia. Qed.

(** X8: the layout of the binary format.  For a store of non-negative
    dimensions [toBinary] returns a buffer that starts with the magic
    number and the version, both as [fromBinary] expects them, followed by
    the length of the metadata block and the number of records (each
    modulo 2^32), then the block itself, then zero to three bytes that
    bring the vectors to an offset divisible by four, then four bytes for
    each of [size * dimensions] entries, whether or not the embeddings have
    that many.  With negative dimensions and a record in the store it
    throws a range error. *)
Theorem toBinary_layout (P : Platform) (st : VectorStore) :
  (0 <= dimensions st ->
   exists buf,
     let json := meta_bytes P st in
     let padding := padding_for (16 + len json) in
     toBinary P st = Ok buf
     /\ getUint32 buf 0 = Ok MAGIC
     /\ getUint32 buf 4 = Ok INDEX_VERSION
     /\ getUint32 buf 8 = Ok (len json mod 4294967296)
     /\ getUint32 buf 12 = Ok (size st mod 4294967296)
     /\ slice buf 16 (16 + len json) = json
     /\ 0 <= padding < 4
     /\ (16 + len json + padding) mod 4 = 0
     /\ len buf = 16 + len json + padding + 4 * (size st * dimensions st))
  /\ (dimensions st < 0 -> chunks st <> [] -> toBinary P st = Throw RangeError).
Proof.
  pose proof (len_nonneg (meta_bytes P st)) as HJ0.
  pose proof (len_nonneg (chunks st)) as Hn0.
  destruct (padding_aligns (16 + len (meta_bytes P st))) as [Halign _].
  pose proof (padding_small (16 + len (meta_bytes P st))) as Hpad.
  unfold toBinary, size. fold (meta_bytes P st).
  set (J := meta_bytes P st) in *.
  set (pad := padding_for (16 + len J)) in *.
  set (count := len (chunks st) * dimensions st) in *.
  split.
  - intros Hd.
    assert (Hcount : 0 <= count) by (subst count; nia).
    replace (16 + len J + pad + count * 4 <? 0) with false
      by (symmetry; apply Z.ltb_ge; lia).
    replace (count <? 0) with false by (symmetry; apply Z.ltb_ge; lia).
    cbn [orb]. eexists. cbv zeta. split; [reflexivity|].
    set (vec := Float32Array_fill (Z.to_nat count) (flat_map embedding (chunks st))).
    set (zeros := repeat Byte.x00 (Z.to_nat pad)).
    assert (Hzeros : len zeros = pad).
    { unfold zeros, len. rewrite repeat_length. lia. }
    assert (Hvec : len vec = 4 * count).
    { unfold vec. rewrite fill_length. lia. }
    cbn [uint32_be app].
    repeat split; try lia.
    + match goal with |- getUint32 (?a :: ?b :: ?c :: ?d :: ?r) 0 = _ =>
        change (getUint32 ([] ++ a :: b :: c :: d :: r) (len (@nil Byte.byte)) = Ok MAGIC) end.
      rewrite getUint32_at, be32_uint32_be. reflexivity.
    + match goal with |- getUint32 (?a0 :: ?a1 :: ?a2 :: ?a3 :: ?a :: ?b :: ?c :: ?d :: ?r) 4 = _ =>
        change (getUint32 ([a0; a1; a2; a3] ++ a :: b :: c :: d :: r)
                  (len [a0; a1; a2; a3]) = Ok INDEX_VERSION) end.
      rewrite getUint32_at, be32_uint32_be. reflexivity.
    + match goal with |- getUint32 (?a0 :: ?a1 :: ?a2 :: ?a3 :: ?a4 :: ?a5 :: ?a6 :: ?a7
                            :: ?a :: ?b :: ?c :: ?d :: ?r) 8 = ?rhs =>
        change (getUint32 ([a0; a1; a2; a3; a4; a5; a6; a7] ++ a :: b :: c :: d :: r)
                  (len [a0; a1; a2; a3; a4; a5; a6; a7]) = rhs) end.
      rewrite getUint32_at, be32_uint32_be. reflexivity.
    + match goal with |- getUint32 (?a0 :: ?a1 :: ?a2 :: ?a3 :: ?a4 :: ?a5 :: ?a6 :: ?a7
                            :: ?a8 :: ?a9 :: ?a10 :: ?a11
                            :: ?a :: ?b :: ?c :: ?d :: ?r) 12 = ?rhs =>
        change (getUint32 ([a0; a1; a2; a3; a4; a5; a6; a7; a8; a9; a10; a11]
                            ++ a :: b :: c :: d :: r)
                  (len [a0; a1; a2; a3; a4; a5; a6; a7; a8; a9; a10; a11]) = rhs) end.
      rewrite getUint32_at, be32_uint32_be. reflexivity.
    + match goal with |- slice (?a0 :: ?a1 :: ?a2 :: ?a3 :: ?a4 :: ?a5 :: ?a6 :: ?a7
                            :: ?a8 :: ?a9 :: ?a10 :: ?a11 :: ?a12 :: ?a13 :: ?a14 :: ?a15
                            :: ?rest) _ _ = _ =>
        set (hdr := [a0; a1; a2; a3; a4; a5; a6; a7; a8; a9; a10; a11; a12; a13; a14; a15]);
        change (slice (hdr ++ rest) (len hdr + 0) (len hdr + len J) = J)
      end.
      rewrite slice_app_skip by lia. apply slice_app_front.
    + rewrite !len_cons, !len_app, Hzeros, Hvec. lia.
  - intros Hd Hne.
    assert (Hcount : count < 0).
    { subst count. destruct (chunks st) as [|c cs]; [congruence|].
      rewrite len_cons. pose proof (len_nonneg cs). nia. }
    replace (count <? 0) with true by (symmetry; apply Z.ltb_lt; lia).
    now rewrite orb_true_r.
Qed.

Lemma toBinary_layout_witness :
  exists buf,
    toBinary MiniJson.platform test_store = Ok buf
    /\ len buf = 16 + len (meta_bytes MiniJson.platform test_store)
                 + padding_for (16 + len (meta_bytes MiniJson.platform test_store))
                 + 4 * (size test_store * dimensions test_store).
Proof.
  destruct (proj1 (toBinary_layout MiniJson.platform test_store)) as [buf H].
  - cbv. congruence.
  - exists buf. cbv zeta in H. split; [apply H|]. apply H.
Defined.

End LayoutProperties.

(** ** Cosine similarity: the order of the arguments *)

Module CosineProperties.

Import Store.

Lemma SFmul_comm (x y : spec_float) : SF64mul x y = SF64mul y x.
Proof.
  unfold SF64mul, SFmul.
  destruct x as [sx|sx| |sx mx ex], y as [sy|sy| |sy my ey];
    try reflexivity; try (now rewrite xorb_comm).
  now rewrite xorb_comm, Pos.mul_comm, Z.add_comm.
Qed.

Lemma mul_comm (x y : float) : PrimFloat.mul x y = PrimFloat.mul y x.
Proof. apply Prim2SF_inj. rewrite !mul_spec. apply SFmul_comm. Qed.

Lemma cosine_sums_swap (a : list number) :
  forall b d na nb,
  cosine_sums binary64 b a (d, nb, na)
  = (let '(d', na', nb') := cosine_sums binary64 a b (d, na, nb) in (d', nb', na')).
Proof.
  induction a as [|x a IH]; intros [|y b] d na nb; try reflexivity.
  cbn [cosine_sums]. rewrite IH. cbn [num_add num_mul binary64].
  now rewrite (mul_comm y x).
Qed.

(** X9: [cosineSimilarity] does not depend on the order of its two
    arguments: on every pair of vectors, in binary64 arithmetic with its
    rounding, infinities and NaN, it returns the same number or throws the
    same error either way round. *)
Theorem cosineSimilarity_symmetric (a b : list number) :
  cosineSimilarity a b = cosineSimilarity b a.
Proof.
  unfold cosineSimilarity, cosine_over. rewrite (Z.eqb_sym (len b) (len a)).
  destruct (negb (len a =? len b)); [reflexivity|].
  rewrite (cosine_sums_swap a b). cbn [num_zero binary64].
  destruct (cosine_sums binary64 a b _) as [[d na] nb].
  cbn [num_mul num_sqrt num_is_zero num_div binary64].
  now rewrite (mul_comm (PrimFloat.sqrt nb) (PrimFloat.sqrt na)).
Qed.

End CosineProperties.

(** ** The chunker: what the chunks are made of *)

Module ChunkerLawsProperties.

Import Chunker ChunkerSpec ChunkerProperties ChunkerLaws.

(** *** Trimming *)

Lemma drop_while_head {A} (p : A -> bool) (s : list A) :
  match drop_while p s with
  | [] => Forall (fun c => p c = true) s
  | c :: _ => p c = false
  end.
Proof.
  induction s as [|c s IH]; simpl; [constructor|].
  destruct (p c) eqn:E; [|exact E].
  destruct (drop_while p s); [now constructor|exact IH].
Qed.

Lemma drop_while_fixed {A} (p : A -> bool) (s : list A) :
  match s with [] => True | c :: _ => p c = false end -> drop_while p s = s.
Proof. destruct s as [|c s]; simpl; [reflexivity|]. now intros ->. Qed.

Lemma drop_while_idem {A} (p : A -> bool) (s : list A) :
  drop_while p (drop_while p s) = drop_while p s.
Proof.
  apply drop_while_fixed. pose proof (drop_while_head p s) as H.
  destruct (drop_while p s); [exact I|exact H].
Qed.

Lemma drop_while_suffix {A} (p : A -> bool) (s : list A) :
  exists front, s = front ++ drop_while p s /\ Forall (fun c => p c = true) front.
Proof.
  induction s as [|c s [front [E F]]]; simpl; [exists []; split; [reflexivity|constructor]|].
  destruct (p c) eqn:Ec.
  - exists (c :: front). split; [simpl; congruence|now constructor].
  - exists []. split; [reflexivity|constructor].
Qed.

Lemma trimEnd_prefix (s : jsstring) :
  exists back, s = trimEnd s ++ back /\ blank back.
Proof.
  unfold trimEnd. destruct (drop_while_suffix is_space (rev s)) as [front [E F]].
  exists (rev front). split.
  - rewrite <- rev_app_distr, <- E. symmetry. apply rev_involutive.
  - now apply Forall_rev.
Qed.

Lemma trimEnd_idem (s : jsstring) : trimEnd (trimEnd s) = trimEnd s.
Proof. unfold trimEnd. now rewrite rev_involutive, drop_while_idem. Qed.

(** What [trim] leaves is the text between two runs of white space. *)
Lemma trim_parts (s : jsstring) :
  exists front back, s = front ++ trim s ++ back /\ blank front /\ blank back.
Proof.
  unfold trim, trimStart.
  destruct (drop_while_suffix is_space s) as [front [E F]].
  destruct (trimEnd_prefix (drop_while is_space s)) as [back [E2 B]].
  exists front, back. split; [|split; assumption].
  now rewrite <- E2.
Qed.

Lemma trimStart_trimEnd (s : jsstring) :
  match s with [] => True | c :: _ => is_space c = false end ->
  trimStart (trimEnd s) = trimEnd s.
Proof.
  intros H. unfold trimStart. apply drop_while_fixed.
  destruct (trimEnd_prefix s) as [back [E B]].
  destruct (trimEnd s) as [|c t] eqn:Et; [exact I|].
  rewrite E in H. exact H.
Qed.

Lemma trim_idem (s : jsstring) : trim (trim s) = trim s.
Proof.
  unfold trim. rewrite trimStart_trimEnd.
  - apply trimEnd_idem.
  - unfold trimStart. pose proof (drop_while_head is_space s) as H.
    destruct (drop_while is_space s); [exact I|exact H].
Qed.

Lemma solid_app (a b : jsstring) : solid (a ++ b) = solid a ++ solid b.
Proof. apply filter_app. Qed.

Lemma solid_blank (s : jsstring) : blank s -> solid s = [].
Proof.
  induction 1 as [|c s Hc _ IH]; [reflexivity|].
  unfold solid in *. simpl. now rewrite Hc.
Qed.

Lemma solid_nil_blank (s : jsstring) : solid s = [] -> blank s.
Proof.
  unfold solid, blank. induction s as [|c s IH]; simpl; [constructor|].
  destruct (is_space c) eqn:E; simpl; [|discriminate].
  intros H. constructor; auto.
Qed.

Lemma solid_trim (s : jsstring) : solid (trim s) = solid s.
Proof.
  destruct (trim_parts s) as [front [back [E [F B]]]].
  rewrite E at 2. rewrite !solid_app, (solid_blank F), (solid_blank B).
  now rewrite app_nil_r.
Qed.

Lemma has_content_solid (s : jsstring) : has_content s = true <-> solid s <> [].
Proof.
  unfold has_content. rewrite <- (solid_trim s). split.
  - intros H E. apply solid_nil_blank in E.
    pose proof (trim_blank E) as T. rewrite trim_idem in T. now rewrite T in H.
  - intros H. destruct (trim s); [now elim H|reflexivity].
Qed.

Lemma has_content_false (s : jsstring) : has_content s = false <-> solid s = [].
Proof.
  pose proof (has_content_solid s) as [H1 H2].
  destruct (has_content s) eqn:E.
  - split; [discriminate|]. intros H. now elim (H1 eq_refl).
  - split; [|reflexivity]. intros _.
    destruct (solid s) eqn:Es; [reflexivity|].
    assert (false = true) by (apply H2; discriminate). discriminate.
Qed.

(** *** Splitting at white space *)

Lemma count_while_le {A} (p q : A -> bool) (s : list A) :
  (forall c, p c = true -> q c = true) -> (count_while p s <= count_while q s)%nat.
Proof.
  intros H. induction s as [|c s IH]; simpl; [lia|].
  destruct (p c) eqn:E; [rewrite (H c E); lia|lia].
Qed.

Lemma PARAGRAPH_SPLIT_spaces : spaces_only PARAGRAPH_SPLIT.
Proof.
  intros prev s. unfold PARAGRAPH_SPLIT.
  destruct s as [|a [|b s]]; try lia.
  destruct ((a =? LF)%N && (b =? LF)%N); [|lia].
  apply count_while_le. intros c Hc. apply N.eqb_eq in Hc. now subst c.
Qed.

Lemma SENTENCE_SPLIT_spaces : spaces_only SENTENCE_SPLIT.
Proof.
  intros prev s. unfold SENTENCE_SPLIT.
  destruct prev as [p|]; [|lia]. destruct (is_terminator p); lia.
Qed.

Lemma WORD_SPLIT_spaces : spaces_only WORD_SPLIT.
Proof. intros prev s. unfold WORD_SPLIT. lia. Qed.

Lemma solid_space (c : char) (s : jsstring) : is_space c = true -> solid (c :: s) = solid s.
Proof. intros H. unfold solid. simpl. now rewrite H. Qed.

Lemma count_while_pos {A} (p : A -> bool) (c : A) (s : list A) (k : nat) :
  (S k <= count_while p (c :: s))%nat -> p c = true /\ (k <= count_while p s)%nat.
Proof. simpl. destruct (p c); [split; [reflexivity|lia]|lia]. Qed.

Lemma split_go_solid (m : matcher) :
  spaces_only m ->
  forall s prev piece skip, (skip <= count_while is_space s)%nat ->
  solid (concat (split_go m prev s piece skip)) = solid (rev piece) ++ solid s.
Proof.
  intros Hm. induction s as [|c s IH]; intros prev piece skip Hskip.
  - simpl. now rewrite !app_nil_r.
  - cbn [split_go]. destruct skip as [|k].
    + pose proof (Hm prev (c :: s)) as Hc.
      destruct (m prev (c :: s)) as [|k].
      * rewrite IH by lia. cbn [rev]. rewrite solid_app, <- app_assoc.
        now rewrite <- solid_app.
      * apply count_while_pos in Hc. destruct Hc as [Hc Hk].
        cbn [concat]. rewrite solid_app, IH by exact Hk.
        now rewrite (@solid_space c s Hc).
    + apply count_while_pos in Hskip. destruct Hskip as [Hc Hk].
      rewrite IH by exact Hk. now rewrite (@solid_space c s Hc).
Qed.

Lemma split_with_solid (m : matcher) (s : jsstring) :
  spaces_only m -> solid (concat (split_with m s)) = solid s.
Proof.
  intros Hm. unfold split_with. rewrite split_go_solid by (assumption || lia).
  reflexivity.
Qed.

Lemma filter_has_content_solid (l : list jsstring) :
  solid (concat (List.filter has_content l)) = solid (concat l).
Proof.
  induction l as [|x l IH]; [reflexivity|]. cbn [List.filter concat].
  destruct (has_content x) eqn:E; cbn [concat]; rewrite !solid_app, ?IH; [reflexivity|].
  apply has_content_false in E. now rewrite E.
Qed.

Lemma filter_has_content_all (l : list jsstring) :
  Forall (fun s => has_content s = true) (List.filter has_content l).
Proof. apply Forall_forall. intros x Hx. now apply filter_In in Hx. Qed.

Lemma split_go_words (s : jsstring) :
  forall prev piece skip, spaceless piece ->
  Forall spaceless (split_go WORD_SPLIT prev s piece skip).
Proof.
  induction s as [|c s IH]; intros prev piece skip Hp.
  - simpl. constructor; [now apply Forall_rev|constructor].
  - cbn [split_go]. destruct skip as [|k]; [|now apply IH].
    unfold WORD_SPLIT at 1. cbn [count_while].
    destruct (is_space c) eqn:Ec.
    + constructor; [now apply Forall_rev|]. apply IH. constructor.
    + apply IH. now constructor.
Qed.

Lemma spaceless_solid (s : jsstring) : spaceless s -> solid s = s.
Proof.
  induction 1 as [|c s Hc _ IH]; [reflexivity|].
  unfold solid in *. simpl. rewrite Hc. simpl. now rewrite IH.
Qed.

Lemma spaceless_content (s : jsstring) : spaceless s -> s <> [] -> has_content s = true.
Proof.
  intros H Hne. apply has_content_solid. now rewrite (spaceless_solid H).
Qed.

(** *** The words of an over-long sentence *)

Lemma slice_window {A} (s : list A) (a k : Z) :
  0 <= a -> 0 <= k ->
  slice s a (a + k) = firstn (Z.to_nat k) (skipn (Z.to_nat a) s).
Proof.
  intros Ha Hk. unfold slice, clamp_index.
  replace (a <? 0) with false by (symmetry; apply Z.ltb_ge; lia).
  replace (a + k <? 0) with false by (symmetry; apply Z.ltb_ge; lia).
  pose proof (len_nonneg s) as Hn. unfold len in *.
  destruct (Z_le_gt_dec a (Z.of_nat (length s))) as [Hle|Hgt].
  - replace (Z.min a (Z.of_nat (length s))) with a by lia.
    destruct (Z_le_gt_dec (a + k) (Z.of_nat (length s))) as [Hle2|Hgt2].
    + f_equal. lia.
    + rewrite !firstn_all2; [reflexivity| |]; rewrite length_skipn; lia.
  - rewrite !skipn_all2 by lia. now rewrite !firstn_nil.
Qed.

Lemma word_slices_concat (maxSize : Z) (word : jsstring) :
  0 < maxSize ->
  forall fuel i, 0 <= i -> (length word - Z.to_nat i <= fuel)%nat ->
  concat (word_slices fuel word i maxSize) = skipn (Z.to_nat i) word.
Proof.
  intros Hm. induction fuel as [|fuel IH]; intros i Hi Hf; cbn [word_slices].
  - rewrite skipn_all2 by lia. reflexivity.
  - destruct (i <? len word) eqn:E.
    + cbn [concat]. rewrite IH by lia.
      rewrite slice_window by lia.
      replace (Z.to_nat (i + maxSize)) with (Z.to_nat maxSize + Z.to_nat i)%nat by lia.
      rewrite <- skipn_skipn. apply firstn_skipn.
    + apply Z.ltb_ge in E. unfold len in E. rewrite skipn_all2 by lia. reflexivity.
Qed.

Lemma window_In {A} (s : list A) (a k : nat) (c : A) :
  In c (firstn k (skipn a s)) -> In c s.
Proof.
  intros H. rewrite <- (firstn_skipn a s). apply in_or_app. right.
  rewrite <- (firstn_skipn k (skipn a s)). apply in_or_app. now left.
Qed.

Lemma word_slices_content (maxSize : Z) (word : jsstring) :
  0 < maxSize -> spaceless word ->
  forall fuel i, 0 <= i ->
  Forall (fun s => has_content s = true) (word_slices fuel word i maxSize).
Proof.
  intros Hm Hw. induction fuel as [|fuel IH]; intros i Hi; cbn [word_slices];
    [constructor|].
  destruct (i <? len word) eqn:E; [|constructor].
  apply Z.ltb_lt in E. constructor; [|apply IH; lia].
  rewrite slice_window by lia. apply spaceless_content.
  - apply Forall_forall. intros c Hc.
    apply window_In in Hc.
    exact (proj1 (Forall_forall _ _) Hw c Hc).
  - unfold len in E. intros H. apply (f_equal (@length _)) in H.
    rewrite length_firstn, length_skipn in H. simpl in H. lia.
Qed.

Lemma has_content_trim (s : jsstring) : has_content (trim s) = has_content s.
Proof. unfold has_content. now rewrite trim_idem. Qed.

Lemma has_content_app_l (a b : jsstring) :
  has_content a = true -> has_content (a ++ b) = true.
Proof.
  rewrite !has_content_solid, solid_app. intros H E.
  apply app_eq_nil in E. tauto.
Qed.

Lemma has_content_app_r (a b : jsstring) :
  has_content b = true -> has_content (a ++ b) = true.
Proof.
  rewrite !has_content_solid, solid_app. intros H E.
  apply app_eq_nil in E. tauto.
Qed.

Lemma push_content (l : list jsstring) (s : jsstring) :
  Forall (fun s => has_content s = true) l ->
  (truthy s = true -> has_content s = true) ->
  Forall (fun s => has_content s = true) (if truthy s then l ++ [trim s] else l).
Proof.
  intros Hl Hs. destruct (truthy s); [|exact Hl].
  apply Forall_app. split; [exact Hl|]. constructor; [|constructor].
  rewrite has_content_trim. now apply Hs.
Qed.

Lemma push_solid (l : list jsstring) (s : jsstring) :
  solid (concat (if truthy s then l ++ [trim s] else l)) = solid (concat l ++ s).
Proof.
  destruct s as [|c s]; cbn [truthy]; [now rewrite app_nil_r|].
  rewrite concat_app. cbn [concat]. rewrite app_nil_r, !solid_app.
  now rewrite solid_trim.
Qed.

Lemma splitByWords_step_state (maxSize : Z) (read : jsstring) st (word : jsstring) :
  0 < maxSize -> spaceless word -> words_state read st ->
  words_state (read ++ word) (splitByWords_step maxSize st word).
Proof.
  intros Hm Hw [Hc [Hcur Hs]]. destruct st as [chunks current]. cbn [fst snd] in *.
  unfold splitByWords_step, words_state.
  destruct (maxSize <? len word) eqn:Hlong.
  - cbn [fst snd]. split; [|split].
    + apply Forall_app. split; [now apply push_content|].
      apply word_slices_content; (assumption || lia).
    + discriminate.
    + rewrite app_nil_r, concat_app, solid_app, push_solid, Hs.
      rewrite word_slices_concat by (simpl; lia). simpl skipn.
      now rewrite solid_app.
  - destruct (len _ <=? maxSize) eqn:Hcand; cbn [fst snd].
    + split; [exact Hc|]. split.
      * destruct (truthy current) eqn:Et; intros Ht.
        -- apply has_content_app_l. now apply Hcur.
        -- destruct word as [|c w]; [discriminate|].
           apply spaceless_content; [exact Hw|discriminate].
      * destruct (truthy current) eqn:Et.
        -- rewrite (solid_app read), <- Hs, !solid_app.
           change (solid [SPACE]) with (@nil char). now rewrite <- !app_assoc.
        -- apply truthy_false in Et. subst current.
           rewrite app_nil_r in Hs. now rewrite !solid_app, Hs.
    + split; [now apply push_content|]. split.
      * intros Ht. destruct word as [|c w]; [discriminate|].
        apply spaceless_content; [exact Hw|discriminate].
      * now rewrite solid_app, push_solid, Hs, solid_app.
Qed.

Lemma fold_words_state (maxSize : Z) (words : list jsstring) :
  0 < maxSize -> Forall spaceless words ->
  forall read st, words_state read st ->
  words_state (read ++ concat words) (fold_left (splitByWords_step maxSize) words st).
Proof.
  intros Hm. induction 1 as [|w words Hw _ IH]; intros read st Hst; cbn [fold_left concat].
  - now rewrite app_nil_r.
  - rewrite app_assoc. apply IH. now apply splitByWords_step_state.
Qed.

Lemma splitByWords_pieces (text : jsstring) (maxSize : Z) :
  0 < maxSize ->
  Forall (fun s => has_content s = true) (splitByWords text maxSize)
  /\ solid (concat (splitByWords text maxSize)) = solid text.
Proof.
  intros Hm. unfold splitByWords.
  assert (Hw : Forall spaceless (split_with WORD_SPLIT text))
    by (apply split_go_words; constructor).
  pose proof (@fold_words_state maxSize _ Hm Hw [] ([], [])) as H.
  destruct (fold_left _ _ _) as [chunks current].
  destruct H as [Hc [Hcur Hs]].
  - repeat split; [constructor|discriminate].
  - cbn [fst snd app] in *.
    rewrite (split_with_solid text WORD_SPLIT_spaces) in Hs.
    split.
    + destruct (truthy (trim current)) eqn:Et; [|exact Hc].
      apply Forall_app. split; [exact Hc|]. constructor; [|constructor].
      unfold has_content. now rewrite trim_idem.
    + rewrite <- Hs. destruct (truthy (trim current)) eqn:Et.
      * rewrite concat_app. cbn [concat]. rewrite app_nil_r, !solid_app.
        now rewrite solid_trim.
      * apply truthy_false in Et. rewrite solid_app, <- (solid_trim current), Et.
        symmetry. apply app_nil_r.
Qed.

(** *** Paragraphs, sentences, words *)

Lemma flat_map_solid (f : jsstring -> list jsstring) (l : list jsstring) :
  (forall x, solid (concat (f x)) = solid x) ->
  solid (concat (flat_map f l)) = solid (concat l).
Proof.
  intros H. induction l as [|x l IH]; [reflexivity|].
  cbn [flat_map concat]. now rewrite concat_app, !solid_app, H, IH.
Qed.

Lemma flat_map_content (f : jsstring -> list jsstring) (l : list jsstring) :
  Forall (fun s => has_content s = true) l ->
  (forall x, has_content x = true -> Forall (fun s => has_content s = true) (f x)) ->
  Forall (fun s => has_content s = true) (flat_map f l).
Proof.
  intros Hl H. induction Hl as [|x l Hx _ IH]; cbn [flat_map]; [constructor|].
  apply Forall_app. auto.
Qed.

Lemma splitByBoundary_pieces (text : jsstring) (maxSize : Z) :
  0 < maxSize ->
  Forall (fun s => has_content s = true) (splitByBoundary text maxSize)
  /\ solid (concat (splitByBoundary text maxSize)) = solid text.
Proof.
  intros Hm. unfold splitByBoundary. cbv zeta.
  set (segments := List.filter has_content (split_with PARAGRAPH_SPLIT text)).
  assert (Hc : Forall (fun s => has_content s = true) segments)
    by apply filter_has_content_all.
  assert (Hs : solid (concat segments) = solid text).
  { unfold segments. rewrite filter_has_content_solid.
    apply split_with_solid, PARAGRAPH_SPLIT_spaces. }
  match goal with |- context [existsb ?p segments] => destruct (existsb p segments) end;
    [|now split].
  split.
  - apply flat_map_content; [exact Hc|]. intros segment Hseg.
    destruct (len segment <=? maxSize); [now repeat constructor|].
    apply flat_map_content; [apply filter_has_content_all|]. intros sentence Hsen.
    destruct (len sentence <=? maxSize); [now repeat constructor|].
    now apply splitByWords_pieces.
  - rewrite <- Hs. apply flat_map_solid. intros segment.
    destruct (len segment <=? maxSize); [cbn [concat]; now rewrite app_nil_r|].
    rewrite flat_map_solid.
    + rewrite filter_has_content_solid.
      apply split_with_solid, SENTENCE_SPLIT_spaces.
    + intros sentence.
      destruct (len sentence <=? maxSize); [cbn [concat]; now rewrite app_nil_r|].
      now apply splitByWords_pieces.
Qed.

(** X27: the pieces that [splitByBoundary] and [splitByWords] cut a text
    into, for a positive [maxSize]: each piece is at most [maxSize] long
    and holds a character that is no white space, and the pieces, read one
    after the other and white space aside, are the text. *)
Theorem pieces_fit_and_hold_text (text : jsstring) (maxSize : Z) :
  0 < maxSize ->
  (Forall (fun s => len s <= maxSize /\ has_content s = true)
          (splitByBoundary text maxSize)
   /\ solid (concat (splitByBoundary text maxSize)) = solid text)
  /\ (Forall (fun s => len s <= maxSize /\ has_content s = true)
             (splitByWords text maxSize)
      /\ solid (concat (splitByWords text maxSize)) = solid text).
Proof.
  intros Hm.
  destruct (splitByBoundary_pieces text Hm) as [B1 B2].
  destruct (splitByWords_pieces text Hm) as [W1 W2].
  pose proof (@splitByBoundary_fit text maxSize ltac:(lia)) as B3.
  pose proof (@splitByWords_fit text maxSize ltac:(lia)) as W3.
  repeat split; try assumption; apply Forall_forall; intros s Hs; split;
    try exact (proj1 (Forall_forall _ _) B3 s Hs);
    try exact (proj1 (Forall_forall _ _) W3 s Hs);
    try exact (proj1 (Forall_forall _ _) B1 s Hs);
    exact (proj1 (Forall_forall _ _) W1 s Hs).
Qed.

Lemma pieces_fit_and_hold_text_witness :
  solid (concat (splitByBoundary (str "One. Two three four five six.") 12))
  = str "One.Twothreefourfivesix.".
Proof.
  exact (proj2 (proj1 (@pieces_fit_and_hold_text (str "One. Two three four five six.") 12
                         ltac:(lia)))).
Defined.

(** *** Merging segments that fit *)

Lemma content_nonempty (s : jsstring) : has_content s = true -> trim s <> [].
Proof. unfold has_content. destruct (trim s); [discriminate|discriminate]. Qed.

Lemma mergeSegments_step_full (fuel : nat) (chunkSize overlap : Z)
    (st : merge_state) (segment : jsstring) :
  merge_inv chunkSize st -> fits chunkSize segment -> has_content segment = true ->
  merge_full st ->
  exists st', mergeSegments_step fuel chunkSize overlap st segment = Ok st'
    /\ merge_inv chunkSize st' /\ merge_full st'
    /\ (overlap = 0 -> forall read, merge_holds read st ->
        merge_holds (read ++ segment) st').
Proof.
  intros [Hc Hcur] Hs Hseg [Hne Hfull]. unfold mergeSegments_step.
  destruct (len _ <=? chunkSize) eqn:Hcand.
  - eexists. split; [reflexivity|]. split; [|split].
    + split; cbn [chunks current]; [assumption|]. apply Z.leb_le in Hcand. exact Hcand.
    + split; cbn [chunks current]; [assumption|]. intros _.
      rewrite app_assoc. now apply has_content_app_r.
    + intros _ read [Hob Hsolid]. split; cbn [chunks current overlapBuffer]; [exact Hob|].
      rewrite !app_assoc, solid_app, <- app_assoc, solid_app.
      rewrite (solid_app (concat (chunks st))) in Hsolid.
      rewrite (solid_app read), <- Hsolid, !solid_app.
      destruct (truthy (current st)); [|now rewrite <- !app_assoc].
      change (solid [LF; LF]) with (@nil char). now rewrite <- !app_assoc.
  - match goal with |- context [split_oversized _ _ _ ?s] => set (st1 := s) end.
    assert (H1 : merge_inv chunkSize st1).
    { subst st1. split; cbn [chunks current].
      - destruct (truthy (current st)); [apply push_fits; auto using fits_trim|assumption].
      - match goal with |- context [if ?c then _ else _] => destruct c eqn:Hfit end;
          [|assumption].
        apply andb_true_iff in Hfit. destruct Hfit as [_ Hfit].
        apply Z.leb_le in Hfit. unfold fits.
        rewrite len_app. simpl app. rewrite len_cons. lia. }
    exists st1. split; [apply split_oversized_idle; apply H1|].
    split; [exact H1|]. split.
    + subst st1. split; cbn [chunks current].
      * destruct (truthy (current st)) eqn:Et; [|exact Hne].
        apply Forall_app. split; [exact Hne|]. constructor; [|constructor].
        apply content_nonempty. now apply Hfull.
      * intros _. match goal with |- context [if ?c then _ else _] => destruct c end;
          [|exact Hseg].
        rewrite app_assoc. now apply has_content_app_r.
    + intros -> read [Hob Hsolid]. subst st1. cbn [Z.ltb Z.compare].
      rewrite andb_false_r, Hob. cbn [truthy andb].
      split; cbn [chunks current overlapBuffer]; [reflexivity|].
      now rewrite solid_app, push_solid, Hsolid, solid_app.
Qed.

Lemma mergeSegments_loop_full (fuel : nat) (chunkSize overlap : Z)
    (segments : list jsstring) :
  Forall (fits chunkSize) segments ->
  Forall (fun s => has_content s = true) segments ->
  forall st, merge_inv chunkSize st -> merge_full st ->
  exists st', mergeSegments_loop fuel chunkSize overlap segments st = Ok st'
    /\ merge_inv chunkSize st' /\ merge_full st'
    /\ (overlap = 0 -> forall read, merge_holds read st ->
        merge_holds (read ++ concat segments) st').
Proof.
  induction 1 as [|segment rest Hs _ IH]; intros Hall st Hst Hfull; cbn [mergeSegments_loop].
  - exists st. split; [reflexivity|]. split; [exact Hst|]. split; [exact Hfull|].
    intros _ read Hr. cbn [concat]. now rewrite app_nil_r.
  - apply Forall_cons_iff in Hall. destruct Hall as [Hseg Hall].
    destruct (@mergeSegments_step_full fuel chunkSize overlap st segment Hst Hs Hseg Hfull)
      as [st1 [E1 [H1 [F1 K1]]]].
    rewrite E1. cbn [bind].
    destruct (IH Hall st1 H1 F1) as [st2 [E2 [H2 [F2 K2]]]].
    exists st2. split; [exact E2|]. split; [exact H2|]. split; [exact F2|].
    intros Hov read Hr. cbn [concat]. rewrite app_assoc.
    apply (K2 Hov). now apply K1.
Qed.

Lemma trim_trimmed (s : jsstring) : trimmed (trim s).
Proof. apply trim_idem. Qed.

Lemma mergeSegments_full (fuel : nat) (segments : list jsstring) (chunkSize overlap : Z) :
  0 <= chunkSize -> Forall (fits chunkSize) segments ->
  Forall (fun s => has_content s = true) segments ->
  exists out, mergeSegments fuel segments chunkSize overlap = Ok out
    /\ Forall (fits chunkSize) out
    /\ Forall (fun c => c <> []) out
    /\ (overlap = 0 -> solid (concat out) = solid (concat segments)).
Proof.
  intros Hn Hs Hall. unfold mergeSegments.
  destruct segments as [|s rest];
    [exists []; repeat split; constructor|].
  destruct (@mergeSegments_loop_full fuel chunkSize overlap (s :: rest) Hs Hall
              {| chunks := []; current := []; overlapBuffer := [] |})
    as [st' [E [[Hc Hcur] [[Hne Hfull] K]]]].
  - split; cbn [chunks current]; [constructor|]. unfold fits. rewrite len_nil. lia.
  - split; cbn [chunks current]; [constructor|discriminate].
  - rewrite E. cbn [bind]. eexists. split; [reflexivity|]. split; [|split].
    + destruct (truthy (trim (current st'))); [apply push_fits; auto using fits_trim|assumption].
    + destruct (truthy (trim (current st'))) eqn:Et; [|exact Hne].
      apply Forall_app. split; [exact Hne|]. constructor; [|constructor].
      intros H. now rewrite H in Et.
    + intros Hov. destruct (K Hov []) as [_ Hsolid]; [now split|].
      cbn [app] in Hsolid. rewrite <- Hsolid.
      destruct (truthy (trim (current st'))) eqn:Et.
      * rewrite concat_app. cbn [concat]. rewrite app_nil_r, !solid_app.
        now rewrite solid_trim.
      * apply truthy_false in Et.
        rewrite solid_app, <- (solid_trim (current st')), Et.
        symmetry. apply app_nil_r.
Qed.

(** *** The chunks of a text without separator *)

Lemma chunkText_plain (fuel : nat) (text : jsstring) (o : ChunkOptions) :
  valid_options o -> given (separator o) = None ->
  exists out, chunkText fuel text o = Ok out
    /\ Forall (fits (size_of o)) out
    /\ Forall (fun c => c <> []) out
    /\ (overlap_of o = 0 -> solid (concat out) = solid text).
Proof.
  intros Hv Hsep. rewrite (chunkText_valid fuel text Hv), Hsep.
  destruct Hv as [Hpos _].
  destruct (len text <=? size_of o) eqn:E.
  - apply Z.leb_le in E. eexists. split; [reflexivity|].
    destruct (truthy (trim text)) eqn:Et; repeat split; try constructor;
      try constructor.
    + apply fits_trim. exact E.
    + intros H. now rewrite H in Et.
    + intros _. cbn [concat]. now rewrite app_nil_r, solid_trim.
    + intros _. apply truthy_false in Et. now rewrite <- (solid_trim text), Et.
  - destruct (splitByBoundary_pieces text Hpos) as [Hc Hs].
    destruct (@mergeSegments_full fuel (splitByBoundary text (size_of o)) (size_of o)
                (overlap_of o)) as [out [Eo [Hf [Hne Hk]]]];
      [lia|apply splitByBoundary_fit; lia|exact Hc|].
    exists out. repeat split; try assumption.
    intros Hov. now rewrite (Hk Hov).
Qed.

(** X10: without a separator, [chunkText] returns for every text and
    every valid pair of options, on any fuel, and every chunk it returns is
    non-empty and at most [chunkSize] long. *)
Theorem chunkText_plain_chunks_fit (fuel : nat) (text : jsstring) (o : ChunkOptions) :
  valid_options o -> given (separator o) = None ->
  exists out, chunkText fuel text o = Ok out
    /\ Forall (fun c => 0 < len c <= size_of o) out.
Proof.
  intros Hv Hsep.
  destruct (chunkText_plain fuel text Hv Hsep) as [out [E [Hf [Hne _]]]].
  exists out. split; [exact E|].
  apply Forall_forall. intros c Hc.
  pose proof (proj1 (Forall_forall _ _) Hf c Hc) as H1.
  pose proof (proj1 (Forall_forall _ _) Hne c Hc) as H2.
  unfold fits in H1. split; [|exact H1].
  destruct c as [|x rest]; [congruence|]. rewrite len_cons.
  pose proof (len_nonneg rest). lia.
Qed.

Lemma chunkText_plain_chunks_fit_witness :
  exists out,
    chunkText 0 (str "one two three four five six seven") (sized 10 3) = Ok out
    /\ Forall (fun c => 0 < len c <= 10) out.
Proof.
  apply (@chunkText_plain_chunks_fit 0 (str "one two three four five six seven")
           (sized 10 3)); [cbv; repeat split; congruence|reflexivity].
Defined.

(** X11: without a separator and without overlap, the chunks hold the
    text: read one after the other and white space aside, they are the
    characters of the text, each once and in order. *)
Theorem chunkText_keeps_text (fuel : nat) (text : jsstring) (o : ChunkOptions) :
  valid_options o -> given (separator o) = None -> overlap_of o = 0 ->
  exists out, chunkText fuel text o = Ok out /\ solid (concat out) = solid text.
Proof.
  intros Hv Hsep Hov.
  destruct (chunkText_plain fuel text Hv Hsep) as [out [E [_ [_ Hk]]]].
  exists out. split; [exact E|exact (Hk Hov)].
Qed.

Lemma chunkText_keeps_text_witness :
  exists out,
    chunkText 0 (str "one two three four five six seven") (sized 10 0) = Ok out
    /\ solid (concat out) = str "onetwothreefourfivesixseven".
Proof.
  apply (@chunkText_keeps_text 0 (str "one two three four five six seven") (sized 10 0));
    [cbv; repeat split; congruence|reflexivity|reflexivity].
Defined.

(** *** No white space at the ends *)

Lemma push_trimmed (l : list jsstring) (s : jsstring) :
  Forall trimmed l -> Forall trimmed (l ++ [trim s]).
Proof.
  intros H. apply Forall_app. split; [exact H|].
  constructor; [apply trim_trimmed|constructor].
Qed.

Lemma split_oversized_trimmed (fuel : nat) (chunkSize overlap : Z) :
  forall st st', split_oversized fuel chunkSize overlap st = Ok st' ->
  Forall trimmed (chunks st) -> Forall trimmed (chunks st').
Proof.
  induction fuel as [|fuel IH]; intros st st' E H; cbn [split_oversized] in E;
    destruct (chunkSize <? len (current st)); try discriminate;
    try (injection E as <-; exact H).
  apply IH in E; [exact E|]. cbn [chunks]. now apply push_trimmed.
Qed.

Lemma mergeSegments_step_trimmed (fuel : nat) (chunkSize overlap : Z)
    (st st' : merge_state) (segment : jsstring) :
  mergeSegments_step fuel chunkSize overlap st segment = Ok st' ->
  Forall trimmed (chunks st) -> Forall trimmed (chunks st').
Proof.
  unfold mergeSegments_step. intros E H.
  destruct (len _ <=? chunkSize); [injection E as <-; exact H|].
  apply split_oversized_trimmed in E; [exact E|]. cbn [chunks].
  destruct (truthy (current st)); [now apply push_trimmed|exact H].
Qed.

Lemma mergeSegments_loop_trimmed (fuel : nat) (chunkSize overlap : Z)
    (segments : list jsstring) :
  forall st st', mergeSegments_loop fuel chunkSize overlap segments st = Ok st' ->
  Forall trimmed (chunks st) -> Forall trimmed (chunks st').
Proof.
  induction segments as [|s rest IH]; intros st st' E H; cbn [mergeSegments_loop] in E.
  - now injection E as <-.
  - destruct (mergeSegments_step fuel chunkSize overlap st s) as [st1| |] eqn:E1;
      try discriminate.
    cbn [bind] in E. eapply IH; [exact E|].
    eapply mergeSegments_step_trimmed; eassumption.
Qed.

Lemma mergeSegments_trimmed (fuel : nat) (segments : list jsstring)
    (chunkSize overlap : Z) (out : list jsstring) :
  mergeSegments fuel segments chunkSize overlap = Ok out -> Forall trimmed out.
Proof.
  unfold mergeSegments. destruct segments as [|s rest];
    [intros E; injection E as <-; constructor|].
  destruct (mergeSegments_loop _ _ _ _ _) as [st| |] eqn:E1; try discriminate.
  cbn [bind]. intros E. injection E as <-.
  apply mergeSegments_loop_trimmed in E1; [|constructor].
  destruct (truthy (trim (current st))); [now apply push_trimmed|exact E1].
Qed.

(** X12: whatever the text, the options and the separator, a chunk that
    [chunkText] returns has no white space at its start and none at its
    end: trimming it again changes nothing. *)
Theorem chunkText_chunks_trimmed (fuel : nat) (text : jsstring) (o : ChunkOptions)
    (out : list jsstring) :
  chunkText fuel text o = Ok out -> Forall (fun c => trim c = c) out.
Proof.
  unfold chunkText.
  destruct (_ <=? 0); [discriminate|].
  destruct (_ <? 0); [discriminate|].
  destruct (_ <=? _); [discriminate|].
  destruct (given (separator o)) as [sep|].
  - cbv zeta. destruct (forallb _ _).
    + intros E. injection E as <-. apply Forall_forall. intros c Hc.
      apply in_map_iff in Hc. destruct Hc as [s [<- _]]. apply trim_idem.
    + apply mergeSegments_trimmed.
  - destruct (len text <=? _).
    + intros E. injection E as <-.
      destruct (truthy (trim text)); repeat constructor. apply trim_idem.
    + apply mergeSegments_trimmed.
Qed.

Lemma chunkText_chunks_trimmed_witness :
  Forall (fun c => trim c = c) [str "This is one long line."; str "And more text here"].
Proof.
  apply (@chunkText_chunks_trimmed 1 (str "This is one long line. And more text here")
           line_options).
  vm_compute. reflexivity.
Defined.

(** *** The overlap text *)

Lemma slice_from_skipn {A} (s : list A) (start : Z) :
  slice_from s start = skipn (Z.to_nat (clamp_index (len s) start)) s.
Proof.
  unfold slice_from, slice. pose proof (len_nonneg s) as Hn.
  pose proof (clamp_index_range start Hn) as Hc.
  replace (clamp_index (len s) (len s)) with (len s)
    by (unfold clamp_index; destruct (len s <? 0) eqn:E; [apply Z.ltb_lt in E|]; lia).
  apply firstn_all2. rewrite length_skipn. unfold len in *. lia.
Qed.

Lemma skipn_suffix {A} (n : nat) (s : list A) : exists front, s = front ++ skipn n s.
Proof. exists (firstn n s). symmetry. apply firstn_skipn. Qed.

Lemma len_skipn {A} (n : nat) (s : list A) :
  len (skipn n s) = Z.max 0 (len s - Z.of_nat n).
Proof. unfold len. rewrite length_skipn. lia. Qed.

(** X13: [getOverlapText] answers an end piece of the text, at most
    [overlap] characters long; it is empty exactly when the overlap is not
    positive or the text is no longer than the overlap. *)
Theorem getOverlapText_short_suffix (text : jsstring) (overlap : Z) :
  (exists front, text = front ++ getOverlapText text overlap)
  /\ len (getOverlapText text overlap) <= Z.max 0 overlap
  /\ (getOverlapText text overlap = [] <-> overlap <= 0 \/ len text <= overlap).
Proof.
  unfold getOverlapText.
  destruct ((overlap <=? 0) || (len text <=? overlap)) eqn:E.
  - split; [exists text; now rewrite app_nil_r|]. split; [rewrite len_nil; lia|].
    split; [|reflexivity]. intros _.
    apply orb_true_iff in E. destruct E as [E|E]; apply Z.leb_le in E; auto.
  - apply orb_false_iff in E. destruct E as [E1 E2].
    apply Z.leb_gt in E1, E2. cbv zeta.
    pose proof (len_nonneg text) as Hn.
    rewrite (slice_from_skipn text).
    replace (clamp_index (len text) (- overlap)) with (len text - overlap)
      by (unfold clamp_index; replace (- overlap <? 0) with true
            by (symmetry; apply Z.ltb_lt; lia); lia).
    set (tail := skipn (Z.to_nat (len text - overlap)) text).
    assert (Ht : len tail = overlap) by (unfold tail; rewrite len_skipn; lia).
    assert (Hs : exists front, text = front ++ tail) by apply skipn_suffix.
    destruct ((0 <? search_space tail) && (search_space tail <? len tail - 1)) eqn:Eb.
    + apply andb_true_iff in Eb. destruct Eb as [B1 B2].
      apply Z.ltb_lt in B1, B2.
      rewrite (slice_from_skipn tail).
      replace (clamp_index (len tail) (search_space tail + 1)) with (search_space tail + 1)
        by (unfold clamp_index; replace (search_space tail + 1 <? 0) with false
              by (symmetry; apply Z.ltb_ge; lia); lia).
      split; [|split].
      * destruct Hs as [front Ef].
        destruct (skipn_suffix (Z.to_nat (search_space tail + 1)) tail) as [mid Em].
        exists (front ++ mid). rewrite <- app_assoc, <- Em. exact Ef.
      * rewrite len_skipn. lia.
      * split; [|intros; lia]. intros H.
        pose proof (len_skipn (Z.to_nat (search_space tail + 1)) tail) as Hl.
        rewrite H, len_nil in Hl. lia.
    + split; [exact Hs|]. split; [lia|].
      split; [|intros; lia]. intros H. rewrite H, len_nil in Ht. lia.
Qed.

(** *** The split point *)

Lemma match_sentence_end_bounds (s : jsstring) :
  forall i index length_, match_sentence_end_from s i = Some (index, length_) ->
  i <= index /\ 2 <= length_ /\ index - i + length_ <= len s.
Proof.
  induction s as [|c s IH]; intros i index length_ H; [discriminate|].
  change (match_sentence_end_from (c :: s) i)
    with (if is_terminator c && negb (count_while is_space s =? 0)%nat
          then Some (i, 1 + Z.of_nat (count_while is_space s))
          else match_sentence_end_from s (i + 1)) in H.
  destruct (is_terminator c && negb (count_while is_space s =? 0)%nat) eqn:E.
  - assert (Hi : index = i) by congruence.
    assert (Hl : length_ = 1 + Z.of_nat (count_while is_space s)) by congruence.
    clear H. subst index. apply andb_true_iff in E. destruct E as [_ E].
    apply negb_true_iff, Nat.eqb_neq in E. rewrite len_cons.
    assert (Hc : (count_while is_space s <= length s)%nat).
    { clear. induction s as [|c s IH]; simpl; [lia|]. destruct (is_space c); lia. }
    unfold len. lia.
  - apply IH in H. rewrite len_cons. lia.
Qed.

Lemma last_index_bounds (c : char) (s : jsstring) :
  forall i from best, last_index_from c s i from best = best
    \/ (i <= last_index_from c s i from best <= from).
Proof.
  induction s as [|d s IH]; intros i from best; cbn [last_index_from]; [now left|].
  destruct ((d =? c)%N && (i <=? from)) eqn:E.
  - apply andb_true_iff in E. destruct E as [_ E]. apply Z.leb_le in E.
    destruct (IH (i + 1) from i) as [H|H]; right; lia.
  - destruct (IH (i + 1) from best) as [H|H]; [now left|right; lia].
Qed.

Lemma findSplitPoint_range (text : jsstring) (target : Z) :
  0 < target -> target < len text ->
  0 < findSplitPoint text target <= Z.min (len text) (target + 50).
Proof.
  intros Ht Hlen. unfold findSplitPoint.
  replace (len text <=? target) with false by (symmetry; apply Z.leb_gt; lia).
  cbv zeta.
  set (searchStart := Z.max 0 (target - 50)).
  set (searchEnd := Z.min (len text) (target + 50)).
  destruct (match_sentence_end _) as [[index length_]|] eqn:Em.
  - unfold match_sentence_end in Em. apply match_sentence_end_bounds in Em.
    pose proof (@slice_length_le _ text searchStart searchEnd) as Hs.
    subst searchStart searchEnd. lia.
  - unfold lastIndexOf.
    destruct (last_index_bounds SPACE text 0 target (-1)) as [H|H]; rewrite ?H.
    + replace (target <? 2 * -1) with false by (symmetry; apply Z.ltb_ge; lia).
      subst searchEnd. lia.
    + destruct (target <? _) eqn:E; [apply Z.ltb_lt in E|]; subst searchEnd; lia.
Qed.

(** X14: [findSplitPoint] answers a positive index inside the text.  A
    text no longer than the target is cut at its end; a longer one is cut
    at most 50 characters behind the target, and never behind its end. *)
Theorem findSplitPoint_bounds (text : jsstring) (target : Z) :
  0 < target ->
  (len text <= target -> findSplitPoint text target = len text)
  /\ (target < len text ->
      0 < findSplitPoint text target <= Z.min (len text) (target + 50)).
Proof.
  intros Ht. split.
  - intros H. unfold findSplitPoint. apply Z.leb_le in H. now rewrite H.
  - now apply findSplitPoint_range.
Qed.

Lemma findSplitPoint_bounds_witness :
  0 < findSplitPoint (str "This is one long line. And more text here") 20
    <= Z.min (len (str "This is one long line. And more text here")) (20 + 50).
Proof.
  apply (proj2 (@findSplitPoint_bounds (str "This is one long line. And more text here") 20
                  ltac:(lia))).
  vm_compute. reflexivity.
Defined.

(** *** The size of a chunk, with or without separator *)

Lemma split_oversized_bound (fuel : nat) (chunkSize overlap : Z) :
  0 < chunkSize ->
  forall st st', split_oversized fuel chunkSize overlap st = Ok st' ->
  Forall (fits (chunkSize + 50)) (chunks st) ->
  Forall (fits (chunkSize + 50)) (chunks st') /\ fits chunkSize (current st').
Proof.
  intros Hn. induction fuel as [|fuel IH]; intros st st' E H; cbn [split_oversized] in E;
    destruct (chunkSize <? len (current st)) eqn:El; try discriminate;
    try (injection E as <-; split; [exact H|]; apply Z.ltb_ge in El; exact El).
  apply IH in E; [exact E|]. cbn [chunks].
  apply push_fits; [exact H|]. apply fits_trim. unfold fits.
  apply Z.ltb_lt in El.
  pose proof (findSplitPoint_range (current st) Hn El) as Hp.
  pose proof (@slice_length_le _ (current st) 0 (findSplitPoint (current st) chunkSize)).
  lia.
Qed.

Lemma fits_wider (n : Z) (l : list jsstring) :
  Forall (fits n) l -> Forall (fits (n + 50)) l.
Proof. apply Forall_impl. unfold fits. intros; lia. Qed.

Lemma mergeSegments_step_bound (fuel : nat) (chunkSize overlap : Z)
    (st st' : merge_state) (segment : jsstring) :
  0 < chunkSize ->
  mergeSegments_step fuel chunkSize overlap st segment = Ok st' ->
  Forall (fits (chunkSize + 50)) (chunks st) /\ fits chunkSize (current st) ->
  Forall (fits (chunkSize + 50)) (chunks st') /\ fits chunkSize (current st').
Proof.
  intros Hn E [Hc Hcur]. unfold mergeSegments_step in E.
  destruct (len _ <=? chunkSize) eqn:Hcand.
  - injection E as <-. cbn [chunks current]. split; [exact Hc|].
    apply Z.leb_le in Hcand. exact Hcand.
  - eapply split_oversized_bound in E; [exact E|exact Hn|]. cbn [chunks].
    destruct (truthy (current st)); [|exact Hc].
    apply push_fits; [exact Hc|]. apply fits_trim. unfold fits in *. lia.
Qed.

Lemma mergeSegments_loop_bound (fuel : nat) (chunkSize overlap : Z)
    (segments : list jsstring) :
  0 < chunkSize ->
  forall st st', mergeSegments_loop fuel chunkSize overlap segments st = Ok st' ->
  Forall (fits (chunkSize + 50)) (chunks st) /\ fits chunkSize (current st) ->
  Forall (fits (chunkSize + 50)) (chunks st') /\ fits chunkSize (current st').
Proof.
  intros Hn. induction segments as [|s rest IH]; intros st st' E H;
    cbn [mergeSegments_loop] in E.
  - now injection E as <-.
  - destruct (mergeSegments_step fuel chunkSize overlap st s) as [st1| |] eqn:E1;
      try discriminate.
    cbn [bind] in E. eapply IH; [exact E|].
    eapply mergeSegments_step_bound; eassumption.
Qed.

Lemma mergeSegments_bound (fuel : nat) (segments : list jsstring)
    (chunkSize overlap : Z) (out : list jsstring) :
  0 < chunkSize ->
  mergeSegments fuel segments chunkSize overlap = Ok out ->
  Forall (fits (chunkSize + 50)) out.
Proof.
  intros Hn. unfold mergeSegments. destruct segments as [|s rest];
    [intros E; injection E as <-; constructor|].
  destruct (mergeSegments_loop _ _ _ _ _) as [st| |] eqn:E1; try discriminate.
  cbn [bind]. intros E. injection E as <-.
  eapply mergeSegments_loop_bound in E1; [|exact Hn|].
  - destruct E1 as [Hc Hcur].
    destruct (truthy (trim (current st))); [|exact Hc].
    apply push_fits; [exact Hc|]. apply fits_trim. unfold fits in *. lia.
  - cbn [chunks current]. split; [constructor|]. unfold fits. rewrite len_nil. lia.
Qed.

(** X15: the size of a chunk in general.  Whatever the separator, a
    chunk that [chunkText] returns is at most 50 characters longer than
    [chunkSize]: the window in which a running chunk that has grown too
    long is cut at a sentence end. *)
Theorem chunkText_chunks_within_window (fuel : nat) (text : jsstring)
    (o : ChunkOptions) (out : list jsstring) :
  chunkText fuel text o = Ok out ->
  Forall (fun c => len c <= size_of o + 50) out.
Proof.
  unfold chunkText. fold (size_of o). fold (overlap_of o).
  destruct (size_of o <=? 0) eqn:E1; [discriminate|]. apply Z.leb_gt in E1.
  destruct (_ <? 0); [discriminate|].
  destruct (_ <=? _); [discriminate|].
  destruct (given (separator o)) as [sep|].
  - cbv zeta. destruct (forallb _ _) eqn:Ef.
    + intros E. injection E as <-. apply Forall_forall. intros c Hc.
      apply in_map_iff in Hc. destruct Hc as [s [<- Hs]].
      pose proof (proj1 (forallb_forall _ _) Ef s Hs) as Hfit. cbv beta in Hfit.
      apply Z.leb_le in Hfit. pose proof (trim_length s). lia.
    + now apply mergeSegments_bound.
  - destruct (len text <=? _) eqn:El.
    + intros E. injection E as <-. apply Z.leb_le in El.
      pose proof (trim_length text).
      destruct (truthy (trim text)); repeat constructor. lia.
    + now apply mergeSegments_bound.
Qed.

Lemma chunkText_chunks_within_window_witness :
  Forall (fun c => len c <= 20 + 50)
    [str "This is one long line."; str "And more text here"].
Proof.
  apply (@chunkText_chunks_within_window 1
           (str "This is one long line. And more text here") line_options).
  vm_compute. reflexivity.
Defined.

End ChunkerLawsProperties.

(** ** Chunks with ids *)

Module DocumentsProperties.

Import Chunker Store ChunkerSpec StoreProperties Documents DocumentsLaws.

(** *** Tables *)

Lemma str_eqb_refl (a : jsstring) : str_eqb a a = true.
Proof. now apply str_eqb_eq. Qed.

Lemma str_eqb_neq (a b : jsstring) : str_eqb a b = false <-> a <> b.
Proof.
  rewrite <- str_eqb_eq. destruct (str_eqb a b); split; congruence.
Qed.

Lemma lookup_assign_same {V} (k : jsstring) (v : V) (t : list (jsstring * V)) :
  Table.lookup k (Table.assign k v t) = Some v.
Proof.
  induction t as [|[k' v'] t IH]; simpl.
  - now rewrite str_eqb_refl.
  - destruct (str_eqb k' k) eqn:E; simpl; [now rewrite str_eqb_refl|].
    now rewrite E.
Qed.

Lemma lookup_assign_other {V} (k j : jsstring) (v : V) (t : list (jsstring * V)) :
  j <> k -> Table.lookup j (Table.assign k v t) = Table.lookup j t.
Proof.
  intros H. induction t as [|[k' v'] t IH]; simpl.
  - apply not_eq_sym, str_eqb_neq in H. now rewrite H.
  - destruct (str_eqb k' k) eqn:E; simpl.
    + apply str_eqb_eq in E. subst k'.
      apply not_eq_sym, str_eqb_neq in H. now rewrite H.
    + destruct (str_eqb k' j); [reflexivity|exact IH].
Qed.

(** *** Indices in decimal *)

Lemma str_inj (a b : string) : str a = str b -> a = b.
Proof.
  unfold str. intros H.
  rewrite <- (string_of_list_ascii_of_string a), <- (string_of_list_ascii_of_string b).
  f_equal. revert H. generalize (list_ascii_of_string a) (list_ascii_of_string b).
  induction l as [|x l IH]; intros [|y l'] H; simpl in H; try discriminate; [reflexivity|].
  injection H as Hx Hl. f_equal; [|auto].
  rewrite <- (ascii_N_embedding x), <- (ascii_N_embedding y). now rewrite Hx.
Qed.

Lemma to_uint_nonnil (n : N) : N.to_uint n <> Decimal.Nil.
Proof.
  destruct n as [|p]; [discriminate|]. apply DecimalPos.Unsigned.to_uint_nonnil.
Qed.

Lemma index_to_string_inj (i j : nat) :
  Number.index_to_string i = Number.index_to_string j -> i = j.
Proof.
  unfold Number.index_to_string. intros H. apply str_inj in H.
  apply (f_equal NilZero.uint_of_string) in H.
  rewrite !NilZero.usu in H by apply to_uint_nonnil.
  injection H as H. apply DecimalN.Unsigned.to_uint_inj in H. lia.
Qed.

Lemma string_of_uint_digits (d : Decimal.uint) :
  Forall is_digit (str (NilEmpty.string_of_uint d)).
Proof.
  unfold is_digit. induction d; simpl; constructor; try assumption; cbv; split; congruence.
Qed.

Lemma index_to_string_digits (i : nat) : Forall is_digit (Number.index_to_string i).
Proof.
  unfold Number.index_to_string. destruct (N.to_uint (N.of_nat i)) eqn:E;
    try apply string_of_uint_digits.
  repeat constructor; cbv; congruence.
Qed.

Lemma dash_splits (xs ys front back : jsstring) :
  Forall is_digit xs -> Forall is_digit ys ->
  xs ++ 45%N :: front = ys ++ 45%N :: back ->
  xs = ys /\ front = back.
Proof.
  intros Hx. revert ys. induction Hx as [|x xs Hx _ IH]; intros ys Hy E.
  - destruct Hy as [|y ys Hy _]; simpl in E.
    + split; congruence.
    + exfalso. injection E as E _. subst y. unfold is_digit in Hy. lia.
  - destruct Hy as [|y ys Hy Hys]; simpl in E.
    + exfalso. injection E as E _. subst x. unfold is_digit in Hx. lia.
    + injection E as -> E. destruct (IH ys Hys E) as [-> ->]. now split.
Qed.

(** An id tells the document and the number of the chunk. *)
Lemma label_inj (a b : jsstring) (i j : nat) :
  label a i = label b j -> a = b /\ i = j.
Proof.
  unfold label. intros H. apply (f_equal (@rev _)) in H.
  rewrite !rev_app_distr in H. change (rev (str "-")) with [45%N] in H.
  rewrite <- !app_assoc in H. cbn [app] in H.
  apply dash_splits in H; try (apply Forall_rev; apply index_to_string_digits).
  destruct H as [H1 H2].
  apply (f_equal (@rev _)) in H1, H2. rewrite !rev_involutive in H1, H2.
  split; [exact H2|]. now apply index_to_string_inj.
Qed.

(** *** [createChunks] *)

Lemma map_indexed_nth {A B} (f : A -> nat -> B) (l : list A) :
  forall k i, nth_error (map_indexed f l k) i
              = option_map (fun x => f x (k + i)%nat) (nth_error l i).
Proof.
  induction l as [|x l IH]; intros k [|i]; simpl; try reflexivity.
  - now rewrite Nat.add_0_r.
  - rewrite IH. now replace (S k + i)%nat with (k + S i)%nat by lia.
Qed.

Lemma map_indexed_length {A B} (f : A -> nat -> B) (l : list A) :
  forall k, length (map_indexed f l k) = length l.
Proof. induction l as [|x l IH]; intros k; simpl; [reflexivity|]. now rewrite IH. Qed.

Lemma createChunks_cases (fuel : nat) (text baseId : jsstring)
    (metadata : option Metadata) (options : option ChunkOptions) :
  createChunks fuel text baseId metadata options
  = match chunkText fuel text (default no_options options) with
    | Ok texts => Ok (map_indexed (chunk_of baseId metadata (length texts)) texts 0%nat)
    | Throw e => Throw e
    | OutOfFuel => OutOfFuel
    end.
Proof.
  unfold createChunks. now destruct (chunkText _ _ _).
Qed.

(** X16: [createChunks] gives one chunk for each text that [chunkText]
    returns, in order, and throws what [chunkText] throws.  The chunk
    number [i] has the id [baseId-i] with [i] in decimal and the text
    number [i] as content; in its metadata [chunkIndex] is [i] and
    [totalChunks] the number of chunks, also when the metadata given hold
    these keys, and every other key has the value the metadata given have
    for it. *)
Theorem createChunks_labels_chunks (fuel : nat) (text baseId : jsstring)
    (metadata : option Metadata) (options : option ChunkOptions) :
  (forall e, chunkText fuel text (default no_options options) = Throw e ->
     createChunks fuel text baseId metadata options = Throw e)
  /\ (forall texts, chunkText fuel text (default no_options options) = Ok texts ->
     exists chunks_,
       createChunks fuel text baseId metadata options = Ok chunks_
       /\ length chunks_ = length texts
       /\ forall i content, nth_error texts i = Some content ->
          exists c m,
            nth_error chunks_ i = Some c
            /\ chunk_id c = baseId ++ str "-" ++ Number.index_to_string i
            /\ chunk_content c = content
            /\ chunk_metadata c = Some m
            /\ Table.lookup (str "chunkIndex") m
               = Some (JNumber (Number.of_Z (Z.of_nat i)))
            /\ Table.lookup (str "totalChunks") m
               = Some (JNumber (Number.of_Z (Z.of_nat (length texts))))
            /\ forall key, key <> str "chunkIndex" -> key <> str "totalChunks" ->
                 Table.lookup key m = Table.lookup key (default [] metadata)).
Proof.
  rewrite createChunks_cases. split.
  - now intros e ->.
  - intros texts ->. eexists. split; [reflexivity|].
    split; [apply map_indexed_length|].
    intros i content Hi. eexists. eexists.
    rewrite map_indexed_nth, Hi. cbn [option_map Nat.add chunk_of chunk_id chunk_content
                                      chunk_metadata].
    repeat split.
    + unfold chunk_metadata_of. rewrite lookup_assign_other by (intros H; discriminate H).
      apply lookup_assign_same.
    + unfold chunk_metadata_of. apply lookup_assign_same.
    + intros key H1 H2. unfold chunk_metadata_of.
      now rewrite !lookup_assign_other by assumption.
Qed.

Lemma createChunks_labels_chunks_witness :
  exists chunks_,
    createChunks 0 two_paragraphs (str "doc1") None (Some size_20) = Ok chunks_
    /\ length chunks_ = 2%nat.
Proof.
  destruct (proj2 (createChunks_labels_chunks 0 two_paragraphs (str "doc1") None
                     (Some size_20))
              [str "First paragraph."; str "Second paragraph."])
    as [chunks_ [E [Hlen _]]].
  - vm_compute. reflexivity.
  - exists chunks_. split; [exact E|exact Hlen].
Defined.

(** *** Ids *)

Lemma map_indexed_ids (baseId : jsstring) (metadata : option Metadata) (total : nat)
    (texts : list jsstring) :
  forall k, map chunk_id (map_indexed (chunk_of baseId metadata total) texts k)
            = map (label baseId) (seq k (length texts)).
Proof.
  induction texts as [|t texts IH]; intros k; simpl; [reflexivity|]. now rewrite IH.
Qed.

Lemma createChunks_ids (fuel : nat) (text baseId : jsstring)
    (metadata : option Metadata) (options : option ChunkOptions) (chunks_ : list Chunk) :
  createChunks fuel text baseId metadata options = Ok chunks_ ->
  map chunk_id chunks_ = map (label baseId) (seq 0 (length chunks_)).
Proof.
  rewrite createChunks_cases.
  destruct (chunkText _ _ _) as [texts| |]; try discriminate.
  intros H. injection H as <-. now rewrite map_indexed_ids, map_indexed_length.
Qed.

Lemma labels_NoDup (baseId : jsstring) (l : list nat) :
  NoDup l -> NoDup (map (label baseId) l).
Proof.
  induction 1 as [|i l Hi _ IH]; simpl; constructor; [|exact IH].
  intros H. apply in_map_iff in H. destruct H as [j [E Hj]].
  apply label_inj in E. destruct E as [_ ->]. contradiction.
Qed.

Lemma createChunksFromDocuments_ids (fuel : nat) (options : option ChunkOptions)
    (documents : list Document) :
  forall out, createChunksFromDocuments fuel documents options = Ok out ->
  Forall (fun c => exists doc i, In doc documents /\ chunk_id c = label (doc_id doc) i) out
  /\ (NoDup (map doc_id documents) -> NoDup (map chunk_id out)).
Proof.
  induction documents as [|doc rest IH]; intros out E; cbn [createChunksFromDocuments] in E.
  - injection E as <-. split; constructor.
  - destruct (createChunks fuel (doc_content doc) (doc_id doc) (doc_metadata doc) options)
      as [first| |] eqn:E1; try discriminate.
    cbn [bind] in E.
    destruct (createChunksFromDocuments fuel rest options) as [more| |]; try discriminate.
    cbn [bind] in E. injection E as <-.
    destruct (IH more eq_refl) as [Hmore Hdup].
    pose proof (createChunks_ids _ _ _ _ _ E1) as Hids.
    assert (Hfirst : Forall (fun c => exists i, chunk_id c = label (doc_id doc) i) first).
    { apply Forall_forall. intros c Hc.
      assert (Hin : In (chunk_id c) (map chunk_id first)) by now apply in_map.
      rewrite Hids in Hin. apply in_map_iff in Hin. destruct Hin as [i [Hi _]]. eauto. }
    split.
    + apply Forall_app. split.
      * eapply Forall_impl; [|exact Hfirst]. intros c [i Hi]. exists doc, i.
        split; [now left|exact Hi].
      * eapply Forall_impl; [|exact Hmore]. intros c [d [i [Hd Hi]]]. exists d, i.
        split; [now right|exact Hi].
    + intros Hnd. cbn [map] in Hnd. apply NoDup_cons_iff in Hnd. destruct Hnd as [Hfresh Hnd].
      rewrite map_app. apply NoDup_app; repeat split.
      * rewrite Hids. apply labels_NoDup, seq_NoDup.
      * now apply Hdup.
      * intros x Hx1 Hx2.
        apply in_map_iff in Hx1. destruct Hx1 as [c1 [<- Hc1]].
        apply in_map_iff in Hx2. destruct Hx2 as [c2 [E2 Hc2]].
        destruct (proj1 (Forall_forall _ _) Hfirst c1 Hc1) as [i Hi].
        destruct (proj1 (Forall_forall _ _) Hmore c2 Hc2) as [d [j [Hd Hj]]].
        rewrite Hi, Hj in E2. apply label_inj in E2. destruct E2 as [E2 _].
        apply Hfresh. rewrite <- E2. now apply in_map.
Qed.

(** X17: the ids that chunking gives are distinct.  The chunks of one
    [createChunks] call have pairwise different ids, and so have the chunks
    of one [createChunksFromDocuments] call on documents with pairwise
    different ids: an id [baseId-i] tells both the document and the
    number. *)
Theorem chunk_ids_are_distinct (fuel : nat) (options : option ChunkOptions) :
  (forall text baseId metadata chunks_,
     createChunks fuel text baseId metadata options = Ok chunks_ ->
     NoDup (map chunk_id chunks_))
  /\ (forall documents chunks_,
     createChunksFromDocuments fuel documents options = Ok chunks_ ->
     NoDup (map doc_id documents) ->
     NoDup (map chunk_id chunks_))
  /\ (forall a b i j,
     a ++ str "-" ++ Number.index_to_string i = b ++ str "-" ++ Number.index_to_string j ->
     a = b /\ i = j).
Proof.
  split; [|split].
  - intros text baseId metadata chunks_ E.
    rewrite (createChunks_ids _ _ _ _ _ E). apply labels_NoDup, seq_NoDup.
  - intros documents chunks_ E.
    exact (proj2 (@createChunksFromDocuments_ids fuel options documents chunks_ E)).
  - intros a b i j. apply label_inj.
Qed.

(** X18: [createChunksFromDocuments] looks at the options only when it
    chunks a document.  On an empty list of documents it returns no chunk
    whatever the options; on any other list, options that [chunkText]
    refuses make it throw the argument error.  When it returns, every
    chunk carries the id of one of the documents, followed by a dash and
    a number. *)
Theorem createChunksFromDocuments_edges (fuel : nat) (options : option ChunkOptions) :
  createChunksFromDocuments fuel [] options = Ok []
  /\ (forall doc rest,
      size_of (default no_options options) <= 0 ->
      exists msg,
        createChunksFromDocuments fuel (doc :: rest) options
        = Throw (InvalidArgument msg))
  /\ (forall documents out,
      createChunksFromDocuments fuel documents options = Ok out ->
      Forall (fun c => exists doc i,
                In doc documents
                /\ chunk_id c = doc_id doc ++ str "-" ++ Number.index_to_string i) out).
Proof.
  split; [reflexivity|]. split.
  - intros doc rest H. cbn [createChunksFromDocuments].
    rewrite createChunks_cases. unfold chunkText.
    fold (size_of (default no_options options)).
    apply Z.leb_le in H. rewrite H. cbn [bind]. eauto.
  - intros documents out E.
    exact (proj1 (@createChunksFromDocuments_ids fuel options documents out E)).
Qed.

End DocumentsProperties.

(** ** The mock embedding provider *)

Module EmbeddingsProperties.

Import Embeddings EmbeddingsLaws.

(** *** The hash of a text *)

Lemma ToInt32_range (z : Z) : -2147483648 <= Number.ToInt32 z < 2147483648.
Proof.
  unfold Number.ToInt32.
  pose proof (Z.mod_pos_bound (z + 2147483648) 4294967296 ltac:(lia)). lia.
Qed.

Lemma ToInt32_shift (z : Z) : exists k, Number.ToInt32 z = z + k * 4294967296.
Proof.
  exists (- ((z + 2147483648) / 4294967296)). unfold Number.ToInt32.
  pose proof (Z.div_mod (z + 2147483648) 4294967296 ltac:(lia)). lia.
Qed.

Lemma ToInt32_congr (a k : Z) : Number.ToInt32 (a + k * 4294967296) = Number.ToInt32 a.
Proof.
  unfold Number.ToInt32.
  replace (a + k * 4294967296 + 2147483648) with (a + 2147483648 + k * 4294967296) by lia.
  now rewrite Z_mod_plus_full.
Qed.

Lemma hashCode_step_polynomial (x : Z) (c : char) :
  hashCode_step (Number.ToInt32 x) c = Number.ToInt32 (31 * x + Z.of_N c).
Proof.
  unfold hashCode_step. rewrite Z.shiftl_mul_pow2 by lia.
  destruct (ToInt32_shift x) as [k1 E1].
  destruct (ToInt32_shift (Number.ToInt32 x * 2 ^ 5)) as [k2 E2].
  rewrite E2, E1.
  replace ((x + k1 * 4294967296) * 2 ^ 5 + k2 * 4294967296 - (x + k1 * 4294967296)
           + Z.of_N c)
    with (31 * x + Z.of_N c + (31 * k1 + k2) * 4294967296) by lia.
  apply ToInt32_congr.
Qed.

Lemma fold_hashCode_polynomial (s : jsstring) :
  forall x,
  fold_left hashCode_step s (Number.ToInt32 x)
  = Number.ToInt32 (fold_left (fun h c => 31 * h + Z.of_N c) s x).
Proof.
  induction s as [|c s IH]; intros x; cbn [fold_left]; [reflexivity|].
  now rewrite hashCode_step_polynomial, IH.
Qed.

(** X19: [hashCode] is the absolute value of the polynomial hash of the
    text, taken in 32-bit two's complement: the sum of the code units
    times the powers of 31, the last unit with power 0.  It lies between
    0 and 2^31, both included, and is 0 for the empty text. *)
Theorem hashCode_is_polynomial (s : jsstring) :
  hashCode s = Z.abs (Number.ToInt32 (polynomial s))
  /\ 0 <= hashCode s <= 2147483648
  /\ hashCode [] = 0.
Proof.
  assert (E : hashCode s = Z.abs (Number.ToInt32 (polynomial s))).
  { unfold hashCode, polynomial.
    change 0 with (Number.ToInt32 0) at 1. now rewrite fold_hashCode_polynomial. }
  split; [exact E|]. split; [|reflexivity].
  rewrite E. pose proof (ToInt32_range (polynomial s)). lia.
Qed.

(** *** The vectors *)

Lemma components_length (n : nat) : forall seed, length (components n seed) = n.
Proof. induction n as [|n IH]; intros seed; simpl; [reflexivity|]. now rewrite IH. Qed.

Lemma generateVector_length (d : Z) (text : jsstring) :
  length (generateVector d text) = Z.to_nat d.
Proof. unfold generateVector. now rewrite length_map, components_length. Qed.

Lemma lookup_assign_eq {V} (k j : jsstring) (v : V) (t : list (jsstring * V)) :
  Table.lookup j (Table.assign k v t)
  = if Store.str_eqb k j then Some v else Table.lookup j t.
Proof.
  induction t as [|[k' v'] t IH]; simpl; [reflexivity|].
  destruct (Store.str_eqb k' k) eqn:E; simpl.
  - apply StoreProperties.str_eqb_eq in E. subst k'.
    now destruct (Store.str_eqb k j).
  - destruct (Store.str_eqb k' j) eqn:E2; [|exact IH].
    destruct (Store.str_eqb k j) eqn:E3; [|reflexivity].
    apply StoreProperties.str_eqb_eq in E2, E3. subst. 
    assert (Store.str_eqb j j = true) by now apply StoreProperties.str_eqb_eq.
    congruence.
Qed.

Lemma mock_embed_answers (d : Z) (texts : list jsstring) :
  forall vectors, coherent d vectors ->
  fst (mock_embed d texts vectors) = map (generateVector d) texts
  /\ coherent d (snd (mock_embed d texts vectors)).
Proof.
  induction texts as [|text rest IH]; intros vectors H; cbn [mock_embed map].
  - now split.
  - destruct (Table.lookup text vectors) as [v|] eqn:E.
    + destruct (IH vectors H) as [H1 H2].
      destruct (mock_embed d rest vectors) as [more vectors2]. cbn [fst snd] in *.
      split; [|exact H2]. rewrite H1. f_equal. now apply H.
    + assert (H' : coherent d (Table.assign text (generateVector d text) vectors)).
      { intros t v. rewrite lookup_assign_eq.
        destruct (Store.str_eqb text t) eqn:Et; [|apply H].
        apply StoreProperties.str_eqb_eq in Et. subst t. congruence. }
      destruct (IH _ H') as [H1 H2].
      destruct (mock_embed d rest _) as [more vectors2]. cbn [fst snd] in *.
      split; [|exact H2]. now rewrite H1.
Qed.

Lemma after_mock (dims : option Z) (calls : list (list jsstring)) :
  let p := after calls (MockEmbedding dims) in
  model p = str "mock" /\ dimensions p = default 384 dims
  /\ embed_with p = embed_with (MockEmbedding dims)
  /\ coherent (default 384 dims) (state p).
Proof.
  unfold after.
  assert (G : forall p, model p = str "mock" /\ dimensions p = default 384 dims
                /\ embed_with p = embed_with (MockEmbedding dims)
                /\ coherent (default 384 dims) (state p) ->
              let q := fold_left (fun q texts => snd (embed texts q)) calls p in
              model q = str "mock" /\ dimensions q = default 384 dims
              /\ embed_with q = embed_with (MockEmbedding dims)
              /\ coherent (default 384 dims) (state q)).
  { induction calls as [|texts calls IH]; intros p Hp; cbn [fold_left]; [exact Hp|].
    apply IH. destruct Hp as [Hm [Hd [He Hc]]].
    unfold embed. rewrite He. cbn [embed_with MockEmbedding].
    destruct (mock_embed_answers texts Hc) as [_ H2].
    destruct (mock_embed (default 384 dims) texts (state p)) as [answer vectors1].
    cbn [snd model dimensions state embed_with] in *. auto. }
  apply G. cbn. repeat split; auto. intros text v H. discriminate H.
Qed.

(** X20: what [MockEmbedding] answers does not depend on the calls made
    before.  After any series of [embed] calls, [embed] resolves to one
    vector for each text, in order, each the vector that [generateVector]
    computes from the text alone, so the same text gets the same vector in
    every call; with non-negative dimensions each vector has that many
    entries.  The model name stays ["mock"] and the dimensions stay what
    the constructor was given, 384 by default. *)
Theorem MockEmbedding_embeds_by_text (dims : option Z)
    (calls : list (list jsstring)) (texts : list jsstring) :
  let p := after calls (MockEmbedding dims) in
  fst (embed texts p) = Ok (map (generateVector (default 384 dims)) texts)
  /\ (0 <= default 384 dims ->
      Forall (fun v => len v = default 384 dims)
             (map (generateVector (default 384 dims)) texts))
  /\ model (snd (embed texts p)) = str "mock"
  /\ dimensions (snd (embed texts p)) = default 384 dims.
Proof.
  cbv zeta. destruct (after_mock dims calls) as [Hm [Hd [He Hc]]].
  unfold embed at 1 2 3. rewrite He. cbn [embed_with MockEmbedding].
  destruct (mock_embed_answers texts Hc) as [H1 _].
  destruct (mock_embed (default 384 dims) texts _) as [answer vectors1].
  cbn [fst snd model dimensions] in *. subst answer.
  repeat split; auto.
  intros Hpos. apply Forall_forall. intros v Hv.
  apply in_map_iff in Hv. destruct Hv as [text [<- _]].
  unfold len. rewrite generateVector_length. lia.
Qed.

End EmbeddingsProperties.

(** ** The [RAG] class *)

Module RagProperties.

Import Store StoreSpec StoreProperties Documents DocumentsLaws Rag RagLaws.

(** *** Removing a document *)

Lemma findIndex_behind (i : jsstring) (kept : list EmbeddedChunk) (c : EmbeddedChunk)
    (rest : list EmbeddedChunk) :
  Forall (fun x => id x <> i) kept -> id c = i ->
  findIndex (has_id i) (kept ++ c :: rest) = Some (length kept)
  /\ splice1 (length kept) (kept ++ c :: rest) = kept ++ rest.
Proof.
  intros Hk Hc. induction Hk as [|x kept Hx _ [IH1 IH2]]; simpl.
  - unfold has_id. apply str_eqb_eq in Hc. now rewrite Hc.
  - unfold has_id at 1. destruct (str_eqb (id x) i) eqn:E;
      [apply str_eqb_eq in E; contradiction|].
    now rewrite IH1, IH2.
Qed.

Lemma starts_with_length (p s : jsstring) :
  starts_with p s = true -> exists rest, s = p ++ rest.
Proof.
  revert s. induction p as [|a p IH]; intros s H; [now exists s|].
  destruct s as [|b s]; [discriminate|]. simpl in H.
  apply andb_true_iff in H. destruct H as [Hab H]. apply N.eqb_eq in Hab. subst b.
  destruct (IH s H) as [rest ->]. now exists rest.
Qed.

Lemma starts_with_app (p rest : jsstring) : starts_with p (p ++ rest) = true.
Proof. induction p as [|a p IH]; simpl; [reflexivity|]. now rewrite N.eqb_refl. Qed.

Lemma remove_behind (kept : list EmbeddedChunk) (c : EmbeddedChunk)
    (rest : list EmbeddedChunk) (model_ : jsstring) (dimensions_ : Z) :
  Forall (fun x => id x <> id c) kept ->
  Store.remove (id c)
    {| chunks := kept ++ c :: rest; Store.model := model_;
       Store.dimensions := dimensions_ |}
  = (true, {| chunks := kept ++ rest; Store.model := model_;
              Store.dimensions := dimensions_ |}).
Proof.
  intros Hk. destruct (findIndex_behind c rest Hk eq_refl) as [E1 E2].
  unfold Store.remove. cbn [chunks Store.model Store.dimensions]. now rewrite E1, E2.
Qed.

Lemma remove_each_fold (documentId : jsstring) (cs : list EmbeddedChunk) :
  forall kept n model_ dimensions_,
  Forall (fun c => belongs documentId c = false) kept ->
  fold_left
    (fun acc id_ =>
       let '(found, st1) := Store.remove id_ (snd acc) in
       (if found then fst acc + 1 else fst acc, st1))
    (map id (List.filter (belongs documentId) cs))
    (n, {| chunks := kept ++ cs; Store.model := model_; Store.dimensions := dimensions_ |})
  = (n + len (List.filter (belongs documentId) cs),
     {| chunks := kept ++ List.filter (fun c => negb (belongs documentId c)) cs;
        Store.model := model_; Store.dimensions := dimensions_ |}).
Proof.
  induction cs as [|c cs IH]; intros kept n model_ dimensions_ Hk.
  - cbn. f_equal. unfold len. simpl. lia.
  - cbn [List.filter]. destruct (belongs documentId c) eqn:Ec; cbn [negb map fold_left].
    + assert (Hids : Forall (fun x => id x <> id c) kept).
      { eapply Forall_impl; [|exact Hk]. cbv beta. intros x Hx E.
        unfold belongs in *. rewrite E in Hx. congruence. }
      cbn [snd fst]. rewrite (remove_behind c cs model_ dimensions_ Hids).
      cbv iota beta. rewrite IH by exact Hk. rewrite len_cons. f_equal. lia.
    + replace (kept ++ c :: cs) with ((kept ++ [c]) ++ cs) by now rewrite <- app_assoc.
      rewrite IH.
      * now rewrite <- app_assoc.
      * apply Forall_app. split; [exact Hk|]. now constructor.
Qed.

Lemma removeDocument_parts (State : Type) (documentId : jsstring) (r : RAG State) :
  fst (removeDocument documentId r)
  = len (List.filter (belongs documentId) (chunks (store r)))
  /\ store (snd (removeDocument documentId r))
     = with_chunks (store r)
         (List.filter (fun c => negb (belongs documentId c)) (chunks (store r))).
Proof.
  unfold removeDocument, remove_each.
  change (fun c : EmbeddedChunk => starts_with (documentId ++ str "-") (id c))
    with (belongs documentId).
  destruct (store r) as [cs m d] eqn:Es. cbn [chunks].
  pose proof (@remove_each_fold documentId cs [] 0 m d (Forall_nil _)) as H.
  cbn [app] in H. rewrite H. now split.
Qed.

(** X21: [removeDocument] takes out of the store every record whose id
    starts with the id of the document and a dash, also a record stored
    more than once under such an id, and leaves the others in their order;
    it answers how many it took out.  The records of a document whose own id
    starts with that prefix go with them.  Model name, dimensions, provider
    and options stay as they were. *)
Theorem removeDocument_takes_prefixed (State : Type) (documentId : jsstring)
    (r : RAG State) :
  removeDocument documentId r
  = (len (List.filter (belongs documentId) (chunks (store r))),
     with_store r
       (with_chunks (store r)
          (List.filter (fun c => negb (belongs documentId c)) (chunks (store r))))
       (initialized r))
  /\ forall other c,
       starts_with (documentId ++ str "-") other = true ->
       belongs other c = true -> belongs documentId c = true.
Proof.
  split.
  - unfold removeDocument, remove_each.
    change (fun c : EmbeddedChunk => starts_with (documentId ++ str "-") (id c))
      with (belongs documentId).
    destruct (store r) as [cs m d] eqn:Es. cbn [chunks].
    pose proof (@remove_each_fold documentId cs [] 0 m d (Forall_nil _)) as H.
    cbn [app] in H. rewrite H. reflexivity.
  - intros other c Ho Hc. unfold belongs in *.
    apply starts_with_length in Ho, Hc. destruct Ho as [mid ->]. destruct Hc as [rest ->].
    replace ((((documentId ++ str "-") ++ mid) ++ str "-") ++ rest)
      with ((documentId ++ str "-") ++ (mid ++ str "-" ++ rest))
      by now rewrite <- !app_assoc.
    apply starts_with_app.
Qed.

(** *** Adding chunks *)

Lemma nth_error_skipn_hd {A} (l : list A) :
  forall i, nth_error l i = hd_error (skipn i l)
            /\ skipn (S i) l = tl (skipn i l).
Proof.
  induction l as [|x l IH]; intros [|i]; simpl; auto.
Qed.

Lemma add_embedded_fitting (cs : list Chunk) (es : list (list number)) :
  forall i st,
  Forall (fun e => len e = Store.dimensions st) (skipn i es) ->
  add_embedded cs es i st
  = (if (length cs <=? length (skipn i es))%nat then Ok tt else Throw TypeError,
     with_chunks st (chunks st ++ pair_up cs (skipn i es))).
Proof.
  unfold with_chunks.
  induction cs as [|c cs IH]; intros i st Hfit.
  - cbn. rewrite app_nil_r. now destruct st.
  - cbn [add_embedded]. destruct (nth_error_skipn_hd es i) as [E1 E2]. rewrite E1.
    destruct (skipn i es) as [|e rest] eqn:Es; cbn [hd_error].
    + cbn. rewrite app_nil_r. now destruct st.
    + apply Forall_cons_iff in Hfit. destruct Hfit as [He Hrest].
      unfold add, validateDimensions. cbn [Store.embedding].
      apply Z.eqb_eq in He. rewrite He. cbn [negb].
      rewrite IH; cbn [Store.dimensions chunks Store.model]; rewrite E2; cbn [tl].
      * unfold pair_up. cbn [combine map length fst snd]. rewrite <- app_assoc.
        reflexivity.
      * exact Hrest.
Qed.

Lemma add_embedded_ok (cs : list Chunk) (es : list (list number)) :
  forall i st st',
  add_embedded cs es i st = (Ok tt, st') ->
  st' = with_chunks st (chunks st ++ pair_up cs (skipn i es))
  /\ (length cs <= length (skipn i es))%nat.
Proof.
  unfold with_chunks.
  induction cs as [|c cs IH]; intros i st st' E.
  - cbn in E. injection E as <-. cbn. rewrite app_nil_r. split; [now destruct st|lia].
  - cbn [add_embedded] in E. destruct (nth_error_skipn_hd es i) as [E1 E2].
    rewrite E1 in E.
    destruct (skipn i es) as [|e rest] eqn:Es; cbn [hd_error] in E; [discriminate|].
    unfold add, validateDimensions in E. cbn [Store.embedding] in E.
    destruct (negb (len e =? Store.dimensions st)); [discriminate|].
    apply IH in E. rewrite E2 in E. cbn [tl chunks Store.model Store.dimensions] in E.
    destruct E as [-> Hlen]. split; [|cbn [length]; lia].
    unfold pair_up. cbn [combine map fst snd]. now rewrite <- app_assoc.
Qed.

(** X22: [addChunks] on no chunk does nothing and asks the provider for
    nothing.  Otherwise it asks for the embeddings of the contents, in
    order.  When the provider rejects, the call throws what it rejected
    with and the store is as before.  When it resolves to vectors of the
    declared length, the chunks are appended with their vectors in order
    and the instance is marked as initialized, unless there are fewer
    vectors than chunks: then the chunks that got a vector are in the
    store and the call throws a type error. *)
Theorem addChunks_cases (State : Type) (r : RAG State) :
  addChunks [] r = (Ok tt, r)
  /\ (forall c cs e p,
       Embeddings.embed (map chunk_content (c :: cs)) (embedding r) = (Throw e, p) ->
       addChunks (c :: cs) r = (Throw e, with_embedding r p))
  /\ (forall c cs es p,
       Embeddings.embed (map chunk_content (c :: cs)) (embedding r) = (Ok es, p) ->
       Forall (fun e => len e = Store.dimensions (store r)) es ->
       addChunks (c :: cs) r
       = let st := with_chunks (store r) (chunks (store r) ++ pair_up (c :: cs) es) in
         if (length (c :: cs) <=? length es)%nat
         then (Ok tt, with_store (with_embedding r p) st true)
         else (Throw TypeError, with_store (with_embedding r p) st (initialized r))).
Proof.
  split; [reflexivity|]. split.
  - intros c cs e p E. unfold addChunks. now rewrite E.
  - intros c cs es p E Hfit. unfold addChunks. rewrite E.
    rewrite add_embedded_fitting by exact Hfit. cbn [skipn]. cbv zeta.
    now destruct (length (c :: cs) <=? length es)%nat.
Qed.

(** *** A document added and removed *)

Lemma pair_up_ids (cs : list Chunk) :
  forall es, (length cs <= length es)%nat -> map id (pair_up cs es) = map chunk_id cs.
Proof.
  unfold pair_up.
  induction cs as [|c cs IH]; intros [|e es] H; simpl in *; try reflexivity; try lia.
  rewrite IH by lia. reflexivity.
Qed.

Lemma addChunks_ok (State : Type) (chunks_ : list Chunk) (r r1 : RAG State) :
  addChunks chunks_ r = (Ok tt, r1) ->
  exists new,
    store r1 = with_chunks (store r) (chunks (store r) ++ new)
    /\ map id new = map chunk_id chunks_.
Proof.
  unfold addChunks. destruct chunks_ as [|c cs].
  - intros E. injection E as <-. exists []. rewrite app_nil_r.
    split; [|reflexivity]. unfold with_chunks. now destruct (store r).
  - destruct (Embeddings.embed _ _) as [[es|e|] p]; try discriminate.
    destruct (add_embedded (c :: cs) es 0 (store r)) as [[[]|e|] st] eqn:Ea;
      try discriminate.
    intros E. injection E as <-. cbn [store with_store].
    apply add_embedded_ok in Ea. cbn [skipn] in Ea. destruct Ea as [-> Hlen].
    exists (pair_up (c :: cs) es). split; [reflexivity|]. now apply pair_up_ids.
Qed.

Lemma filter_none {A} (p : A -> bool) (l : list A) :
  Forall (fun x => p x = false) l -> List.filter p l = [].
Proof. induction 1 as [|x l Hx _ IH]; simpl; [reflexivity|]. now rewrite Hx. Qed.

Lemma filter_all {A} (p : A -> bool) (l : list A) :
  Forall (fun x => p x = true) l -> List.filter p l = l.
Proof. induction 1 as [|x l Hx _ IH]; simpl; [reflexivity|]. now rewrite Hx, IH. Qed.

(** X23: a document added and removed again.  When [addDocument] has
    returned and no record stored before has an id that starts with the id
    of the document and a dash, [removeDocument] answers the number of
    chunks that [addDocument] returned and the store is again the store
    from before the document was added. *)
Theorem removeDocument_undoes_addDocument (State : Type) (fuel : nat)
    (id_ content_ : jsstring) (metadata_ : option Metadata) (r r1 : RAG State)
    (chunks_ : list Chunk) :
  addDocument fuel id_ content_ metadata_ r = (Ok chunks_, r1) ->
  Forall (fun c => belongs id_ c = false) (chunks (store r)) ->
  fst (removeDocument id_ r1) = len chunks_
  /\ store (snd (removeDocument id_ r1)) = store r.
Proof.
  unfold addDocument. intros E Hold.
  destruct (createChunks fuel content_ id_ metadata_ (Some (chunkOptions r)))
    as [cs| |] eqn:Ec; try discriminate.
  destruct (addChunks cs r) as [[[]|e|] r'] eqn:Ea; try discriminate.
  injection E as <- <-.
  destruct (@addChunks_ok _ _ _ _ Ea) as [new [Es Hids]].
  assert (Hnew : Forall (fun c => belongs id_ c = true) new).
  { apply Forall_forall. intros c Hc.
    assert (Hin : In (id c) (map chunk_id cs)) by (rewrite <- Hids; now apply in_map).
    rewrite (DocumentsProperties.createChunks_ids _ _ _ _ _ Ec) in Hin.
    apply in_map_iff in Hin. destruct Hin as [i [Hi _]].
    unfold belongs. rewrite <- Hi. unfold label. rewrite app_assoc.
    apply starts_with_app. }
  assert (Hlen : len new = len cs).
  { unfold len. f_equal. rewrite <- (length_map id new), Hids. apply length_map. }
  destruct (removeDocument_parts id_ r') as [E1 E2]. rewrite E1, E2, Es.
  cbn [chunks with_chunks]. rewrite !filter_app.
  rewrite (filter_none _ Hold), (filter_all _ Hnew).
  rewrite (filter_all (fun c => negb (belongs id_ c)) (l := chunks (store r))),
          (filter_none (fun c => negb (belongs id_ c)) (l := new)).
  - cbn [app]. split; [exact Hlen|]. rewrite app_nil_r. unfold with_chunks.
    cbn. now destruct (store r).
  - eapply Forall_impl; [|exact Hnew]. cbv beta. now intros c ->.
  - eapply Forall_impl; [|exact Hold]. cbv beta. now intros c ->.
Qed.

Lemma removeDocument_undoes_addDocument_witness :
  exists chunks_ r1,
    addDocument 0 (str "doc") (str "Hello world.") None constant_rag = (Ok chunks_, r1)
    /\ fst (removeDocument (str "doc") r1) = len chunks_
    /\ store (snd (removeDocument (str "doc") r1)) = store constant_rag.
Proof.
  eexists. eexists. split; [vm_compute; reflexivity|].
  apply (@removeDocument_undoes_addDocument _ 0 (str "doc") (str "Hello world.") None
           constant_rag);
    [vm_compute; reflexivity|constructor].
Defined.

(** *** Instances over a provider that keeps its promise *)

Lemma embed_dependable (State : Type) (p : Embeddings.EmbeddingProvider State)
    (texts : list jsstring) :
  dependable p ->
  exists vs p',
    Embeddings.embed texts p = (Ok vs, p')
    /\ length vs = length texts
    /\ Forall (fun v => len v = Embeddings.dimensions p) vs
    /\ Embeddings.dimensions p' = Embeddings.dimensions p
    /\ Embeddings.model p' = Embeddings.model p
    /\ dependable p'.
Proof.
  intros [I [H0 Hstep]].
  destruct (Hstep _ texts H0) as [vs [s' [E [Hlen [Hfit Hs']]]]].
  unfold Embeddings.embed. rewrite E.
  eexists. eexists. split; [reflexivity|]. repeat split; auto.
  exists I. split; [exact Hs'|exact Hstep].
Qed.

Lemma pair_up_length (cs : list Chunk) :
  forall es, (length cs <= length es)%nat -> length (pair_up cs es) = length cs.
Proof.
  intros es H. unfold pair_up. rewrite length_map, length_combine. lia.
Qed.

Lemma pair_up_fit (d : Z) (cs : list Chunk) (es : list (list number)) :
  Forall (fun e => len e = d) es ->
  Forall (fun c => len (Store.embedding c) = d) (pair_up cs es).
Proof.
  intros H. unfold pair_up. apply Forall_forall. intros x Hx.
  apply in_map_iff in Hx. destruct Hx as [[c e] [<- Hin]].
  apply in_combine_r in Hin. cbn. exact (proj1 (Forall_forall _ _) H e Hin).
Qed.

Lemma addChunks_sound (State : Type) (chunks_ : list Chunk) (r : RAG State) :
  sound r ->
  exists r', addChunks chunks_ r = (Ok tt, r')
    /\ sound r' /\ size r' = size r + len chunks_
    /\ chunkOptions r' = chunkOptions r.
Proof.
  intros [Hd [Hwf Hp]]. destruct chunks_ as [|c cs].
  - exists r. repeat split; auto. rewrite len_nil. lia.
  - destruct (embed_dependable (map chunk_content (c :: cs)) Hp)
      as [es [p' [E [Hlen [Hfit [Hd' [Hm' Hp']]]]]]].
    rewrite length_map in Hlen.
    unfold addChunks. rewrite E.
    rewrite add_embedded_fitting by (cbn [skipn]; now rewrite Hd).
    cbn [skipn]. rewrite Hlen, Nat.leb_refl.
    eexists. split; [reflexivity|]. split; [|split; [|reflexivity]].
    + split; [|split]; cbn [store embedding with_store with_embedding with_chunks
                            Store.dimensions chunks].
      * congruence.
      * unfold store_wf. cbn [chunks Store.dimensions]. apply Forall_app.
        split; [exact Hwf|]. apply pair_up_fit. cbn [with_chunks Store.dimensions]. now rewrite Hd.
      * exact Hp'.
    + unfold size, Store.size. cbn [store with_store with_chunks chunks].
      rewrite len_app. f_equal. unfold len. now rewrite pair_up_length by lia.
Qed.

Lemma search_sound (State : Type) (query : jsstring)
    (options : option SearchOptionsObject) (r : RAG State) :
  sound r ->
  exists results r', search query options r = (Ok results, r') /\ sound r'.
Proof.
  intros [Hd [Hwf Hp]].
  destruct (embed_dependable [query] Hp) as [es [p' [E [Hlen [Hfit [Hd' [Hm' Hp']]]]]]].
  unfold search. rewrite E.
  destruct es as [|q es]; [discriminate|].
  apply Forall_cons_iff in Hfit. destruct Hfit as [Hq _].
  destruct (@StoreLawsProperties.search_returns (store r) q
              (as_options (spread (searchDefaults r) options)) Hwf) as [results Er];
    [congruence|].
  rewrite Er. eexists. eexists. split; [reflexivity|].
  split; [|split]; cbn [store embedding with_embedding]; [congruence|exact Hwf|exact Hp'].
Qed.

Lemma remove_sound (State : Type) (id_ : jsstring) (r : RAG State) :
  sound r -> sound (snd (remove id_ r)).
Proof.
  intros [Hd [Hwf Hp]]. unfold remove.
  pose proof (StoreLawsProperties.remove_wf id_ Hwf) as Hw.
  assert (Hk : Store.dimensions (snd (Store.remove id_ (store r)))
               = Store.dimensions (store r)).
  { unfold Store.remove. now destruct (findIndex _ _). }
  destruct (Store.remove id_ (store r)) as [found st]. cbn [snd] in *.
  split; [|split]; cbn [store embedding with_store]; [congruence|exact Hw|exact Hp].
Qed.

Lemma removeDocument_sound (State : Type) (documentId : jsstring) (r : RAG State) :
  sound r -> sound (snd (removeDocument documentId r)).
Proof.
  intros [Hd [Hwf Hp]].
  destruct (removeDocument_parts documentId r) as [_ Es].
  split; [|split].
  - rewrite Es. cbn [with_chunks Store.dimensions].
    unfold removeDocument. destruct (remove_each _ _). cbn [snd embedding with_store].
    exact Hd.
  - rewrite Es. unfold store_wf. cbn [with_chunks chunks Store.dimensions].
    apply Forall_forall. intros c Hc. apply filter_In in Hc.
    exact (proj1 (Forall_forall _ _) Hwf c (proj1 Hc)).
  - unfold removeDocument. destruct (remove_each _ _). exact Hp.
Qed.

Lemma createChunksFromDocuments_returns (fuel : nat) (documents : list Document)
    (o : Chunker.ChunkOptions) :
  ChunkerSpec.valid_options o -> Chunker.given (Chunker.separator o) = None ->
  exists out, createChunksFromDocuments fuel documents (Some o) = Ok out.
Proof.
  intros Hv Hsep. induction documents as [|doc rest [more IH]];
    cbn [createChunksFromDocuments]; [eauto|].
  rewrite DocumentsProperties.createChunks_cases. cbn [default].
  destruct (ChunkerLawsProperties.chunkText_plain fuel (doc_content doc) Hv Hsep)
    as [texts [Et _]].
  rewrite Et, IH. cbn [bind]. eauto.
Qed.

(** X24: an instance whose store has the dimensions of its provider,
    over a provider that resolves every call to one vector of the declared
    length for each text, stays such an instance under every method, and
    its methods do not throw: [addChunks] adds every chunk, [search] and
    [getContext] return, and [addDocument] and [addDocuments] return the
    chunks they added when the chunk options are valid and name no
    separator. *)
Theorem sound_instance_never_throws (State : Type) (r : RAG State) :
  sound r ->
  (forall chunks_,
     exists r', addChunks chunks_ r = (Ok tt, r')
                /\ sound r' /\ size r' = size r + len chunks_)
  /\ (forall query options,
      exists results r', search query options r = (Ok results, r') /\ sound r')
  /\ (forall query separator_ options,
      exists context r',
        getContext query separator_ options r = (Ok context, r') /\ sound r')
  /\ (ChunkerSpec.valid_options (chunkOptions r) ->
      Chunker.given (Chunker.separator (chunkOptions r)) = None ->
      forall fuel,
      (forall id_ content_ metadata_,
         exists chunks_ r',
           addDocument fuel id_ content_ metadata_ r = (Ok chunks_, r')
           /\ sound r' /\ size r' = size r + len chunks_)
      /\ (forall documents,
         exists chunks_ r',
           addDocuments fuel documents r = (Ok chunks_, r')
           /\ sound r' /\ size r' = size r + len chunks_))
  /\ (forall id_, sound (snd (remove id_ r)))
  /\ (forall documentId, sound (snd (removeDocument documentId r)))
  /\ sound (snd (clear r)).
Proof.
  intros Hs. split; [|split; [|split; [|split; [|split; [|split]]]]].
  - intros chunks_. destruct (addChunks_sound chunks_ Hs) as [r' [E [H1 [H2 _]]]]. eauto.
  - intros query options. now apply search_sound.
  - intros query separator_ options. unfold getContext.
    destruct (search_sound query (Some (default empty_options options)) Hs)
      as [results [r' [E H]]].
    rewrite E. eauto.
  - intros Hv Hsep fuel. split.
    + intros id_ content_ metadata_. unfold addDocument.
      rewrite DocumentsProperties.createChunks_cases. cbn [default].
      destruct (ChunkerLawsProperties.chunkText_plain fuel content_ Hv Hsep)
        as [texts [Et _]].
      rewrite Et.
      match goal with |- context [addChunks ?cs r] =>
        destruct (addChunks_sound cs Hs) as [r' [E [H1 [H2 _]]]]; rewrite E end.
      eauto.
    + intros documents. unfold addDocuments.
      destruct (createChunksFromDocuments_returns fuel documents Hv Hsep) as [out Eo].
      rewrite Eo.
      destruct (addChunks_sound out Hs) as [r' [E [H1 [H2 _]]]]. rewrite E. eauto.
  - intros id_. now apply remove_sound.
  - intros documentId. now apply removeDocument_sound.
  - destruct Hs as [Hd [Hwf Hp]]. split; [|split]; [exact Hd|constructor|exact Hp].
Qed.

Lemma MockEmbedding_dependable (dims : option Z) :
  0 <= default 384 dims -> dependable (Embeddings.MockEmbedding dims).
Proof.
  intros Hpos. exists (EmbeddingsLaws.coherent (default 384 dims)). split.
  - intros text v H. discriminate H.
  - intros s texts Hc. cbn [Embeddings.embed_with Embeddings.MockEmbedding].
    destruct (EmbeddingsProperties.mock_embed_answers texts Hc) as [H1 H2].
    destruct (Embeddings.mock_embed (default 384 dims) texts s) as [answer s'].
    cbn [fst snd] in *. exists answer, s'. split; [reflexivity|].
    subst answer. split; [apply length_map|]. split; [|exact H2].
    apply Forall_forall. intros v Hv. apply in_map_iff in Hv.
    destruct Hv as [text [<- _]]. unfold len.
    rewrite EmbeddingsProperties.generateVector_length.
    cbn [Embeddings.dimensions Embeddings.MockEmbedding]. lia.
Qed.

Lemma constant_provider_dependable : dependable constant_provider.
Proof.
  exists (fun _ => True). split; [exact I|].
  intros s texts _. eexists. eexists. split; [reflexivity|].
  split; [apply length_map|]. split; [|exact I].
  apply Forall_forall. intros v Hv. apply in_map_iff in Hv.
  now destruct Hv as [text [<- _]].
Qed.

Lemma sound_instance_never_throws_witness :
  exists results r',
    search (str "query") None constant_rag = (Ok results, r') /\ sound r'.
Proof.
  assert (Hs : sound constant_rag).
  { split; [reflexivity|]. split; [constructor|apply constant_provider_dependable]. }
  exact (proj1 (proj2 (@sound_instance_never_throws _ constant_rag Hs))
           (str "query") None).
Defined.

(** X25: [RAG.withEmbedding] over a provider that keeps its promise gives
    such an instance, empty, with the model name and the dimensions of the
    provider; [MockEmbedding] with non-negative dimensions is such a
    provider. *)
Theorem withEmbedding_is_sound (State : Type)
    (provider : Embeddings.EmbeddingProvider State)
    (chunkOptions_ : option Chunker.ChunkOptions)
    (searchOptions_ : option SearchOptionsObject) :
  (dependable provider ->
   sound (withEmbedding provider chunkOptions_ searchOptions_)
   /\ size (withEmbedding provider chunkOptions_ searchOptions_) = 0
   /\ dimensions (withEmbedding provider chunkOptions_ searchOptions_)
      = Embeddings.dimensions provider
   /\ model (withEmbedding provider chunkOptions_ searchOptions_)
      = Embeddings.model provider)
  /\ (forall dims, 0 <= default 384 dims -> dependable (Embeddings.MockEmbedding dims)).
Proof.
  split.
  - intros Hp. repeat split; try reflexivity; [constructor|exact Hp].
  - apply MockEmbedding_dependable.
Qed.

End RagProperties.

(** ** The command line *)

Module CliProperties.

Import Cli CliLaws.





End CliProperties.
